(** * Costing engine: recalculation pipeline

    A shallow embedding of the recalculation core of the costing engine
    ([internal/modules/costing/engine.go], the formula parser of
    [pkg/formula], the repositories of [internal/infrastructure/persistence])
    and the properties of its specification, stated and settled on the
    embedding.

    Conventions.
    - Go [float64] is Rocq's primitive binary64 [float]; [+], [*] are the
      IEEE-754 operations, evaluated by the kernel.
    - Go [int]/[int64] are [Z]; a 64-bit wrap-around is written [wrap64].
    - [uuid.UUID] is a 128-bit number, ordered as PostgreSQL orders [uuid].
    - [map[string]interface{}] is [gmap string Value], [Value] being the
      dynamic types the engine distinguishes.
    - The goroutines of [RecalculateAll] are a labelled transition system
      whose steps are computed by [step_fun] from a scheduling [Choice]. *)

From Stdlib Require Import PrimFloat SpecFloat FloatOps Uint63 ZArith NArith Ascii String DecimalString DecimalN.
From Stdlib.Strings Require Import Byte.
From stdpp Require Import gmap strings list sorting.

Local Open Scope Z_scope.

(** ** Go values *)

Definition uuid := N.

(** Go [error] values carry a message. *)
Inductive result (A : Type) : Type :=
| Ok (a : A)
| Err (msg : string).
Arguments Ok {A} a.
Arguments Err {A} msg.

(** The dynamic types of [interface{}] that the engine's type switches and
    [encoding/json] tell apart.  A [VFloat32] carries the binary64 widening of
    its binary32 value. *)
Inductive Value : Type :=
| VFloat64 (f : float)
| VFloat32 (f : float)
| VInt (n : Z)
| VInt64 (n : Z)
| VString (s : string)
| VBool (b : bool).

Abbreviation Params := (gmap string Value).

Definition wrap64 (z : Z) : Z := (z + 2 ^ 63) mod 2 ^ 64 - 2 ^ 63.

(** [float64(n)] for a Go [int]: the nearest binary64, ties to even. *)
Definition float64_of_int (n : Z) : float :=
  if n =? - 2 ^ 63 then (- (of_uint63 (Uint63.of_Z (2 ^ 62)) * 2))%float
  else if n <? 0 then (- of_uint63 (Uint63.of_Z (- n)))%float
  else of_uint63 (Uint63.of_Z n).

(** ** crypto/sha256 and encoding/hex (Go standard library) *)

Module sha256.
Local Open Scope N_scope.

Definition mask32 : N := 0xFFFFFFFF.
Definition add32 (a b : N) : N := N.land (a + b) mask32.
Definition rotr (n x : N) : N :=
  N.lor (N.shiftr x n) (N.land (N.shiftl x (32 - n)) mask32).
Definition not32 (x : N) : N := N.lxor x mask32.

Definition Ch (x y z : N) : N := N.lxor (N.land x y) (N.land (not32 x) z).
Definition Maj (x y z : N) : N :=
  N.lxor (N.lxor (N.land x y) (N.land x z)) (N.land y z).
Definition bsig0 (x : N) : N := N.lxor (N.lxor (rotr 2 x) (rotr 13 x)) (rotr 22 x).
Definition bsig1 (x : N) : N := N.lxor (N.lxor (rotr 6 x) (rotr 11 x)) (rotr 25 x).
Definition ssig0 (x : N) : N := N.lxor (N.lxor (rotr 7 x) (rotr 18 x)) (N.shiftr x 3).
Definition ssig1 (x : N) : N := N.lxor (N.lxor (rotr 17 x) (rotr 19 x)) (N.shiftr x 10).

(** The constants, as FIPS 180-4 defines them: the first 32 bits of the
    fractional part of the cube root of each of the first 64 primes for [K],
    of the square root of each of the first 8 primes for [H0]. *)
Definition prime (n : N) : bool :=
  forallb (fun d => (n <? d * d) || negb (n mod d =? 0))
          (map N.of_nat (seq 2 (N.to_nat n - 2)%nat)).

Definition primes (count : nat) : list N :=
  take count (List.filter prime (map N.of_nat (seq 2 310))).

(** The greatest [r' >= r] with [r' ^ k <= x] that differs from [r] in the
    low [bits] bits only. *)
Fixpoint root (k : N) (bits : nat) (x r : N) : N :=
  match bits with
  | O => r
  | S b =>
      let r' := N.lor r (N.shiftl 1 (N.of_nat b)) in
      root k b x (if r' ^ k <=? x then r' else r)
  end.

Definition root_fraction (k p : N) : N :=
  N.land (root k 40 (N.shiftl p (32 * k)) 0) mask32.

Definition K : list N := Eval vm_compute in map (root_fraction 3) (primes 64).
Definition H0 : list N := Eval vm_compute in map (root_fraction 2) (primes 8).

(** Big-endian bytes of the low [8 * n] bits of [x]. *)
Fixpoint be_bytes (n : nat) (x : N) : list N :=
  match n with
  | O => []
  | S n' => N.land (N.shiftr x (8 * N.of_nat n')) 0xFF :: be_bytes n' x
  end.

Definition be_word (bs : list N) : N :=
  fold_left (fun acc b => N.lor (N.shiftl acc 8) b) bs 0.

(** The message, a [1] bit, zeros up to 56 mod 64, the bit length on 8 bytes. *)
Definition pad (msg : list N) : list N :=
  let len := N.of_nat (length msg) in
  let zeros := N.to_nat ((119 - len mod 64) mod 64) in
  msg ++ 0x80 :: replicate zeros 0 ++ be_bytes 8 (8 * len).

Fixpoint chunks (fuel n : nat) (l : list N) : list (list N) :=
  match fuel, l with
  | O, _ | _, [] => []
  | S fuel', _ => take n l :: chunks fuel' n (drop n l)
  end.

(** Message schedule; [w] holds the words so far, most recent first. *)
Fixpoint expand (n : nat) (w : list N) : list N :=
  match n with
  | O => w
  | S n' =>
      let x := add32 (add32 (ssig1 (nth 1 w 0)) (nth 6 w 0))
                     (add32 (ssig0 (nth 14 w 0)) (nth 15 w 0)) in
      expand n' (x :: w)
  end.

Definition schedule (block : list N) : list N :=
  rev (expand 48 (rev (map be_word (chunks 16 4 block)))).

Definition round (st : list N) (kw : N * N) : list N :=
  match st with
  | [a; b; c; d; e; f; g; h] =>
      let t1 := add32 (add32 (add32 h (bsig1 e)) (add32 (Ch e f g) kw.1)) kw.2 in
      let t2 := add32 (bsig0 a) (Maj a b c) in
      [add32 t1 t2; a; b; c; add32 d t1; e; f; g]
  | _ => st
  end.

Definition compress (h : list N) (block : list N) : list N :=
  zip_with add32 h (fold_left round (zip K (schedule block)) h).

Definition digest (msg : list N) : list N :=
  let p := pad msg in
  flat_map (be_bytes 4) (fold_left compress (chunks (length p) 64 p) H0).

Definition byte_of_N (n : N) : byte :=
  match Byte.of_N n with Some b => b | None => x00 end.

(** [sha256.Sum256]. *)
Definition Sum256 (data : list byte) : list byte :=
  map byte_of_N (digest (map Byte.to_N data)).
End sha256.

Module hex.
Definition hextable : list ascii := list_ascii_of_string "0123456789abcdef".

Definition digit (n : N) : ascii := nth (N.to_nat n) hextable "0"%char.

(** [hex.EncodeToString]: two lowercase digits per byte, high nibble first. *)
Fixpoint EncodeToString (src : list byte) : string :=
  match src with
  | [] => EmptyString
  | b :: rest =>
      let n := Byte.to_N b in
      String (digit (N.shiftr n 4)) (String (digit (N.land n 0x0f)) (EncodeToString rest))
  end.
End hex.

(** ** strconv and encoding/json (Go standard library) *)

Definition bytes (s : string) : list byte := list_byte_of_string s.

(** The double quote, U+0022. *)
Definition dquote : string := String "034"%char EmptyString.

Module strconv.
(** Decimal digits of a natural number, most significant first. *)
Definition digits (n : Z) : string :=
  DecimalString.NilZero.string_of_uint (N.to_uint (Z.to_N n)).

(** [strconv.Itoa]. *)
Definition Itoa (n : Z) : string :=
  if n <? 0 then String "-" (digits (- n)) else digits n.

(** *** Shortest decimal of a binary floating-point number

    [x = m * 2^e] with [0 < m] is first brought to the canonical mantissa
    [m'] and exponent [e'] of its format ([p] bits of precision, least
    exponent [emin]).  The numbers that round to [x] form the interval
    between the midpoints to its neighbours; all three are held in units
    of [2^(e'-2)]. *)
Record interval := { lo : Z; mid : Z; hi : Z; unit_exp : Z; closed : bool }.

Definition rounding_interval (p emin m e : Z) : interval :=
  let e' := Z.max emin (e + Z.log2 m + 1 - p) in
  let m' := Z.shiftl m (e - e') in
  {| lo := if (m' =? 2 ^ (p - 1)) && (emin <? e') then 4 * m' - 1 else 4 * m' - 2;
     mid := 4 * m';
     hi := 4 * m' + 2;
     unit_exp := e' - 2;
     closed := Z.even m' |}.

(** [v * 2^s] against [c * 10^t], both multiplied by the common
    denominator: [scaled s t v] against [c * denom s t]. *)
Definition scaled (s t v : Z) : Z := v * 2 ^ Z.max s 0 * 10 ^ Z.max (- t) 0.
Definition denom (s t : Z) : Z := 2 ^ Z.max (- s) 0 * 10 ^ Z.max t 0.

(** [10^k <= v * 2^s]. *)
Definition ge_pow10 (s v k : Z) : bool := denom s k <=? scaled s k v.

(** The decimal exponent of the leading digit of [v * 2^s]. *)
Definition log10_floor (s v : Z) : Z :=
  let k := (Z.log2 v + s) * 1233 / 4096 in
  let k := if ge_pow10 s v k then k else k - 1 in
  if ge_pow10 s v (k + 1) then k + 1 else k.

Definition inside (i : interval) (t c : Z) : bool :=
  let s := unit_exp i in
  let x := c * denom s t in
  if closed i then (scaled s t (lo i) <=? x) && (x <=? scaled s t (hi i))
  else (scaled s t (lo i) <? x) && (x <? scaled s t (hi i)).

(** The decimals with [n] digits next to [x], when they round to [x]; the
    nearer one, the even one on a tie. *)
Definition candidate (i : interval) (k : Z) (n : Z) : option (Z * Z) :=
  let s := unit_exp i in
  let t := k - (n - 1) in
  let below := scaled s t (mid i) / denom s t in
  let above := below + 1 in
  let dist c := Z.abs (c * denom s t - scaled s t (mid i)) in
  match inside i t below, inside i t above with
  | true, true =>
      if dist below <? dist above then Some (below, t)
      else if dist above <? dist below then Some (above, t)
      else Some (if Z.even below then below else above, t)
  | true, false => Some (below, t)
  | false, true => Some (above, t)
  | false, false => None
  end.

Fixpoint search (fuel : nat) (i : interval) (k n : Z) : Z * Z :=
  match fuel with
  | O => (0, 0)
  | S fuel' =>
      match candidate i k n with
      | Some dt => dt
      | None => search fuel' i k (n + 1)
      end
  end.

Fixpoint strip_zeros (fuel : nat) (d t : Z) : Z * Z :=
  match fuel with
  | O => (d, t)
  | S fuel' => if (d mod 10 =? 0) && (0 <? d) then strip_zeros fuel' (d / 10) (t + 1) else (d, t)
  end.

(** The shortest digits [d] and exponent [t] with [d * 10^t] rounding to
    [m * 2^e]. *)
Definition shortest (p emin m e : Z) : Z * Z :=
  let i := rounding_interval p emin m e in
  let '(d, t) := search 20 i (log10_floor (unit_exp i) (mid i)) 1 in
  strip_zeros 20 d t.

(** Format ['e'] with the shortest precision: [d.ddde±xx]. *)
Definition fmtE (d t : Z) : string :=
  let ds := digits d in
  let x := t + Z.of_nat (String.length ds) - 1 in
  let expo := (if x <? 0 then "-" else "+") +:+
              (if Z.abs x <? 10 then "0" else EmptyString) +:+ digits (Z.abs x) in
  match ds with
  | String c EmptyString => String c ("e" +:+ expo)
  | String c rest => String c ("." +:+ rest +:+ "e" +:+ expo)
  | EmptyString => EmptyString
  end%string.

Fixpoint zeros (n : nat) : string :=
  match n with O => EmptyString | S n' => String "0" (zeros n') end.

(** Format ['f'] with the shortest precision. *)
Definition fmtF (d t : Z) : string :=
  let ds := digits d in
  let nd := Z.of_nat (String.length ds) in
  let dp := t + nd in
  (if dp <=? 0 then "0." +:+ zeros (Z.to_nat (- dp)) +:+ ds
   else if nd <=? dp then ds +:+ zeros (Z.to_nat (dp - nd))
   else String.substring 0 (Z.to_nat dp) ds +:+ "." +:+
        String.substring (Z.to_nat dp) (Z.to_nat (nd - dp)) ds).

(** [strconv.AppendFloat(b, f, fmt, -1, bits)] for a finite [f]; [fmt] is
    ['e'] when [use_e], ['f'] otherwise. *)
Definition FormatFloat (bits : Z) (use_e : bool) (f : float) : string :=
  match Prim2SF f with
  | S754_zero s => ((if s then "-" else EmptyString) +:+ (if use_e then "0e+00" else "0"))
  | S754_finite s m e =>
      let '(d, t) := if bits =? 32 then shortest 24 (-149) (Z.pos m) e
                     else shortest 53 (-1074) (Z.pos m) e in
      ((if s then "-" else EmptyString) +:+ (if use_e then fmtE d t else fmtF d t))
  | S754_infinity s => if s then "-Inf" else "+Inf"
  | S754_nan => "NaN"
  end.
End strconv.

Module json.
Definition hex4 (n : N) : string :=
  String (hex.digit (N.land (N.shiftr n 12) 0xf))
    (String (hex.digit (N.land (N.shiftr n 8) 0xf))
       (String (hex.digit (N.land (N.shiftr n 4) 0xf))
          (String (hex.digit (N.land n 0xf)) EmptyString))).

(** One byte of a string below [0x80], as the encoder writes it with HTML
    escaping on (the default of [json.Marshal]). *)
Definition escape (c : ascii) : string :=
  let n := N_of_ascii c in
  if (n =? 0x22)%N then "\" +:+ dquote
  else if (n =? 0x5c)%N then "\\"
  else if (n =? 0x08)%N then "\b"
  else if (n =? 0x0c)%N then "\f"
  else if (n =? 0x0a)%N then "\n"
  else if (n =? 0x0d)%N then "\r"
  else if (n =? 0x09)%N then "\t"
  else if (n <? 0x20)%N || (n =? 0x3c)%N || (n =? 0x3e)%N || (n =? 0x26)%N
       then "\u" +:+ hex4 n
  else String c EmptyString.

(** The body of a JSON string.  Bytes from [0x80] up are copied, except
    the line and paragraph separators U+2028 and U+2029 (E2 80 A8/A9); the
    replacement of ill-formed UTF-8 by U+FFFD is not modelled: strings are
    taken to be well-formed UTF-8. *)
Fixpoint escape_string (s : string) : string :=
  match s with
  | EmptyString => EmptyString
  | String c rest =>
      match rest with
      | String c1 (String c2 rest') =>
          if (N_of_ascii c =? 0xe2)%N && (N_of_ascii c1 =? 0x80)%N
             && ((N_of_ascii c2 =? 0xa8)%N || (N_of_ascii c2 =? 0xa9)%N)
          then "\u202" +:+ String (hex.digit (N.land (N_of_ascii c2) 0xf))
                 (escape_string rest')
          else escape c +:+ escape_string rest
      | _ => escape c +:+ escape_string rest
      end
  end.

Definition quote (s : string) : string := dquote +:+ escape_string s +:+ dquote.

(** The float encoder: NaN and the infinities are an [UnsupportedValueError];
    format ['e'] is used below [1e-6] and from [1e21] on (the constants
    rounded to the value's own precision), and a two-digit exponent [e-0x] is cut to [e-x]. *)
Definition strip_exp_zero (s : string) : string :=
  let n := String.length s in
  match String.get (n - 4) s, String.get (n - 3) s, String.get (n - 2) s with
  | Some e, Some sg, Some z =>
      if (4 <=? n)%nat && Ascii.eqb e "e"
         && (Ascii.eqb sg "-" || Ascii.eqb sg "+") && Ascii.eqb z "0"
      then String.substring 0 (n - 2) s +:+ String.substring (n - 1) 1 s
      else s
  | _, _, _ => s
  end.

Definition float_text (bits : Z) (f : float) : string :=
  let a := abs f in
  let use_e :=
    negb (a =? 0)%float &&
    (if (bits =? 64)%Z
     then (a <? 0x1.0c6f7a0b5ed8dp-20)%float || (0x1.b1ae4d6e2ef5p+69 <=? a)%float
     else (a <? 0x1.0c6f7ap-20)%float || (0x1.b1ae4ep+69 <=? a)%float) in
  let s := strconv.FormatFloat bits use_e f in
  if use_e then strip_exp_zero s else s.

Definition float_string (bits : Z) (f : float) : result string :=
  if is_nan f || is_infinity f
  then Err ("json: unsupported value: " +:+ strconv.FormatFloat bits false f)
  else Ok (float_text bits f).

Definition value_string (v : Value) : result string :=
  match v with
  | VFloat64 f => float_string 64 f
  | VFloat32 f => float_string 32 f
  | VInt n | VInt64 n => Ok (strconv.Itoa n)
  | VString s => Ok (quote s)
  | VBool b => Ok (if b then "true" else "false")
  end.

(** Map keys are written in the order of [strings.Compare]. *)
Definition key_le (a b : string * Value) : Prop := String.leb a.1 b.1 = true.
#[global] Instance key_le_dec : RelDecision key_le.
Proof. intros a b. unfold key_le. apply _. Defined.

Definition sorted_entries (m : Params) : list (string * Value) :=
  merge_sort key_le (map_to_list m).

Fixpoint members (first : bool) (kvs : list (string * Value)) : result string :=
  match kvs with
  | [] => Ok EmptyString
  | (k, v) :: rest =>
      match value_string v with
      | Err e => Err e
      | Ok sv =>
          match members false rest with
          | Err e => Err e
          | Ok tail =>
              Ok ((if first then EmptyString else ",") +:+ quote k +:+ ":" +:+ sv +:+ tail)
          end
      end
  end.

(** [json.Marshal] of a non-nil [map[string]interface{}]. *)
Definition Marshal (m : Params) : result (list byte) :=
  match members true (sorted_entries m) with
  | Err e => Err e
  | Ok body => Ok (bytes ("{" +:+ body +:+ "}"))
  end.
End json.

(** ** The expression engine (github.com/expr-lang/expr)

    The formula parser delegates to an external expression engine.  The
    engine is an interface here: whatever it computes, the results below
    hold.  [Compile] stands for
    [expr.Compile(expression, expr.Env(params), expr.AsFloat64())]
    and [Run] for [expr.Run(program, params)]. *)
Class ExprEngine := {
  Program : Type;
  Compile : string -> Params -> result Program;
  Run : Program -> Params -> result Value
}.

(** Modelled from the spec: the expression engine is a third-party library
    whose code is not part of the repository.  This instance implements the
    surface syntax and semantics of section 4.1 of the specification: infix
    [+ - * /], parentheses, the ternary selector, the six comparisons,
    identifiers of the parameter bag, decimal literals; every operand a
    binary64 float; a comparison usable only as the condition of [?:];
    an identifier that is not bound to a number in the bag is an error. *)
Module exprlang.
Inductive token :=
| TNum (f : float) | TIdent (s : string)
| TPlus | TMinus | TStar | TSlash | TLParen | TRParen | TQuest | TColon
| TLt | TLe | TGt | TGe | TEq | TNe.

Inductive binop := Add | Sub | Mul | Div.
Inductive cmpop := Lt | Le | Gt | Ge | Eq | Ne.

Inductive expr :=
| ENum (f : float)
| EVar (x : string)
| ENeg (e : expr)
| EBin (op : binop) (l r : expr)
| ECmp (op : cmpop) (l r : expr)
| ECond (c a b : expr).

Definition is_digit (c : ascii) : bool :=
  let n := N_of_ascii c in ((48 <=? n) && (n <=? 57))%N.
Definition is_alpha (c : ascii) : bool :=
  let n := N_of_ascii c in
  (((65 <=? n) && (n <=? 90)) || ((97 <=? n) && (n <=? 122)) || (n =? 95))%N.
Definition is_space (c : ascii) : bool :=
  let n := N_of_ascii c in ((n =? 32) || (n =? 9) || (n =? 10) || (n =? 13))%N.

(** The longest prefix of [s] whose characters satisfy [p], and the rest. *)
Fixpoint span (p : ascii -> bool) (s : list ascii) : list ascii * list ascii :=
  match s with
  | c :: rest => if p c then let '(a, b) := span p rest in (c :: a, b) else ([], s)
  | [] => ([], [])
  end.

Definition digits_value (ds : list ascii) : Z :=
  fold_left (fun acc c => 10 * acc + (Z.of_N (N_of_ascii c) - 48)) ds 0.

(** A literal [ddd.ddd]: its digits as an integer, divided by the power
    of ten of its fraction; exact up to one rounding when the integer is
    below [2^53] and the fraction has at most 22 digits, an error beyond. *)
Definition literal (int_part frac_part : list ascii) : result float :=
  let m := digits_value (int_part ++ frac_part) in
  let k := length frac_part in
  if (m <? 2 ^ 53) && (k <=? 22)%nat
  then Ok (float64_of_int m / float64_of_int (10 ^ Z.of_nat k))%float
  else Err "literal out of range".

Fixpoint lex (fuel : nat) (s : list ascii) : result (list token) :=
  match fuel with
  | O => match s with [] => Ok [] | _ => Err "lexer out of fuel" end
  | S fuel' =>
      let cons (t : token) (rest : list ascii) :=
        match lex fuel' rest with Ok ts => Ok (t :: ts) | Err e => Err e end in
      match s with
      | [] => Ok []
      | c :: rest =>
          if is_space c then lex fuel' rest
          else if is_digit c then
            let '(ip, r1) := span is_digit s in
            match r1 with
            | "."%char :: r2 =>
                let '(fp, r3) := span is_digit r2 in
                match literal ip fp with
                | Ok f => cons (TNum f) r3
                | Err e => Err e
                end
            | _ =>
                match literal ip [] with
                | Ok f => cons (TNum f) r1
                | Err e => Err e
                end
            end
          else if is_alpha c then
            let '(name, r1) := span (fun c => is_alpha c || is_digit c) s in
            cons (TIdent (string_of_list_ascii name)) r1
          else
            match c, rest with
            | "+"%char, _ => cons TPlus rest
            | "-"%char, _ => cons TMinus rest
            | "*"%char, _ => cons TStar rest
            | "/"%char, _ => cons TSlash rest
            | "("%char, _ => cons TLParen rest
            | ")"%char, _ => cons TRParen rest
            | "?"%char, _ => cons TQuest rest
            | ":"%char, _ => cons TColon rest
            | "<"%char, "="%char :: r => cons TLe r
            | "<"%char, _ => cons TLt rest
            | ">"%char, "="%char :: r => cons TGe r
            | ">"%char, _ => cons TGt rest
            | "="%char, "="%char :: r => cons TEq r
            | "!"%char, "="%char :: r => cons TNe r
            | _, _ => Err "unexpected character"
            end
      end
  end.

Definition relop (t : token) : option cmpop :=
  match t with
  | TLt => Some Lt | TLe => Some Le | TGt => Some Gt | TGe => Some Ge
  | TEq => Some Eq | TNe => Some Ne
  | _ => None
  end.

(** Recursive descent, one function per precedence level. *)
Fixpoint parse_ternary (fuel : nat) (ts : list token) : result (expr * list token) :=
  match fuel with
  | O => Err "parser out of fuel"
  | S fuel' =>
      match parse_cmp fuel' ts with
      | Ok (c, TQuest :: r1) =>
          match parse_ternary fuel' r1 with
          | Ok (a, TColon :: r2) =>
              match parse_ternary fuel' r2 with
              | Ok (b, r3) => Ok (ECond c a b, r3)
              | Err e => Err e
              end
          | Ok _ => Err "expected ':'"
          | Err e => Err e
          end
      | other => other
      end
  end
with parse_cmp (fuel : nat) (ts : list token) : result (expr * list token) :=
  match fuel with
  | O => Err "parser out of fuel"
  | S fuel' =>
      match parse_sum fuel' ts with
      | Ok (l, t :: r1) =>
          match relop t with
          | Some op =>
              match parse_sum fuel' r1 with
              | Ok (r, r2) => Ok (ECmp op l r, r2)
              | Err e => Err e
              end
          | None => Ok (l, t :: r1)
          end
      | other => other
      end
  end
with parse_sum (fuel : nat) (ts : list token) : result (expr * list token) :=
  match fuel with
  | O => Err "parser out of fuel"
  | S fuel' =>
      match parse_prod fuel' ts with
      | Ok (l, r1) => sum_rest fuel' l r1
      | Err e => Err e
      end
  end
with sum_rest (fuel : nat) (l : expr) (ts : list token) : result (expr * list token) :=
  match fuel with
  | O => Err "parser out of fuel"
  | S fuel' =>
      match ts with
      | TPlus :: r1 =>
          match parse_prod fuel' r1 with
          | Ok (r, r2) => sum_rest fuel' (EBin Add l r) r2
          | Err e => Err e
          end
      | TMinus :: r1 =>
          match parse_prod fuel' r1 with
          | Ok (r, r2) => sum_rest fuel' (EBin Sub l r) r2
          | Err e => Err e
          end
      | _ => Ok (l, ts)
      end
  end
with parse_prod (fuel : nat) (ts : list token) : result (expr * list token) :=
  match fuel with
  | O => Err "parser out of fuel"
  | S fuel' =>
      match parse_unary fuel' ts with
      | Ok (l, r1) => prod_rest fuel' l r1
      | Err e => Err e
      end
  end
with prod_rest (fuel : nat) (l : expr) (ts : list token) : result (expr * list token) :=
  match fuel with
  | O => Err "parser out of fuel"
  | S fuel' =>
      match ts with
      | TStar :: r1 =>
          match parse_unary fuel' r1 with
          | Ok (r, r2) => prod_rest fuel' (EBin Mul l r) r2
          | Err e => Err e
          end
      | TSlash :: r1 =>
          match parse_unary fuel' r1 with
          | Ok (r, r2) => prod_rest fuel' (EBin Div l r) r2
          | Err e => Err e
          end
      | _ => Ok (l, ts)
      end
  end
with parse_unary (fuel : nat) (ts : list token) : result (expr * list token) :=
  match fuel with
  | O => Err "parser out of fuel"
  | S fuel' =>
      match ts with
      | TMinus :: r1 =>
          match parse_unary fuel' r1 with
          | Ok (e, r2) => Ok (ENeg e, r2)
          | Err e => Err e
          end
      | TNum f :: r1 => Ok (ENum f, r1)
      | TIdent x :: r1 => Ok (EVar x, r1)
      | TLParen :: r1 =>
          match parse_ternary fuel' r1 with
          | Ok (e, TRParen :: r2) => Ok (e, r2)
          | Ok _ => Err "expected ')'"
          | Err e => Err e
          end
      | _ => Err "unexpected token"
      end
  end.

Definition parse (s : string) : result expr :=
  let cs := list_ascii_of_string s in
  match lex (S (length cs)) cs with
  | Err e => Err e
  | Ok ts =>
      match parse_ternary (8 * length ts + 8) ts with
      | Ok (e, []) => Ok e
      | Ok _ => Err "unexpected token"
      | Err e => Err e
      end
  end.

(** The number an identifier is bound to, promoted to binary64. *)
Definition number (env : Params) (x : string) : result float :=
  match env !! x with
  | Some (VFloat64 f) | Some (VFloat32 f) => Ok f
  | Some (VInt n) | Some (VInt64 n) => Ok (float64_of_int n)
  | Some _ => Err ("not a number: " +:+ x)
  | None => Err ("unknown name " +:+ x)
  end.

Definition arith (op : binop) (a b : float) : float :=
  match op with
  | Add => a + b | Sub => a - b | Mul => a * b | Div => a / b
  end%float.

Definition compare (op : cmpop) (a b : float) : bool :=
  match op with
  | Lt => a <? b | Le => a <=? b | Gt => b <? a | Ge => b <=? a
  | Eq => a =? b | Ne => negb (a =? b)
  end%float.

(** Evaluation; a number is a [VFloat64], a comparison a [VBool]. *)
Fixpoint eval (env : Params) (e : expr) : result Value :=
  match e with
  | ENum f => Ok (VFloat64 f)
  | EVar x => match number env x with Ok f => Ok (VFloat64 f) | Err m => Err m end
  | ENeg a =>
      match eval env a with
      | Ok (VFloat64 f) => Ok (VFloat64 (- f))
      | Ok _ => Err "invalid operation"
      | Err m => Err m
      end
  | EBin op a b =>
      match eval env a, eval env b with
      | Ok (VFloat64 x), Ok (VFloat64 y) => Ok (VFloat64 (arith op x y))
      | Err m, _ => Err m
      | _, Err m => Err m
      | _, _ => Err "invalid operation"
      end
  | ECmp op a b =>
      match eval env a, eval env b with
      | Ok (VFloat64 x), Ok (VFloat64 y) => Ok (VBool (compare op x y))
      | Err m, _ => Err m
      | _, Err m => Err m
      | _, _ => Err "invalid operation"
      end
  | ECond c a b =>
      match eval env c with
      | Ok (VBool true) => eval env a
      | Ok (VBool false) => eval env b
      | Ok _ => Err "non-bool condition"
      | Err m => Err m
      end
  end.

(** The type of an expression against the environment it is compiled
    for: [Some true] a number, [Some false] a condition. *)
Fixpoint check (env : Params) (e : expr) : option bool :=
  match e with
  | ENum _ => Some true
  | EVar x => match number env x with Ok _ => Some true | Err _ => None end
  | ENeg a => match check env a with Some true => Some true | _ => None end
  | EBin _ a b =>
      match check env a, check env b with
      | Some true, Some true => Some true
      | _, _ => None
      end
  | ECmp _ a b =>
      match check env a, check env b with
      | Some true, Some true => Some false
      | _, _ => None
      end
  | ECond c a b =>
      match check env c, check env a, check env b with
      | Some false, Some ta, Some tb => if Bool.eqb ta tb then Some ta else None
      | _, _, _ => None
      end
  end.

Definition compile (s : string) (env : Params) : result expr :=
  match parse s with
  | Err e => Err e
  | Ok e =>
      match check env e with
      | Some true => Ok e
      | Some false => Err "expected float64, but got bool"
      | None => Err "type error"
      end
  end.

#[global] Instance engine : ExprEngine :=
  {| Program := expr; Compile := compile; Run := fun p env => eval env p |}.
End exprlang.

(** ** pkg/formula *)

Module formula.
Section Evaluate.
Context `{ExprEngine}.

(** [Parser.Evaluate]: compile against the parameters, run, and convert
    the result to [float64]. *)
Definition Evaluate (expression : string) (params : Params) : result float :=
  match Compile expression params with
  | Err e =>
      Err ("failed to compile expression '" +:+ expression +:+ "': " +:+ e)
  | Ok program =>
      match Run program params with
      | Err e => Err ("failed to evaluate formula: " +:+ e)
      | Ok (VFloat64 v) => Ok v
      | Ok (VFloat32 v) => Ok v
      | Ok (VInt v) => Ok (float64_of_int v)
      | Ok (VInt64 v) => Ok (float64_of_int v)
      | Ok _ => Err "unexpected result type"
      end
  end.
End Evaluate.
End formula.

(** ** internal/domain/entity *)

Module ProcessStep.
Record t := mk {
  ID : uuid;
  RoutingTemplateID : uuid;
  ProcessMasterID : uuid;
  SequenceOrder : Z;
  FormulaExpression : string;
  Description : string;
  CreatedAt : Z
}.
End ProcessStep.
Abbreviation ProcessStep := ProcessStep.t.

(** Of a [YarnVariant] the pipeline reads the two columns that
    [ListWithRouting] scans. *)
Module YarnVariant.
Record t := mk {
  ID : uuid;
  RoutingTemplateID : uuid
}.
End YarnVariant.
Abbreviation YarnVariant := YarnVariant.t.

Module VariantCostSummary.
Record t := mk {
  YarnVariantID : uuid;
  TotalMaterialCost : float;
  TotalProcessCost : float;
  TotalOverhead : float;
  GrandTotal : float;
  LastRecalculatedAt : Z;
  VersionHash : string
}.
End VariantCostSummary.
Abbreviation VariantCostSummary := VariantCostSummary.t.

Inductive JobStatus :=
| JobStatusPending
| JobStatusRunning
| JobStatusCompleted
| JobStatusFailed
| JobStatusCancelled.

Module BatchJob.
Record t := mk {
  ID : uuid;
  Status : JobStatus;
  TotalRecords : Z;
  ProcessedRecords : Z;
  FailedRecords : Z;
  ErrorMessage : string;
  StartedAt : option Z;
  FinishedAt : option Z;
  CreatedAt : Z
}.
End BatchJob.
Abbreviation BatchJob := BatchJob.t.

(** ** internal/modules/costing: the calculation engine *)

Definition getFloatParam (params : Params) (key : string) (defaultVal : float) : float :=
  match params !! key with
  | Some (VFloat64 val) => val
  | Some (VFloat32 val) => val
  | Some (VInt val) => float64_of_int val
  | _ => defaultVal
  end.

(** [0.1] as Go reads the constant: the nearest binary64. *)
Definition tenth : float := 0x1.999999999999ap-4%float.

Section CalculationEngine.
Context `{ExprEngine}.

(** The cost of one step: the body of the loop of [CalculateVariantFast]
    before the addition. *)
Definition step_cost (inputParams : Params) (step : ProcessStep) : float :=
  match formula.Evaluate (ProcessStep.FormulaExpression step) inputParams with
  | Ok cost => cost
  | Err _ => 0%float
  end.

(** [CalculateVariantFast]; [now] is the reading of [time.Now()]. *)
Definition CalculateVariantFast (now : Z) (variantID : uuid)
    (steps : list ProcessStep) (inputParams : Params) : VariantCostSummary :=
  let totalProcessCost :=
    fold_left (fun total step => (total + step_cost inputParams step)%float)
              steps 0%float in
  let materialCost := getFloatParam inputParams "material_cost" 0%float in
  let overhead :=
    (totalProcessCost * getFloatParam inputParams "overhead_percentage" tenth)%float in
  let paramsJSON :=
    match json.Marshal inputParams with Ok b => b | Err _ => [] end in
  let hash := sha256.Sum256 paramsJSON in
  {| VariantCostSummary.YarnVariantID := variantID;
     VariantCostSummary.TotalMaterialCost := materialCost;
     VariantCostSummary.TotalProcessCost := totalProcessCost;
     VariantCostSummary.TotalOverhead := overhead;
     VariantCostSummary.GrandTotal := (materialCost + totalProcessCost + overhead)%float;
     VariantCostSummary.LastRecalculatedAt := now;
     VariantCostSummary.VersionHash := hex.EncodeToString hash |}.
End CalculationEngine.

(** ** internal/infrastructure/persistence

    The tables of the migration that the core touches, and the queries of
    the repositories as functions of the database.  A query can also fail for
    reasons outside the database (connection, cancelled context); callers
    account for that where they run a query. *)

Module db.
(** A row of [yarn_variants]; [routing_template_id] is nullable, and
    [is_active] holds when the column is true. *)
Record yarn_variant := {
  id : uuid;
  routing_template_id : option uuid;
  is_active : bool
}.
End db.

Record Database := {
  yarn_variants : list db.yarn_variant;
  process_steps : list ProcessStep;
  variant_cost_summaries : gmap uuid VariantCostSummary;
  batch_jobs : gmap uuid BatchJob
}.

Definition with_summaries (d : Database) (m : gmap uuid VariantCostSummary) : Database :=
  {| yarn_variants := yarn_variants d; process_steps := process_steps d;
     variant_cost_summaries := m; batch_jobs := batch_jobs d |}.

Definition with_jobs (d : Database) (m : gmap uuid BatchJob) : Database :=
  {| yarn_variants := yarn_variants d; process_steps := process_steps d;
     variant_cost_summaries := variant_cost_summaries d; batch_jobs := m |}.

Definition int64_range (z : Z) : bool := (- 2 ^ 63 <=? z) && (z <? 2 ^ 63).

Module persistence.
Definition by_id (a b : db.yarn_variant) : Prop := (db.id a <= db.id b)%N.
#[global] Instance by_id_dec : RelDecision by_id.
Proof. intros a b. unfold by_id. apply _. Defined.

Definition by_sequence (a b : ProcessStep) : Prop :=
  ProcessStep.SequenceOrder a <= ProcessStep.SequenceOrder b.
#[global] Instance by_sequence_dec : RelDecision by_sequence.
Proof. intros a b. unfold by_sequence. apply _. Defined.

(** Scanning a row into an entity; a NULL routing leaves the zero UUID. *)
Definition scan_variant (r : db.yarn_variant) : YarnVariant :=
  {| YarnVariant.ID := db.id r;
     YarnVariant.RoutingTemplateID := default 0%N (db.routing_template_id r) |}.

(** [SELECT id, routing_template_id FROM yarn_variants
     WHERE is_active = true ORDER BY id] *)
Definition active_variants (d : Database) : list YarnVariant :=
  scan_variant <$> merge_sort by_id (filter (fun r => db.is_active r = true) (yarn_variants d)).

(** [yarnVariantRepo.ListWithRouting]: the query above with
    [LIMIT limit OFFSET offset]. *)
Definition ListWithRouting (d : Database) (limit offset : nat) : list YarnVariant :=
  take limit (drop offset (active_variants d)).

(** [yarnVariantRepo.ListUniqueRoutingIDs]:
    [SELECT DISTINCT routing_template_id FROM yarn_variants
     WHERE routing_template_id IS NOT NULL]. *)
Definition ListUniqueRoutingIDs (d : Database) : list uuid :=
  remove_dups (omap db.routing_template_id (yarn_variants d)).

(** [yarnVariantRepo.Count]: [SELECT COUNT( * ) FROM yarn_variants]. *)
Definition Count (d : Database) : Z := Z.of_nat (length (yarn_variants d)).

(** [processStepRepo.GetByRoutingID]:
    [... WHERE routing_template_id = $1 ORDER BY sequence_order]. *)
Definition GetByRoutingID (d : Database) (routingID : uuid) : list ProcessStep :=
  merge_sort by_sequence
    (filter (fun s => ProcessStep.RoutingTemplateID s = routingID) (process_steps d)).

(** [variantCostSummaryRepo.UpsertBatch]: nothing for an empty batch;
    otherwise one transaction that copies the batch to a temporary table
    and upserts from it, keyed by [yarn_variant_id].  The statement fails,
    and the transaction is rolled back, when the batch proposes one key
    twice.  The store holds the rows as they were sent; what the column
    types do to a value is not modelled. *)
Definition upserted (store : gmap uuid VariantCostSummary)
    (summaries : list VariantCostSummary) : gmap uuid VariantCostSummary :=
  fold_left (fun m s => <[VariantCostSummary.YarnVariantID s := s]> m) summaries store.

Definition UpsertBatch (store : gmap uuid VariantCostSummary)
    (summaries : list VariantCostSummary)
    : result (Z * gmap uuid VariantCostSummary) :=
  match summaries with
  | [] => Ok (0, store)
  | _ =>
      if decide (NoDup (VariantCostSummary.YarnVariantID <$> summaries))
      then Ok (Z.of_nat (length summaries), upserted store summaries)
      else Err "ON CONFLICT DO UPDATE command cannot affect row a second time"
  end.

Definition set_status (status : JobStatus) (processed failed : Z) (j : BatchJob) : BatchJob :=
  {| BatchJob.ID := BatchJob.ID j; BatchJob.Status := status;
     BatchJob.TotalRecords := BatchJob.TotalRecords j;
     BatchJob.ProcessedRecords := processed; BatchJob.FailedRecords := failed;
     BatchJob.ErrorMessage := BatchJob.ErrorMessage j;
     BatchJob.StartedAt := BatchJob.StartedAt j;
     BatchJob.FinishedAt := BatchJob.FinishedAt j;
     BatchJob.CreatedAt := BatchJob.CreatedAt j |}.

Definition finish (status : JobStatus) (errorMsg : option string) (now : Z)
    (j : BatchJob) : BatchJob :=
  {| BatchJob.ID := BatchJob.ID j; BatchJob.Status := status;
     BatchJob.TotalRecords := BatchJob.TotalRecords j;
     BatchJob.ProcessedRecords := BatchJob.ProcessedRecords j;
     BatchJob.FailedRecords := BatchJob.FailedRecords j;
     BatchJob.ErrorMessage := default (BatchJob.ErrorMessage j) errorMsg;
     BatchJob.StartedAt := BatchJob.StartedAt j;
     BatchJob.FinishedAt := Some now;
     BatchJob.CreatedAt := BatchJob.CreatedAt j |}.

(** [batchJobRepo.Create]: the insert fails on a key that exists. *)
Definition Create (jobs : gmap uuid BatchJob) (job : BatchJob) : result (gmap uuid BatchJob) :=
  match jobs !! BatchJob.ID job with
  | Some _ => Err "duplicate key value violates unique constraint"
  | None => Ok (<[BatchJob.ID job := job]> jobs)
  end.

(** [batchJobRepo.UpdateStatus]:
    [UPDATE batch_jobs SET status = $2, processed_records = $3,
     failed_records = $4 WHERE id = $1]. *)
Definition UpdateStatus (jobs : gmap uuid BatchJob) (id : uuid) (status : JobStatus)
    (processed failed : Z) : gmap uuid BatchJob :=
  alter (set_status status processed failed) id jobs.

(** [batchJobRepo.UpdateProgress]:
    [UPDATE batch_jobs SET processed_records = processed_records + $2,
     failed_records = failed_records + $3 WHERE id = $1]; a sum outside
    [bigint] is an error of the statement. *)
Definition UpdateProgress (jobs : gmap uuid BatchJob) (id : uuid) (processed failed : Z)
    : result (gmap uuid BatchJob) :=
  match jobs !! id with
  | None => Ok jobs
  | Some j =>
      let p := BatchJob.ProcessedRecords j + processed in
      let f := BatchJob.FailedRecords j + failed in
      if int64_range p && int64_range f
      then Ok (<[id := set_status (BatchJob.Status j) p f j]> jobs)
      else Err "bigint out of range"
  end.

(** [batchJobRepo.Complete]:
    [UPDATE batch_jobs SET status = 'COMPLETED', finished_at = $3 WHERE id = $1]. *)
Definition Complete (jobs : gmap uuid BatchJob) (id : uuid) (now : Z) : gmap uuid BatchJob :=
  alter (finish JobStatusCompleted None now) id jobs.

(** [batchJobRepo.Fail]:
    [UPDATE batch_jobs SET status = 'FAILED', error_message = $3,
     finished_at = $4 WHERE id = $1]. *)
Definition Fail (jobs : gmap uuid BatchJob) (id : uuid) (errorMsg : string) (now : Z)
    : gmap uuid BatchJob :=
  alter (finish JobStatusFailed (Some errorMsg) now) id jobs.
End persistence.

(** ** internal/modules/costing: the worker pool *)

Record WorkerPool := {
  workerCount : nat;
  batchSize : nat
}.

Module variantWork.
Record t := mk { ID : uuid; RoutingID : uuid }.
End variantWork.
Abbreviation variantWork := variantWork.t.

Definition work_of (v : YarnVariant) : variantWork :=
  {| variantWork.ID := YarnVariant.ID v;
     variantWork.RoutingID := YarnVariant.RoutingTemplateID v |}.

Abbreviation Cache := (gmap uuid (list ProcessStep)).

(** [loadRoutingStepsCache].  [ids_fail] tells whether the query for the
    routing identifiers fails, [steps_fail] for which routings the query
    for the steps does: such a routing is logged and left out. *)
Definition loadRoutingStepsCache (d : Database) (ids_fail : bool)
    (steps_fail : uuid -> bool) : result Cache :=
  if ids_fail then Err "failed to list routing ids"
  else
    Ok (fold_left
          (fun (cache : Cache) routingID =>
             if steps_fail routingID then cache
             else <[routingID := persistence.GetByRoutingID d routingID]> cache)
          (persistence.ListUniqueRoutingIDs d) ∅).

(** *** The goroutines of [RecalculateAll]

    Each goroutine is at one of its blocking points.  A channel is the list
    of the values it buffers, oldest first; [workChan] is closed when the
    dispatcher has returned, [resultChan] when the main goroutine has passed
    [wg.Wait()]. *)

Inductive Dispatcher :=
| DList (offset : nat)
    (** about to call [ListWithRouting(ctx, batchSize, offset)] *)
| DSend (variants : list YarnVariant) (i : nat) (offset : nat)
    (** in [for _, v := range variants], at the [select] for [variants[i]] *)
| DReturned.

Inductive Worker :=
| WReceive                             (** at [for work := range workChan] *)
| WSend (summary : VariantCostSummary) (** at [resultChan <- summary] *)
| WReturned.

Inductive Collector :=
| CReceive (buffer : list VariantCostSummary) (** at [for summary := range resultChan] *)
| CReturned.

Inductive Main :=
| MWaitWorkers                   (** at [wg.Wait()] *)
| MWaitCollector                 (** [resultChan] closed, at [resultWg.Wait()] *)
| MReturned (err : option string).

Record State := {
  dispatcher : Dispatcher;
  workChan : list variantWork;
  workers : list Worker;
  resultChan : list VariantCostSummary;
  collector : Collector;
  main : Main;
  processedCount : Z;
  failedCount : Z;
  routingStepsCache : Cache;
  database : Database
}.

(** What a step does that can be seen from outside the goroutine. *)
Inductive Event :=
| EPage (variants : list YarnVariant)   (** the reader got a page, possibly empty *)
| EListFailed                            (** the reader's query failed *)
| ECancelled                             (** the reader saw [ctx.Done()] *)
| EDispatch (work : variantWork)
| EFailed (work : variantWork)           (** [failedCount] incremented for the variant *)
| ECalculated (work : variantWork) (summary : VariantCostSummary)
| EResult (summary : VariantCostSummary)
| EWorkerDone (worker : nat)
| EResultsClosed
| ECollected (summary : VariantCostSummary)
| EFlush (batch : list VariantCostSummary) (written : bool) (progress : option bool)
    (** a flush of [batch]: whether [UpsertBatch] succeeded, and whether
        [UpdateProgress] did when the flush calls it *)
| ECollectorDone
| EProgress (processed failed : Z)       (** a sample of the progress reporter *)
| EComplete (ok : bool).

(** The scheduler's and the environment's part in a step: which goroutine
    moves, whether the database answers, what the clock shows. *)
Inductive Choice :=
| ChList (db_ok : bool)
| ChSend
| ChCancel
| ChReceive (worker : nat) (now : Z)
| ChResult (worker : nat)
| ChWorkerDone (worker : nat)
| ChCloseResults
| ChCollect (upsert_ok progress_ok : bool)
| ChCollectorDone (upsert_ok : bool)
| ChTick
| ChComplete (db_ok : bool) (now : Z).

Definition set_dispatcher (s : State) (d : Dispatcher) (wc : list variantWork) : State :=
  {| dispatcher := d; workChan := wc; workers := workers s;
     resultChan := resultChan s; collector := collector s; main := main s;
     processedCount := processedCount s; failedCount := failedCount s;
     routingStepsCache := routingStepsCache s; database := database s |}.

Definition set_worker (s : State) (i : nat) (w : Worker) (wc : list variantWork)
    (rc : list VariantCostSummary) (failed : Z) : State :=
  {| dispatcher := dispatcher s; workChan := wc; workers := <[i := w]> (workers s);
     resultChan := rc; collector := collector s; main := main s;
     processedCount := processedCount s; failedCount := failed;
     routingStepsCache := routingStepsCache s; database := database s |}.

Definition set_collector (s : State) (c : Collector) (rc : list VariantCostSummary)
    (processed : Z) (d : Database) : State :=
  {| dispatcher := dispatcher s; workChan := workChan s; workers := workers s;
     resultChan := rc; collector := c; main := main s;
     processedCount := processed; failedCount := failedCount s;
     routingStepsCache := routingStepsCache s; database := d |}.

Definition set_main (s : State) (m : Main) (d : Database) : State :=
  {| dispatcher := dispatcher s; workChan := workChan s; workers := workers s;
     resultChan := resultChan s; collector := collector s; main := m;
     processedCount := processedCount s; failedCount := failedCount s;
     routingStepsCache := routingStepsCache s; database := d |}.

(** [resultChan] is closed once the main goroutine has left [wg.Wait()]. *)
Definition results_closed (s : State) : bool :=
  match main s with MWaitWorkers => false | _ => true end.

Definition worker_returned (w : Worker) : bool :=
  match w with WReturned => true | _ => false end.

Section Pipeline.
Context `{ExprEngine}.
Variable wp : WorkerPool.
Variable jobID : uuid.
Variable baseParams : Params.

(** Both channels are made with capacity [batchSize * 2]. *)
Definition capacity : nat := batchSize wp * 2.

(** The state in which the goroutines start: [cache] is the result of
    [loadRoutingStepsCache], [d] the database after
    [UpdateStatus(ctx, jobID, JobStatusRunning, 0, 0)]. *)
Definition spawn (cache : Cache) (d : Database) : State :=
  {| dispatcher := DList 0; workChan := [];
     workers := replicate (workerCount wp) WReceive;
     resultChan := []; collector := CReceive []; main := MWaitWorkers;
     processedCount := 0; failedCount := 0;
     routingStepsCache := cache; database := d |}.

(** The part of [RecalculateAll] before the goroutines: count, load the
    cache, mark the job running (the error of [UpdateStatus] is dropped). *)
Definition start (d : Database) (count_fail ids_fail : bool) (steps_fail : uuid -> bool)
    (status_ok : bool) : result State :=
  if count_fail then Err "failed to count variants"
  else
    match loadRoutingStepsCache d ids_fail steps_fail with
    | Err e => Err ("failed to load routing cache: " +:+ e)
    | Ok cache =>
        let jobs :=
          if status_ok
          then persistence.UpdateStatus (batch_jobs d) jobID JobStatusRunning 0 0
          else batch_jobs d in
        Ok (spawn cache (with_jobs d jobs))
    end.

(** The dispatcher's loop body up to the first send. *)
Definition dispatcher_list (db_ok : bool) (s : State) : option (Event * State) :=
  match dispatcher s with
  | DList offset =>
      if db_ok then
        let variants := persistence.ListWithRouting (database s) (batchSize wp) offset in
        match variants with
        | [] => Some (EPage [], set_dispatcher s DReturned (workChan s))
        | _ => Some (EPage variants, set_dispatcher s (DSend variants 0 offset) (workChan s))
        end
      else Some (EListFailed, set_dispatcher s DReturned (workChan s))
  | _ => None
  end.

(** [case workChan <- variantWork{...}]; after the last variant of the
    page, [offset += len(variants)]. *)
Definition dispatcher_send (s : State) : option (Event * State) :=
  match dispatcher s with
  | DSend variants i offset =>
      match variants !! i with
      | Some v =>
          if decide (length (workChan s) < capacity)%nat then
            let next :=
              if decide (S i < length variants)%nat then DSend variants (S i) offset
              else DList (offset + length variants) in
            Some (EDispatch (work_of v), set_dispatcher s next (workChan s ++ [work_of v]))
          else None
      | None => None
      end
  | _ => None
  end.

(** [case <-ctx.Done(): return]. *)
Definition dispatcher_cancel (s : State) : option (Event * State) :=
  match dispatcher s with
  | DSend _ _ _ => Some (ECancelled, set_dispatcher s DReturned (workChan s))
  | _ => None
  end.

(** What a worker does with one work item: count the variant failed, or
    calculate its summary. *)
Definition handle (cache : Cache) (now : Z) (work : variantWork)
    : option VariantCostSummary :=
  match cache !! variantWork.RoutingID work with
  | Some (step :: steps) =>
      Some (CalculateVariantFast now (variantWork.ID work) (step :: steps) baseParams)
  | Some [] | None => None
  end.

Definition worker_receive (i : nat) (now : Z) (s : State) : option (Event * State) :=
  match workers s !! i, workChan s with
  | Some WReceive, work :: rest =>
      match handle (routingStepsCache s) now work with
      | None =>
          Some (EFailed work,
                set_worker s i WReceive rest (resultChan s) (wrap64 (failedCount s + 1)))
      | Some summary =>
          Some (ECalculated work summary,
                set_worker s i (WSend summary) rest (resultChan s) (failedCount s))
      end
  | _, _ => None
  end.

Definition worker_result (i : nat) (s : State) : option (Event * State) :=
  match workers s !! i with
  | Some (WSend summary) =>
      if decide (length (resultChan s) < capacity)%nat then
        Some (EResult summary,
              set_worker s i WReceive (workChan s) (resultChan s ++ [summary]) (failedCount s))
      else None
  | _ => None
  end.

(** The [range] over [workChan] ends when the channel is closed and empty. *)
Definition worker_done (i : nat) (s : State) : option (Event * State) :=
  match workers s !! i, workChan s, dispatcher s with
  | Some WReceive, [], DReturned =>
      Some (EWorkerDone i, set_worker s i WReturned [] (resultChan s) (failedCount s))
  | _, _, _ => None
  end.

(** [wg.Wait(); close(resultChan)]. *)
Definition main_close (s : State) : option (Event * State) :=
  match main s with
  | MWaitWorkers =>
      if forallb worker_returned (workers s)
      then Some (EResultsClosed, set_main s MWaitCollector (database s))
      else None
  | _ => None
  end.

(** The outcome of [UpsertBatch] when the database answers or not. *)
Definition upsert (db_ok : bool) (d : Database) (buffer : list VariantCostSummary)
    : bool * Database :=
  if db_ok then
    match persistence.UpsertBatch (variant_cost_summaries d) buffer with
    | Ok (_, store) => (true, with_summaries d store)
    | Err _ => (false, d)
    end
  else (false, d).

Definition progress (db_ok : bool) (d : Database) (n : Z) : bool * Database :=
  if db_ok then
    match persistence.UpdateProgress (batch_jobs d) jobID n 0 with
    | Ok jobs => (true, with_jobs d jobs)
    | Err _ => (false, d)
    end
  else (false, d).

(** One iteration of the collector's loop. *)
Definition collector_receive (upsert_ok progress_ok : bool) (s : State)
    : option (Event * State) :=
  match collector s, resultChan s with
  | CReceive buffer, summary :: rest =>
      let buffer := buffer ++ [summary] in
      if decide (batchSize wp <= length buffer)%nat then
        let '(written, d1) := upsert upsert_ok (database s) buffer in
        let processed := wrap64 (processedCount s + Z.of_nat (length buffer)) in
        let '(reported, d2) := progress progress_ok d1 (Z.of_nat (length buffer)) in
        Some (EFlush buffer written (Some reported),
              set_collector s (CReceive []) rest processed d2)
      else
        Some (ECollected summary,
              set_collector s (CReceive buffer) rest (processedCount s) (database s))
  | _, _ => None
  end.

(** The end of the collector: the flush of what remains. *)
Definition collector_done (upsert_ok : bool) (s : State) : option (Event * State) :=
  match collector s, resultChan s with
  | CReceive buffer, [] =>
      if results_closed s then
        match buffer with
        | [] => Some (ECollectorDone, set_collector s CReturned [] (processedCount s) (database s))
        | _ =>
            let '(written, d1) := upsert upsert_ok (database s) buffer in
            let processed := wrap64 (processedCount s + Z.of_nat (length buffer)) in
            Some (EFlush buffer written None, set_collector s CReturned [] processed d1)
        end
      else None
  | _, _ => None
  end.

(** A tick of the progress reporter, until [progressDone] is closed. *)
Definition reporter_tick (s : State) : option (Event * State) :=
  match collector s with
  | CReceive _ => Some (EProgress (processedCount s) (failedCount s), s)
  | CReturned => None
  end.

(** [resultWg.Wait()], the summary, and [jobRepo.Complete]. *)
Definition main_complete (db_ok : bool) (now : Z) (s : State) : option (Event * State) :=
  match main s, collector s with
  | MWaitCollector, CReturned =>
      if db_ok then
        Some (EComplete true,
              set_main s (MReturned None)
                (with_jobs (database s) (persistence.Complete (batch_jobs (database s)) jobID now)))
      else
        Some (EComplete false,
              set_main s (MReturned (Some "failed to complete job")) (database s))
  | _, _ => None
  end.

Definition step_fun (ch : Choice) (s : State) : option (Event * State) :=
  match ch with
  | ChList db_ok => dispatcher_list db_ok s
  | ChSend => dispatcher_send s
  | ChCancel => dispatcher_cancel s
  | ChReceive i now => worker_receive i now s
  | ChResult i => worker_result i s
  | ChWorkerDone i => worker_done i s
  | ChCloseResults => main_close s
  | ChCollect u p => collector_receive u p s
  | ChCollectorDone u => collector_done u s
  | ChTick => reporter_tick s
  | ChComplete db_ok now => main_complete db_ok now s
  end.

Definition step (s : State) (e : Event) (s' : State) : Prop :=
  exists ch, step_fun ch s = Some (e, s').

(** Executions, with the events in the order they happened. *)
Inductive exec (s0 : State) : list Event -> State -> Prop :=
| exec_nil : exec s0 [] s0
| exec_step tr s e s' : exec s0 tr s -> step s e s' -> exec s0 (tr ++ [e]) s'.

(** Running a schedule. *)
Fixpoint run (chs : list Choice) (s : State) : option (list Event * State) :=
  match chs with
  | [] => Some ([], s)
  | ch :: rest =>
      match step_fun ch s with
      | None => None
      | Some (e, s') =>
          match run rest s' with
          | None => None
          | Some (tr, s'') => Some (e :: tr, s'')
          end
      end
  end.
End Pipeline.

(** ** The specification's definitions

    What the specification defines in words, written down independently of
    the code, to be compared with it. *)
Module spec.
(** Section 4.3, step 6.  The canonical JSON serialization of a parameter
    bag: the keys sorted lexicographically, no insignificant whitespace,
    numbers in their natural double-precision string form. *)
Definition value_text (v : Value) : string :=
  match v with
  | VFloat64 f => json.float_text 64 f
  | VFloat32 f => json.float_text 32 f
  | VInt n | VInt64 n => strconv.Itoa n
  | VString s => json.quote s
  | VBool b => if b then "true" else "false"
  end.

Definition member (kv : string * Value) : string :=
  json.quote kv.1 +:+ ":" +:+ value_text kv.2.

Definition canonical_json (P : Params) : list byte :=
  bytes ("{" +:+ String.concat "," (member <$> json.sorted_entries P) +:+ "}").

(** The version hash of section 4.3: lowercase hexadecimal of the SHA-256
    of the canonical JSON. *)
Definition version_hash (P : Params) : string :=
  hex.EncodeToString (sha256.Sum256 (canonical_json P)).

(** A number that JSON can hold. *)
Definition encodable (v : Value) : bool :=
  match v with
  | VFloat64 f | VFloat32 f => negb (is_nan f || is_infinity f)
  | _ => true
  end.

(** Section 4.2, step 1: the routing identifiers referenced by an active
    variant. *)
Definition active_routing_ids (d : Database) : list uuid :=
  omap db.routing_template_id (filter (fun r => db.is_active r = true) (yarn_variants d)).

(** Section 4.8: the terminal statuses. *)
Definition terminal (s : JobStatus) : bool :=
  match s with
  | JobStatusCompleted | JobStatusFailed | JobStatusCancelled => true
  | JobStatusPending | JobStatusRunning => false
  end.
End spec.

(** ** The paging reader on its own

    The dispatcher's loop when no query fails and the context is not
    cancelled: the pages it sends, in order.  [None] when [fuel] iterations
    do not reach the empty page. *)
Fixpoint reader (fuel : nat) (d : Database) (batch offset : nat)
    : option (list (list YarnVariant)) :=
  match fuel with
  | O => None
  | S fuel' =>
      match persistence.ListWithRouting d batch offset with
      | [] => Some []
      | variants =>
          match reader fuel' d batch (offset + length variants) with
          | Some pages => Some (variants :: pages)
          | None => None
          end
      end
  end.

(** ** What a trace says *)

Definition summary_ids (l : list VariantCostSummary) : list uuid :=
  VariantCostSummary.YarnVariantID <$> l.

(** The variants put on the work queue. *)
Definition dispatched (tr : list Event) : list variantWork :=
  flat_map (fun e => match e with EDispatch w => [w] | _ => [] end) tr.

(** The variants a worker took from the work queue. *)
Definition visited (tr : list Event) : list uuid :=
  flat_map (fun e => match e with
                     | EFailed w | ECalculated w _ => [variantWork.ID w]
                     | _ => []
                     end) tr.

(** The variants for which the failure counter was incremented. *)
Definition counted_failed (tr : list Event) : list uuid :=
  flat_map (fun e => match e with EFailed w => [variantWork.ID w] | _ => [] end) tr.

(** The summaries the workers produced. *)
Definition calculated (tr : list Event) : list VariantCostSummary :=
  flat_map (fun e => match e with ECalculated _ s => [s] | _ => [] end) tr.

(** The summaries of all flushes, and of the flushes whose bulk write
    succeeded. *)
Definition flushed (tr : list Event) : list VariantCostSummary :=
  flat_map (fun e => match e with EFlush b _ _ => b | _ => [] end) tr.

Definition written (tr : list Event) : list VariantCostSummary :=
  flat_map (fun e => match e with EFlush b true _ => b | _ => [] end) tr.

(** The summaries of the flushes that reported to the job registry. *)
Definition reported (tr : list Event) : list VariantCostSummary :=
  flat_map (fun e => match e with EFlush b _ (Some true) => b | _ => [] end) tr.

(** The samples of the progress reporter. *)
Definition samples (tr : list Event) : list Z :=
  flat_map (fun e => match e with EProgress p _ => [p] | _ => [] end) tr.

(** The summaries that are between a worker and the store. *)
Definition held (ws : list Worker) : list VariantCostSummary :=
  flat_map (fun w => match w with WSend s => [s] | _ => [] end) ws.

Definition buffered (c : Collector) : list VariantCostSummary :=
  match c with CReceive b => b | CReturned => [] end.

Definition in_flight (s : State) : list VariantCostSummary :=
  held (workers s) ++ resultChan s ++ buffered (collector s).

(** The job's row in the registry. *)
Definition job_processed (jobID : uuid) (s : State) : Z :=
  from_option BatchJob.ProcessedRecords 0 (batch_jobs (database s) !! jobID).

Definition job_failed (jobID : uuid) (s : State) : Z :=
  from_option BatchJob.FailedRecords 0 (batch_jobs (database s) !! jobID).

Definition job_status (jobs : gmap uuid BatchJob) (id : uuid) : option JobStatus :=
  BatchJob.Status <$> jobs !! id.

(** The bag and the routing of scenario A. *)
Definition scenario_a_bag : Params :=
  <["a" := VFloat64 10]> (<["b" := VFloat64 5]> ∅).

Definition scenario_a_steps : list ProcessStep :=
  [ {| ProcessStep.ID := 1%N; ProcessStep.RoutingTemplateID := 1%N;
       ProcessStep.ProcessMasterID := 1%N; ProcessStep.SequenceOrder := 1;
       ProcessStep.FormulaExpression := "a + b";
       ProcessStep.Description := EmptyString; ProcessStep.CreatedAt := 0 |} ].

(** The dynamic types that [getFloatParam] converts. *)
Definition converted (v : Value) : bool :=
  match v with
  | VFloat64 _ | VFloat32 _ | VInt _ => true
  | VInt64 _ | VString _ | VBool _ => false
  end.

(** What follows the first member of an object. *)
Fixpoint more_members (kvs : list (string * Value)) : string :=
  match kvs with
  | [] => EmptyString
  | kv :: rest => "," +:+ spec.member kv +:+ more_members rest
  end.

(** The work items the workers took, in the order they took them. *)
Definition received (tr : list Event) : list variantWork :=
  flat_map (fun e => match e with
                     | EFailed w | ECalculated w _ => [w]
                     | _ => []
                     end) tr.

(** ** Invariants of the pipeline

    What holds of a trace and the state it leads to, from the state in which
    the goroutines start. *)
Section InvariantDefinitions.
Context `{ExprEngine}.
Variable wp : WorkerPool.
Variable baseParams : Params.
Variable cache : Cache.
Variable d0 : Database.

(** Where the reader stands: what it has sent is a prefix of the active
    variants in ascending order. *)
Definition reader_inv (tr : list Event) (s : State) : Prop :=
  match dispatcher s with
  | DList offset => dispatched tr = take offset (work_of <$> persistence.active_variants d0)
  | DSend variants i offset =>
      variants = take (batchSize wp) (drop offset (persistence.active_variants d0)) /\
      (i < length variants)%nat /\
      dispatched tr = take (offset + i) (work_of <$> persistence.active_variants d0)
  | DReturned => exists n, dispatched tr = take n (work_of <$> persistence.active_variants d0)
  end.

(** The work queue is first in, first out. *)
Definition queue_inv (tr : list Event) (s : State) : Prop :=
  dispatched tr = received tr ++ workChan s.

(** No summary is lost between a worker and a flush. *)
Definition flow_inv (tr : list Event) (s : State) : Prop :=
  calculated tr ≡ₚ in_flight s ++ flushed tr.

(** Every failure and every summary in a trace is an outcome of [handle]. *)
Definition event_sound (e : Event) : Prop :=
  match e with
  | EFailed w => forall now, handle baseParams cache now w = None
  | ECalculated w sm => exists now, handle baseParams cache now w = Some sm
  | _ => True
  end.

(** The order in which the goroutines end. *)
Definition life_inv (s : State) : Prop :=
  (main s <> MWaitWorkers -> Forall (fun w => w = WReturned) (workers s)) /\
  (collector s = CReturned -> resultChan s = [] /\ main s <> MWaitWorkers).

Record inv (tr : list Event) (s : State) : Prop := {
  inv_reader : reader_inv tr s;
  inv_queue : queue_inv tr s;
  inv_flow : flow_inv tr s;
  inv_events : Forall event_sound tr;
  inv_life : life_inv s
}.

End InvariantDefinitions.

Arguments inv_reader {_ _ _ _ _ _ _} _.
Arguments inv_queue {_ _ _ _ _ _ _} _.
Arguments inv_flow {_ _ _ _ _ _ _} _.
Arguments inv_events {_ _ _ _ _ _ _} _.
Arguments inv_life {_ _ _ _ _ _ _} _.

(** A routing that is missing from the cache, an empty step list being
    treated as absent (section 4.2). *)
Definition routing_absent (cache : Cache) (work : variantWork) : Prop :=
  cache !! variantWork.RoutingID work = None \/
  cache !! variantWork.RoutingID work = Some [].

(** The trace and the state of a run of a schedule; the empty trace and the
    first state when the schedule cannot be run. *)
Definition trace_of (r : option (list Event * State)) : list Event :=
  match r with Some (tr, _) => tr | None => [] end.

Definition state_of (r : option (list Event * State)) (s : State) : State :=
  match r with Some (_, s') => s' | None => s end.

(** The consecutive pages of [batch] elements of a list. *)
Fixpoint pages_of {A} (fuel batch : nat) (l : list A) : list (list A) :=
  match fuel, l with
  | O, _ | _, [] => []
  | S fuel', _ => take batch l :: pages_of fuel' batch (drop batch l)
  end.

(** A catalog with an inactive variant, whose routing no active variant
    references. *)
Definition inactive_db : Database :=
  {| yarn_variants :=
       [ {| db.id := 5%N; db.routing_template_id := Some 1%N; db.is_active := true |};
         {| db.id := 6%N; db.routing_template_id := Some 9%N; db.is_active := false |} ];
     process_steps := scenario_a_steps;
     variant_cost_summaries := ∅;
     batch_jobs := ∅ |}.

(** ** A small catalog, to run the pipeline on

    One active variant, whose routing has the single step of scenario A;
    the job as the handler of [POST /recalculate/all] registers it. *)
Definition new_job (id : uuid) (now : Z) : BatchJob :=
  {| BatchJob.ID := id; BatchJob.Status := JobStatusPending;
     BatchJob.TotalRecords := 0; BatchJob.ProcessedRecords := 0;
     BatchJob.FailedRecords := 0; BatchJob.ErrorMessage := EmptyString;
     BatchJob.StartedAt := Some now; BatchJob.FinishedAt := None;
     BatchJob.CreatedAt := now |}.

Definition demo_db : Database :=
  {| yarn_variants :=
       [ {| db.id := 5%N; db.routing_template_id := Some 1%N; db.is_active := true |} ];
     process_steps := scenario_a_steps;
     variant_cost_summaries := ∅;
     batch_jobs := {[ 77%N := new_job 77%N 0 ]} |}.

Definition demo_wp : WorkerPool := {| workerCount := 1; batchSize := 1 |}.

Definition demo_cache : Cache :=
  match loadRoutingStepsCache demo_db false (fun _ => false) with
  | Ok cache => cache
  | Err _ => ∅
  end.

Definition demo_s0 : State :=
  spawn demo_wp demo_cache
    (with_jobs demo_db
       (persistence.UpdateStatus (batch_jobs demo_db) 77%N JobStatusRunning 0 0)).

(** The one variant goes through the pipeline; [flush_ok] tells whether the
    bulk write of its flush succeeds. *)
Definition demo_schedule (flush_ok : bool) : list Choice :=
  [ ChList true; ChSend; ChReceive 0 100; ChResult 0; ChCollect flush_ok true;
    ChList true; ChWorkerDone 0; ChCloseResults; ChCollectorDone true;
    ChComplete true 200 ].

Definition demo_run (flush_ok : bool) : option (list Event * State) :=
  @run exprlang.engine demo_wp 77%N scenario_a_bag (demo_schedule flush_ok) demo_s0.

(** A run of the same job in which the registry is out of reach at both
    ends: [UpdateStatus] fails before the goroutines start (the error is
    dropped, the job stays pending), the one variant is written and
    reported, and [Complete] fails, which [RecalculateAll] returns. *)
Definition interrupted_s0 : State := spawn demo_wp demo_cache demo_db.

Definition interrupted_run : option (list Event * State) :=
  @run exprlang.engine demo_wp 77%N scenario_a_bag
    [ ChList true; ChSend; ChReceive 0 100; ChResult 0; ChCollect true true;
      ChList true; ChWorkerDone 0; ChCloseResults; ChCollectorDone true;
      ChComplete false 200 ]
    interrupted_s0.

(** ** The single-variant path

    [yarnVariantRepo.GetByID]:
    [SELECT ... FROM yarn_variants WHERE id = $1], scanned by
    [QueryRow(...).Scan]: [pgx.ErrNoRows] when no row has the key.  [fail]
    is the error of the driver, or of the scan of a column that the model
    of the table does not hold, when there is one. *)
Module yarnVariantRepo.
Definition GetByID (d : Database) (fail : option string) (id : uuid) : result YarnVariant :=
  match fail with
  | Some e => Err e
  | None =>
      match List.find (fun r => N.eqb (db.id r) id) (yarn_variants d) with
      | Some r => Ok (persistence.scan_variant r)
      | None => Err "no rows in result set"
      end
  end.
End yarnVariantRepo.

Section SingleVariant.
Context `{ExprEngine}.

(** [CalculationEngine.CalculateVariant]: the variant, the steps of its
    routing, then [CalculateVariantFast].  [steps_fail] is the error of the
    query for the steps, when there is one. *)
Definition CalculateVariant (now : Z) (d : Database) (variant_fail steps_fail : option string)
    (variantID : uuid) (inputParams : Params) : result VariantCostSummary :=
  match yarnVariantRepo.GetByID d variant_fail variantID with
  | Err e => Err ("failed to get variant: " +:+ e)
  | Ok variant =>
      match steps_fail with
      | Some e => Err ("failed to get process steps: " +:+ e)
      | None =>
          Ok (CalculateVariantFast now variantID
                (persistence.GetByRoutingID d (YarnVariant.RoutingTemplateID variant))
                inputParams)
      end
  end.
End SingleVariant.

(** ** The summary store, one row at a time *)
Module variantCostSummaryRepo.
(** [Upsert]: [INSERT ... ON CONFLICT (yarn_variant_id) DO UPDATE SET ...],
    every column of the summary overwritten. *)
Definition Upsert (store : gmap uuid VariantCostSummary) (summary : VariantCostSummary)
    : gmap uuid VariantCostSummary :=
  <[VariantCostSummary.YarnVariantID summary := summary]> store.
End variantCostSummaryRepo.

(** ** internal/domain/entity: [BatchJob.Progress] *)
Definition Progress (b : BatchJob) : float :=
  if BatchJob.TotalRecords b =? 0 then 0%float
  else (float64_of_int (BatchJob.ProcessedRecords b)
        / float64_of_int (BatchJob.TotalRecords b) * 100)%float.

(** A catalog whose one variant references a routing that has no steps. *)
Definition stepless_db : Database :=
  {| yarn_variants :=
       [ {| db.id := 5%N; db.routing_template_id := Some 2%N; db.is_active := true |} ];
     process_steps := scenario_a_steps;
     variant_cost_summaries := ∅;
     batch_jobs := ∅ |}.

(** [total_records] of a job's row. *)
Definition job_total (jobs : gmap uuid BatchJob) (id : uuid) : option Z :=
  BatchJob.TotalRecords <$> jobs !! id.

(** ** config: the configuration read from the environment

    The environment is the map of the variables that are set; [os.Getenv]
    gives the empty string for one that is not. *)
Definition Getenv (env : gmap string string) (key : string) : string :=
  default EmptyString (env !! key).

(** [strconv.Atoi] on a 64-bit platform: an optional sign, then one decimal
    digit at least and nothing else; the value must fit [int]. *)
Definition Atoi (s : string) : result Z :=
  let '(neg, ds) :=
    match s with
    | String "-" rest => (true, rest)
    | String "+" rest => (false, rest)
    | _ => (false, s)
    end in
  match DecimalString.NilZero.uint_of_string ds with
  | None => Err "invalid syntax"
  | Some u =>
      let n := Z.of_N (N.of_uint u) in
      let z := if neg : bool then - n else n in
      if int64_range z then Ok z else Err "value out of range"
  end.

Module config.
Record AppConfig := { Env : string; Port : string }.

Record DatabaseConfig := {
  Host : string;
  DBPort : string;
  User : string;
  Password : string;
  Name : string;
  PoolMax : Z;
  PoolMinConns : Z;
  PoolMaxConnLife : Z  (** a [time.Duration], in nanoseconds *)
}.

Record WorkerConfig := { Count : Z; BatchSize : Z }.

Record Config := { App : AppConfig; Database : DatabaseConfig; Worker : WorkerConfig }.

Definition getEnv (env : gmap string string) (key defaultValue : string) : string :=
  let value := Getenv env key in
  if String.eqb value EmptyString then defaultValue else value.

Definition getEnvInt (env : gmap string string) (key : string) (defaultValue : Z) : Z :=
  let value := Getenv env key in
  if String.eqb value EmptyString then defaultValue
  else
    match Atoi value with
    | Ok intValue => intValue
    | Err _ => defaultValue
    end.

(** [time.Minute], in nanoseconds. *)
Definition Minute : Z := 60 * 1000000000.

Definition Load (env : gmap string string) : Config :=
  {| App := {| Env := getEnv env "APP_ENV" "development";
               Port := getEnv env "APP_PORT" "8080" |};
     Database :=
       {| Host := getEnv env "DB_HOST" "localhost";
          DBPort := getEnv env "DB_PORT" "5432";
          User := getEnv env "DB_USER" "postgres";
          Password := getEnv env "DB_PASSWORD" "postgres";
          Name := getEnv env "DB_NAME" "costing";
          PoolMax := getEnvInt env "DB_POOL_MAX" 50;
          PoolMinConns := getEnvInt env "DB_POOL_MIN" 10;
          PoolMaxConnLife :=
            wrap64 (getEnvInt env "DB_POOL_MAX_CONN_LIFE_MINUTES" 30 * Minute) |};
     Worker := {| Count := getEnvInt env "WORKER_COUNT" 100;
                  BatchSize := getEnvInt env "BATCH_SIZE" 1000 |} |}.

End config.

(** ** cmd/seeder: the numbers of the performance summary

    [formatNumber]: the body of [for i, r := range str], the characters of
    [fmt.Sprintf("%d", n)] being one byte each; [group len i str] is what
    the loop appends from index [i] on. *)
Fixpoint group (len i : nat) (str : list ascii) : list ascii :=
  match str with
  | [] => []
  | r :: rest =>
      if (0 <? i)%nat && ((len - i) mod 3 =? 0)%nat
      then ","%char :: r :: group len (S i) rest
      else r :: group len (S i) rest
  end.

Definition formatNumber (n : Z) : string :=
  let str := strconv.Itoa n in
  string_of_list_ascii (group (String.length str) 0 (list_ascii_of_string str)).

(** [generateParameterNames]: the names of the master parameters that the
    seeder registers. *)
Definition prefixes : list string :=
  [ "raw_material"; "electricity_kwh"; "labor_hours"; "machine_hours";
    "water_liters"; "steam_hours"; "chemical_kg"; "dye_kg";
    "spindle_hours"; "loom_hours"; "finishing_hours"; "packaging_units";
    "waste_percentage"; "quality_factor"; "efficiency_rate"; "overhead_rate";
    "input_cost"; "output_cost"; "material_price"; "labor_rate" ].

Definition parameter_name (i : nat) : string :=
  let prefix := nth (i mod length prefixes) prefixes EmptyString in
  let suffix := (i / length prefixes)%nat in
  if (0 <? suffix)%nat then prefix +:+ "_" +:+ strconv.Itoa (Z.of_nat suffix)
  else prefix.

Definition generateParameterNames (count : nat) : list string :=
  parameter_name <$> seq 0 count.

(** The decimal digits. *)
Definition is_digit (c : ascii) : bool :=
  (48 <=? nat_of_ascii c)%nat && (nat_of_ascii c <=? 57)%nat.

(** ** The callers of [RecalculateAll]

    The call as a whole: the part before the goroutines, then the
    goroutines under the schedule [chs]; [None] when the schedule does not
    take the main goroutine to its return. *)
Section Callers.
Context `{ExprEngine}.
Variable wp : WorkerPool.

Definition RecalculateAll (jobID : uuid) (baseParams : Params) (d : Database)
    (count_fail ids_fail : bool) (steps_fail : uuid -> bool) (status_ok : bool)
    (chs : list Choice) : option (option string * Database) :=
  match start wp jobID d count_fail ids_fail steps_fail status_ok with
  | Err e => Some (Some e, d)
  | Ok s0 =>
      match run wp jobID baseParams chs s0 with
      | Some (_, s) =>
          match main s with
          | MReturned err => Some (err, database s)
          | _ => None
          end
      | None => None
      end
  end.

(** cmd/api, [POST /recalculate/all]: the job is registered, pending and
    with no counts, then the goroutine of the handler runs
    [RecalculateAll] and calls [jobRepo.Fail] when it returns an error.
    [Err] is the answer 500 to a job that cannot be registered:
    [create_fail] is an error of the database on the insert.  The error of
    [jobRepo.Fail] is dropped: with [fail_ok] false the statement fails and
    the row is left as [RecalculateAll] left it. *)
Definition recalculate_all (jobID : uuid) (now : Z) (baseParams : Params) (d : Database)
    (create_fail : option string)
    (count_fail ids_fail : bool) (steps_fail : uuid -> bool) (status_ok : bool)
    (chs : list Choice) (fail_ok : bool) (failed_at : Z) : result (option Database) :=
  match match create_fail with
        | Some e => Err e
        | None => persistence.Create (batch_jobs d) (new_job jobID now)
        end with
  | Err e => Err e
  | Ok jobs =>
      Ok (match RecalculateAll jobID baseParams (with_jobs d jobs)
                  count_fail ids_fail steps_fail status_ok chs with
          | Some (Some err, d') =>
              Some (if fail_ok
                    then with_jobs d'
                           (persistence.Fail (batch_jobs d') jobID err failed_at)
                    else d')
          | Some (None, d') => Some d'
          | None => None
          end)
  end.

(** cmd/worker, [processJob]: an error of [RecalculateAll] is logged, and
    nothing else is done about it. *)
Definition processJob (job : BatchJob) (baseParams : Params) (d : Database)
    (count_fail ids_fail : bool) (steps_fail : uuid -> bool) (status_ok : bool)
    (chs : list Choice) : option Database :=
  snd <$> RecalculateAll (BatchJob.ID job) baseParams d
            count_fail ids_fail steps_fail status_ok chs.
End Callers.

(** The reader was cut short: a page query failed, or the context was
    cancelled while it was sending. *)
Definition cut_short (tr : list Event) : Prop := EListFailed ∈ tr \/ ECancelled ∈ tr.

(** Every bulk write of the trace succeeded. *)
Definition all_written (tr : list Event) : Prop :=
  forall batch progress, EFlush batch false progress ∉ tr.

(** The choices in which a goroutine moves on and the environment does not
    interfere: no tick of the reporter, no cancellation, no failing
    database call. *)
Definition productive (ch : Choice) : bool :=
  match ch with
  | ChList db_ok => db_ok
  | ChCollect upsert_ok progress_ok => upsert_ok && progress_ok
  | ChCollectorDone upsert_ok => upsert_ok
  | ChComplete db_ok _ => db_ok
  | ChTick | ChCancel => false
  | ChSend | ChReceive _ _ | ChResult _ | ChWorkerDone _ | ChCloseResults => true
  end.

(** The events other than the samples of the progress reporter. *)
Definition non_tick (e : Event) : bool :=
  match e with EProgress _ _ => false | _ => true end.

(** A bound on the steps, other than ticks, that can still be taken. *)
Definition worker_weight (w : Worker) : nat :=
  match w with WReceive => 1 | WSend _ => 4 | WReturned => 0 end.

Definition remaining (active : nat) (s : State) : nat :=
  match dispatcher s with
  | DList offset => 6 * (active - offset) + 2
  | DSend _ i offset => 6 * (active - (offset + i)) + 1
  | DReturned => 0
  end
  + 4 * length (workChan s)
  + sum_list (worker_weight <$> workers s)
  + 2 * length (resultChan s)
  + match collector s with CReceive _ => 1 | CReturned => 0 end
  + match main s with MWaitWorkers => 2 | MWaitCollector => 1 | MReturned _ => 0 end.

(** The size of a flush: the batch size for a flush made when the buffer
    fills up, less, and not nothing, for the flush of what remains. *)
Definition flush_sized (batch : nat) (e : Event) : Prop :=
  match e with
  | EFlush b _ (Some _) => length b = batch
  | EFlush b _ None => (0 < length b < batch)%nat
  | _ => True
  end.

(** A pool that never takes up a variant: with a batch size of zero the
    work queue stays empty, with no worker nothing is taken from it. *)
Definition idle (wp : WorkerPool) (d0 : Database) (tr : list Event) (s : State) : Prop :=
  (batchSize wp = 0%nat ->
   workChan s = [] /\ dispatched tr = [] /\
   match dispatcher s with DSend _ _ _ => False | _ => True end) /\
  (workerCount wp = 0%nat -> workers s = []) /\
  Forall (fun w => match w with WSend _ => False | _ => True end) (workers s) /\
  resultChan s = [] /\ buffered (collector s) = [] /\
  visited tr = [] /\ flushed tr = [] /\
  processedCount s = 0 /\ failedCount s = 0 /\
  variant_cost_summaries (database s) = variant_cost_summaries d0.

#[global] Arguments upsert : simpl never.
#[global] Arguments progress : simpl never.
#[global] Arguments capacity : simpl never.
#[global] Arguments handle : simpl never.
#[global] Arguments persistence.Complete : simpl never.
#[global] Arguments sha256.Sum256 : simpl never.
#[global] Arguments hex.EncodeToString : simpl never.
#[global] Arguments json.Marshal : simpl never.
#[global] Arguments CalculateVariantFast : simpl never.
#[global] Arguments persistence.ListWithRouting : simpl never.
#[global] Arguments persistence.active_variants : simpl never.
#[global] Arguments persistence.UpsertBatch : simpl never.
#[global] Arguments persistence.UpdateProgress : simpl never.
#[global] Arguments wrap64 : simpl never.

(** * Properties *)

(** ** Variant calculation *)

Section CalculationFacts.
Context `{ExprEngine}.

Lemma process_cost_snoc now id steps step P :
  VariantCostSummary.TotalProcessCost (CalculateVariantFast now id (steps ++ [step]) P) =
  (VariantCostSummary.TotalProcessCost (CalculateVariantFast now id steps P)
   + step_cost P step)%float.
Proof.
  unfold CalculateVariantFast. cbn [VariantCostSummary.TotalProcessCost].
  by rewrite fold_left_app.
Qed.

Lemma step_cost_error P step msg :
  formula.Evaluate (ProcessStep.FormulaExpression step) P = Err msg ->
  step_cost P step = 0%float.
Proof. unfold step_cost. by intros ->. Qed.

Lemma step_cost_value P step c :
  formula.Evaluate (ProcessStep.FormulaExpression step) P = Ok c ->
  step_cost P step = c.
Proof. unfold step_cost. by intros ->. Qed.
End CalculationFacts.



(** C10.  When the bag binds [material_cost] or [overhead_percentage] to a
    value whose dynamic type is not [float64], [float32] or [int], the
    calculation takes the default, [0.0] and [0.1], as it does when the key
    is absent. *)
Theorem get_float_param_other_type :
  forall (E : ExprEngine) (now : Z) (id : uuid) (S : list ProcessStep) (P : Params)
         (key : string) (v : Value) (defaultVal : float),
    P !! key = Some v ->
    converted v = false ->
    getFloatParam P key defaultVal = defaultVal /\
    getFloatParam P key defaultVal = getFloatParam (delete key P) key defaultVal /\
    (key = "material_cost" ->
       VariantCostSummary.TotalMaterialCost (CalculateVariantFast now id S P) = 0%float) /\
    (key = "overhead_percentage" ->
       VariantCostSummary.TotalOverhead (CalculateVariantFast now id S P)
       = (VariantCostSummary.TotalProcessCost (CalculateVariantFast now id S P) * tenth)%float).
Proof.
  intros E now id S P key v d Hv Hc.
  assert (Hd : getFloatParam P key d = d).
  { unfold getFloatParam. rewrite Hv. by destruct v. }
  split; [exact Hd|].
  split.
  { rewrite Hd. unfold getFloatParam. by rewrite lookup_delete_eq. }
  split; intros ->; unfold CalculateVariantFast;
    cbn [VariantCostSummary.TotalMaterialCost VariantCostSummary.TotalProcessCost
         VariantCostSummary.TotalOverhead].
  - unfold getFloatParam. rewrite Hv. by destruct v.
  - f_equal. unfold getFloatParam. rewrite Hv. by destruct v.
Qed.

Lemma get_float_param_other_type_witness :
  let P : Params := <["material_cost" := VString "1000"]> ∅ in
  P !! "material_cost" = Some (VString "1000") /\
  converted (VString "1000") = false /\
  getFloatParam P "material_cost" 0%float = 0%float.
Proof.
  intros P. split; [reflexivity|]. split; [reflexivity|].
  exact (proj1 (get_float_param_other_type exprlang.engine 0 1%N [] P
                  "material_cost" (VString "1000") 0%float eq_refl eq_refl)).
Defined.

(** ** The version hash *)

Lemma append_cons x (a b : string) : String x a +:+ b = String x (a +:+ b).
Proof. reflexivity. Qed.

Lemma append_nil_r (a : string) : a +:+ EmptyString = a.
Proof. induction a as [|x a IH]; [done|]. by rewrite append_cons, IH. Qed.

Lemma append_assoc (a b c : string) : (a +:+ b) +:+ c = a +:+ b +:+ c.
Proof. induction a as [|x a IH]; [done|]. by rewrite !append_cons, IH. Qed.

Lemma value_string_ok v s : json.value_string v = Ok s -> s = spec.value_text v.
Proof.
  destruct v; simpl; unfold json.float_string; try (intros [= <-]; done);
    destruct (is_nan f || is_infinity f); intros [= <-]; done.
Qed.

Lemma value_string_encodable v :
  spec.encodable v = true <-> exists s, json.value_string v = Ok s.
Proof.
  destruct v; simpl; unfold json.float_string;
    try (split; [eauto|done]);
    destruct (is_nan f || is_infinity f); simpl; split;
    try done; eauto; intros [s Hs]; done.
Qed.

Lemma concat_members kv kvs :
  String.concat "," (spec.member <$> kv :: kvs) = spec.member kv +:+ more_members kvs.
Proof.
  revert kv. induction kvs as [|kv' kvs IH]; intros kv.
  - simpl. by rewrite append_nil_r.
  - change (spec.member kv +:+ "," +:+ String.concat "," (spec.member <$> kv' :: kvs)
            = spec.member kv +:+ more_members (kv' :: kvs)).
    by rewrite IH.
Qed.

Lemma members_more kvs body :
  json.members false kvs = Ok body -> body = more_members kvs.
Proof.
  revert body. induction kvs as [|[k v] kvs IH]; intros body; simpl.
  - by intros [= <-].
  - destruct (json.value_string v) as [sv|] eqn:Hv; [|done].
    destruct (json.members false kvs) as [tail|] eqn:Ht; [|done].
    intros [= <-]. rewrite (IH tail eq_refl), (value_string_ok _ _ Hv).
    unfold spec.member; simpl. by rewrite !append_assoc.
Qed.

Lemma members_first kvs body :
  json.members true kvs = Ok body ->
  body = String.concat "," (spec.member <$> kvs).
Proof.
  destruct kvs as [|[k v] kvs]; intros Hm; simpl in Hm.
  - by injection Hm as <-.
  - destruct (json.value_string v) as [sv|] eqn:Hv; [|done].
    destruct (json.members false kvs) as [tail|] eqn:Ht; [|done].
    injection Hm as <-.
    rewrite concat_members, (members_more _ _ Ht), (value_string_ok _ _ Hv).
    unfold spec.member; simpl. by rewrite !append_assoc.
Qed.

Lemma members_encodable first kvs :
  Forall (fun kv => spec.encodable kv.2 = true) kvs <->
  exists body, json.members first kvs = Ok body.
Proof.
  revert first. induction kvs as [|[k v] kvs IH]; intros first; simpl.
  - split; [eauto|constructor].
  - split.
    + intros Hall. apply Forall_cons in Hall as [Hv Hall]. simpl in Hv.
      apply value_string_encodable in Hv as [sv ->].
      apply (IH false) in Hall as [tail ->]. eauto.
    + intros [body Hb].
      destruct (json.value_string v) as [sv|] eqn:Hv; [|done].
      destruct (json.members false kvs) as [tail|] eqn:Ht; [|done].
      constructor.
      * simpl. apply value_string_encodable. eauto.
      * apply (IH false). eauto.
Qed.

(** When [json.Marshal] succeeds, its bytes are the canonical JSON of the
    specification. *)
Lemma marshal_canonical P b : json.Marshal P = Ok b -> b = spec.canonical_json P.
Proof.
  unfold json.Marshal, spec.canonical_json.
  destruct (json.members true (json.sorted_entries P)) as [body|] eqn:Hm; [|done].
  intros [= <-]. by rewrite (members_first _ _ Hm).
Qed.

(** [json.Marshal] succeeds exactly on the bags without NaN and infinity. *)
Lemma marshal_encodable P :
  map_Forall (fun _ v => spec.encodable v = true) P <-> exists b, json.Marshal P = Ok b.
Proof.
  unfold json.Marshal.
  rewrite map_Forall_to_list.
  assert (Hperm : json.sorted_entries P ≡ₚ map_to_list P)
    by apply merge_sort_Permutation.
  split.
  - intros Hall.
    assert (Hs : Forall (fun kv => spec.encodable kv.2 = true) (json.sorted_entries P)).
    { rewrite Hperm. eapply Forall_impl; [exact Hall|]. by intros [k v]. }
    apply (members_encodable true) in Hs as [body ->]. eauto.
  - intros [b Hb].
    destruct (json.members true (json.sorted_entries P)) as [body|] eqn:Hm; [|done].
    assert (Hs : Forall (fun kv => spec.encodable kv.2 = true) (json.sorted_entries P))
      by (apply (members_encodable true); eauto).
    rewrite Hperm in Hs. eapply Forall_impl; [exact Hs|]. by intros [k v].
Qed.

Section HashFacts.
Context `{ExprEngine}.

Lemma version_hash_encodable now id S P :
  map_Forall (fun _ v => spec.encodable v = true) P ->
  VariantCostSummary.VersionHash (CalculateVariantFast now id S P) = spec.version_hash P.
Proof.
  intros [b Hb]%marshal_encodable.
  unfold CalculateVariantFast, spec.version_hash.
  cbn [VariantCostSummary.VersionHash].
  rewrite Hb. by rewrite (marshal_canonical _ _ Hb).
Qed.

Lemma version_hash_not_encodable now id S P :
  ~ map_Forall (fun _ v => spec.encodable v = true) P ->
  VariantCostSummary.VersionHash (CalculateVariantFast now id S P)
  = hex.EncodeToString (sha256.Sum256 []).
Proof.
  intros Hn. unfold CalculateVariantFast.
  cbn [VariantCostSummary.VersionHash].
  destruct (json.Marshal P) as [b|] eqn:Hb; [|reflexivity].
  destruct Hn. apply marshal_encodable. eauto.
Qed.
End HashFacts.

(** ** The pipeline: what a step changes *)

Ltac step_inv H :=
  let ch := fresh "ch" in
  destruct H as [ch H]; destruct ch; simpl in H;
  unfold dispatcher_list, dispatcher_send, dispatcher_cancel, worker_receive,
    worker_result, worker_done, main_close, collector_receive, collector_done,
    reporter_tick, main_complete, results_closed in H;
  repeat case_match; simplify_eq.

Section PipelineFacts.
Context `{ExprEngine}.
Variable wp : WorkerPool.
Variable jobID : uuid.
Variable baseParams : Params.

Abbreviation step := (step wp jobID baseParams).
Abbreviation exec := (exec wp jobID baseParams).

Lemma upsert_tables ok d b w d' :
  upsert ok d b = (w, d') ->
  yarn_variants d' = yarn_variants d /\ process_steps d' = process_steps d /\
  batch_jobs d' = batch_jobs d.
Proof.
  unfold upsert. intros Hu. repeat case_match; simplify_eq; done.
Qed.

Lemma progress_tables ok d n r d' :
  progress jobID ok d n = (r, d') ->
  yarn_variants d' = yarn_variants d /\ process_steps d' = process_steps d /\
  variant_cost_summaries d' = variant_cost_summaries d.
Proof.
  unfold progress. intros Hu. repeat case_match; simplify_eq; done.
Qed.

(** The cache and the catalog tables are read only. *)
Lemma step_frame s e s' :
  step s e s' ->
  routingStepsCache s' = routingStepsCache s /\
  yarn_variants (database s') = yarn_variants (database s) /\
  process_steps (database s') = process_steps (database s) /\
  length (workers s') = length (workers s).
Proof.
  intros Hs. step_inv Hs; simpl; rewrite ?length_insert;
    repeat match goal with
    | Hu : upsert _ _ _ = _ |- _ => apply upsert_tables in Hu as (? & ? & ?)
    | Hp : progress _ _ _ _ = _ |- _ => apply progress_tables in Hp as (? & ? & ?)
    end; repeat split; congruence.
Qed.
End PipelineFacts.

(** ** The pipeline: what holds along a run *)

Lemma dispatched_snoc tr e : dispatched (tr ++ [e]) = dispatched tr ++ dispatched [e].
Proof. unfold dispatched. by rewrite flat_map_app. Qed.

Lemma received_snoc tr e : received (tr ++ [e]) = received tr ++ received [e].
Proof. unfold received. by rewrite flat_map_app. Qed.

Lemma visited_snoc tr e : visited (tr ++ [e]) = visited tr ++ visited [e].
Proof. unfold visited. by rewrite flat_map_app. Qed.

Lemma counted_failed_snoc tr e : counted_failed (tr ++ [e]) = counted_failed tr ++ counted_failed [e].
Proof. unfold counted_failed. by rewrite flat_map_app. Qed.

Lemma calculated_snoc tr e : calculated (tr ++ [e]) = calculated tr ++ calculated [e].
Proof. unfold calculated. by rewrite flat_map_app. Qed.

Lemma flushed_snoc tr e : flushed (tr ++ [e]) = flushed tr ++ flushed [e].
Proof. unfold flushed. by rewrite flat_map_app. Qed.

Lemma written_snoc tr e : written (tr ++ [e]) = written tr ++ written [e].
Proof. unfold written. by rewrite flat_map_app. Qed.

Lemma reported_snoc tr e : reported (tr ++ [e]) = reported tr ++ reported [e].
Proof. unfold reported. by rewrite flat_map_app. Qed.

Lemma samples_snoc tr e : samples (tr ++ [e]) = samples tr ++ samples [e].
Proof. unfold samples. by rewrite flat_map_app. Qed.

Ltac trace_snoc :=
  rewrite ?dispatched_snoc, ?received_snoc, ?visited_snoc, ?counted_failed_snoc,
    ?calculated_snoc, ?flushed_snoc, ?written_snoc, ?reported_snoc, ?samples_snoc;
  cbn [dispatched received visited counted_failed calculated flushed written reported
       samples flat_map app];
  rewrite ?app_nil_r.

Lemma held_app ws1 ws2 : held (ws1 ++ ws2) = held ws1 ++ held ws2.
Proof. unfold held. by rewrite flat_map_app. Qed.

Lemma held_cons w ws : held (w :: ws) = held [w] ++ held ws.
Proof. unfold held. simpl. by rewrite app_nil_r. Qed.

Lemma held_insert ws i w w' :
  ws !! i = Some w ->
  exists l1 l2, held ws = l1 ++ held [w] ++ l2 /\ held (<[i := w']> ws) = l1 ++ held [w'] ++ l2.
Proof.
  intros Hi. exists (held (take i ws)), (held (drop (S i) ws)). split.
  - rewrite <- (take_drop_middle ws i w Hi) at 1.
    by rewrite held_app, held_cons.
  - rewrite insert_take_drop by (by eapply lookup_lt_Some).
    by rewrite held_app, held_cons.
Qed.

Lemma held_returned ws : Forall (fun w => w = WReturned) ws -> held ws = [].
Proof. induction 1 as [|w ws -> _ IH]; [done|]. exact IH. Qed.

Lemma forallb_returned ws :
  forallb worker_returned ws = true -> Forall (fun w => w = WReturned) ws.
Proof.
  rewrite forallb_forall, Forall_forall. intros Hf w Hw.
  apply list_elem_of_In in Hw. specialize (Hf w Hw). by destruct w.
Qed.

Section Invariants.
Context `{ExprEngine}.
Variable wp : WorkerPool.
Variable jobID : uuid.
Variable baseParams : Params.
Variable cache : Cache.
Variable d0 : Database.

Abbreviation step := (step wp jobID baseParams).
Abbreviation exec := (exec wp jobID baseParams).
Abbreviation s0 := (spawn wp cache d0).
Abbreviation active := (persistence.active_variants d0).
Abbreviation all := (work_of <$> persistence.active_variants d0).
Abbreviation reads := (reader_inv wp d0).
Abbreviation sound := (event_sound baseParams cache).
Abbreviation good := (inv wp baseParams cache d0).

Lemma exec_frame tr s :
  exec s0 tr s ->
  routingStepsCache s = cache /\
  yarn_variants (database s) = yarn_variants d0 /\
  process_steps (database s) = process_steps d0 /\
  length (workers s) = workerCount wp.
Proof.
  induction 1 as [|tr s e s' _ IH Hs].
  - simpl. by rewrite length_replicate.
  - apply step_frame in Hs. destruct IH as (?&?&?&?), Hs as (?&?&?&?).
    repeat split; congruence.
Qed.

Lemma active_frame tr s :
  exec s0 tr s -> persistence.active_variants (database s) = active.
Proof.
  intros (_ & Hy & _)%exec_frame. unfold persistence.active_variants. by rewrite Hy.
Qed.

Lemma reader_inv_step tr s e s' :
  exec s0 tr s -> reads tr s -> step s e s' -> reads (tr ++ [e]) s'.
Proof.
  intros Hex Hinv Hs. pose proof (active_frame _ _ Hex) as Hact.
  step_inv Hs; unfold reader_inv in *; simpl in *; trace_snoc;
    repeat match goal with Hd : dispatcher _ = _ |- _ => rewrite Hd in * end;
    try exact Hinv.
  - (* the empty page *) eauto.
  - (* a page *)
    unfold persistence.ListWithRouting in *. rewrite Hact in *.
    repeat split; [done|lia|]. by rewrite Nat.add_0_r.
  - (* the query failed *) eauto.
  - (* one more variant of the page *)
    destruct Hinv as (Hv & Hi & Hd). rewrite Hd.
    repeat split; [done|done|].
    rewrite Nat.add_succ_r. symmetry. apply take_S_r.
    rewrite list_lookup_fmap.
    match goal with Hl : variants !! i = Some _ |- _ =>
      rewrite Hv in Hl; apply lookup_take_Some in Hl as [Hl _];
      rewrite lookup_drop in Hl; by rewrite Hl end.
  - (* the last variant of the page *)
    destruct Hinv as (Hv & Hi & Hd). rewrite Hd.
    assert (length variants = S i) as -> by lia.
    rewrite Nat.add_succ_r. symmetry. apply take_S_r.
    rewrite list_lookup_fmap.
    match goal with Hl : variants !! i = Some _ |- _ =>
      rewrite Hv in Hl; apply lookup_take_Some in Hl as [Hl _];
      rewrite lookup_drop in Hl; by rewrite Hl end.
  - (* cancelled *) destruct Hinv as (_ & _ & Hd). eauto.
Qed.

Lemma queue_inv_step tr s e s' :
  queue_inv tr s -> step s e s' -> queue_inv (tr ++ [e]) s'.
Proof.
  unfold queue_inv. intros Hinv Hs.
  step_inv Hs; simpl in *; trace_snoc; try exact Hinv;
    repeat match goal with Hw : workChan _ = _ |- _ => rewrite Hw in * end;
    rewrite Hinv, <- ?app_assoc; try done.
  by rewrite app_nil_r.
Qed.

Lemma flow_inv_step tr s e s' :
  flow_inv tr s -> step s e s' -> flow_inv (tr ++ [e]) s'.
Proof.
  unfold flow_inv, in_flight. intros Hinv Hs.
  step_inv Hs; simpl in *; trace_snoc; try exact Hinv;
    repeat match goal with
    | Hw : workers _ !! _ = Some ?w |- context [<[_ := ?w']> _] =>
        let l1 := fresh "l" in let l2 := fresh "l" in
        let H1 := fresh in let H2 := fresh in
        destruct (held_insert _ _ _ w' Hw) as (l1 & l2 & H1 & H2);
        rewrite H2; rewrite H1 in Hinv; clear H1 H2
    | Hc : collector _ = _ |- _ => rewrite Hc in *
    | Hr : resultChan _ = _ |- _ => rewrite Hr in *
    end; simpl in *; rewrite ?app_nil_r in *; rewrite ?Hinv; try done;
    try solve_Permutation.
Qed.

(** *** What the workers decide *)

Lemma handle_none now w :
  handle baseParams cache now w = None <->
  cache !! variantWork.RoutingID w = None \/ cache !! variantWork.RoutingID w = Some [].
Proof.
  unfold handle. destruct (cache !! variantWork.RoutingID w) as [[|st sts]|];
    split; try done; eauto; intros [?|?]; done.
Qed.

Lemma handle_some now w sm :
  handle baseParams cache now w = Some sm <->
  exists step steps,
    cache !! variantWork.RoutingID w = Some (step :: steps) /\
    sm = CalculateVariantFast now (variantWork.ID w) (step :: steps) baseParams.
Proof.
  unfold handle. destruct (cache !! variantWork.RoutingID w) as [[|st sts]|]; split.
  all: try done.
  all: try (intros (? & ? & ? & ?); done).
  - intros [= <-]. eauto.
  - intros (? & ? & [= <- <-] & ->). done.
Qed.

Lemma handle_id now w sm :
  handle baseParams cache now w = Some sm ->
  VariantCostSummary.YarnVariantID sm = variantWork.ID w.
Proof. intros (st & sts & _ & ->)%handle_some. done. Qed.

Lemma handle_none_any now now' w :
  handle baseParams cache now w = None -> handle baseParams cache now' w = None.
Proof. rewrite !handle_none. done. Qed.

Lemma event_sound_step tr s e s' :
  exec s0 tr s -> step s e s' -> sound e.
Proof.
  intros (Hc & _)%exec_frame Hs. unfold event_sound.
  rewrite <- Hc. clear Hc.
  step_inv Hs; simpl; try done.
  - eauto.
  - intros now'. unfold handle in *. by repeat case_match.
Qed.

Lemma returned_lookup ws i w :
  Forall (fun w => w = WReturned) ws -> ws !! i = Some w -> w = WReturned.
Proof. intros Hf Hi. by eapply (Forall_lookup_1 _ _ _ _ Hf Hi). Qed.

Lemma life_inv_step s e s' : life_inv s -> step s e s' -> life_inv s'.
Proof.
  unfold life_inv. intros [Hw Hc] Hs.
  step_inv Hs; simpl in *; try (split; [exact Hw|exact Hc]).
  all: repeat match goal with
       | Hm : main _ = _ |- _ => rewrite Hm in *
       | Hk : collector _ = _ |- _ => rewrite Hk in *
       end.
  all: split; [intros Hm|intros Hk]; try done.
  all: try (by apply forallb_returned).
  all: try (by apply Hw).
  all: try (by destruct (Hc Hk) as [_ ?]).
  all: try (split; [by apply Hc|done]).
  all: try (assert (Hm' : main s <> MWaitWorkers) by (by apply Hc));
       try (assert (Hm' : main s <> MWaitWorkers) by exact Hm);
       specialize (Hw Hm');
       match goal with Hi : workers _ !! _ = Some _ |- _ =>
         by pose proof (returned_lookup _ _ _ Hw Hi) end.
Qed.

Lemma exec_inv tr s : exec s0 tr s -> good tr s.
Proof.
  induction 1 as [|tr s e s' Hex IH Hs].
  - split; try done.
    unfold flow_inv, in_flight. simpl.
    assert (held (replicate (workerCount wp) WReceive) = []) as ->; [|done].
    induction (workerCount wp) as [|n IHn]; [done|exact IHn].
  - destruct IH. split.
    + by eapply reader_inv_step.
    + by eapply queue_inv_step.
    + by eapply flow_inv_step.
    + apply Forall_app. split; [done|]. constructor; [|done].
      by eapply event_sound_step.
    + by eapply life_inv_step.
Qed.

(** *** Counting *)

Lemma active_length : (length active <= length (yarn_variants d0))%nat.
Proof.
  unfold persistence.active_variants.
  rewrite length_fmap, (Permutation_length (merge_sort_Permutation _ _)).
  apply length_filter.
Qed.

Lemma active_ids_NoDup :
  NoDup (db.id <$> yarn_variants d0) -> NoDup (YarnVariant.ID <$> active).
Proof.
  intros Hkey. unfold persistence.active_variants.
  rewrite <- list_fmap_compose.
  rewrite (fmap_Permutation _ _ _ (merge_sort_Permutation _ _)).
  eapply sublist_NoDup; [exact Hkey|].
  apply (fmap_sublist db.id), sublist_filter.
Qed.

Lemma visited_received tr : visited tr = variantWork.ID <$> received tr.
Proof.
  induction tr as [|e tr IH]; [done|].
  change (e :: tr) with ([e] ++ tr).
  unfold visited, received in *. rewrite !flat_map_app, fmap_app, IH.
  f_equal. by destruct e.
Qed.

Lemma visited_split tr :
  Forall sound tr ->
  visited tr ≡ₚ counted_failed tr ++ summary_ids (calculated tr).
Proof.
  induction 1 as [|e tr He _ IH]; [done|].
  change (e :: tr) with ([e] ++ tr).
  unfold visited, counted_failed, calculated, summary_ids in *.
  rewrite !flat_map_app, fmap_app, IH.
  destruct e; simpl; try done.
  - destruct He as [now Hh]. rewrite (handle_id _ _ _ Hh). solve_Permutation.
Qed.

Lemma dispatched_prefix tr s : good tr s -> exists n, dispatched tr = take n all.
Proof.
  intros [Hr _ _ _ _]. unfold reader_inv in Hr.
  destruct (dispatcher s); [eauto|destruct Hr as (_ & _ & ?); eauto|done].
Qed.

Lemma received_prefix tr s :
  good tr s -> exists n, received tr ++ workChan s = take n all.
Proof.
  intros Hi. destruct (dispatched_prefix _ _ Hi) as [n Hn].
  exists n. by rewrite <- (inv_queue Hi).
Qed.

Lemma visited_NoDup tr s :
  NoDup (db.id <$> yarn_variants d0) -> good tr s -> NoDup (visited tr).
Proof.
  intros Hkey Hi. destruct (received_prefix _ _ Hi) as [n Hn].
  assert (Hnd : NoDup (variantWork.ID <$> take n all)).
  { rewrite fmap_take.
    eapply sublist_NoDup; [|apply sublist_take].
    rewrite <- list_fmap_compose. by apply active_ids_NoDup. }
  rewrite <- Hn, fmap_app in Hnd. apply NoDup_app in Hnd as (Hnd & _ & _).
  by rewrite visited_received.
Qed.

Lemma visited_length tr s :
  good tr s -> (length (visited tr) <= length (yarn_variants d0))%nat.
Proof.
  intros Hi. destruct (received_prefix _ _ Hi) as [n Hn].
  rewrite visited_received, length_fmap.
  etrans; [|apply active_length].
  apply (f_equal length) in Hn. rewrite length_app, length_take, length_fmap in Hn. lia.
Qed.

Lemma outcome_lengths tr s :
  good tr s ->
  (length (counted_failed tr) + length (in_flight s) + length (flushed tr)
   <= length (yarn_variants d0))%nat.
Proof.
  intros Hi. pose proof (visited_length _ _ Hi) as Hv.
  rewrite (Permutation_length (visited_split _ (inv_events Hi))) in Hv.
  rewrite length_app in Hv. unfold summary_ids in Hv. rewrite length_fmap in Hv.
  rewrite (Permutation_length (inv_flow Hi)), length_app in Hv. lia.
Qed.

Lemma wrap64_small z : - 2 ^ 63 <= z < 2 ^ 63 -> wrap64 z = z.
Proof. intros Hz. unfold wrap64. rewrite Z.mod_small; lia. Qed.

(** The two counters change at a failure and at a flush, and nowhere else. *)
Lemma step_counters s e s' :
  step s e s' ->
  failedCount s' =
    match e with EFailed _ => wrap64 (failedCount s + 1) | _ => failedCount s end /\
  processedCount s' =
    match e with
    | EFlush batch _ _ => wrap64 (processedCount s + Z.of_nat (length batch))
    | _ => processedCount s
    end.
Proof. intros Hs. step_inv Hs; done. Qed.

Hypothesis Hsize : Z.of_nat (length (yarn_variants d0)) < 2 ^ 63.

(** Within the size of the catalog the counters do not wrap around: they
    count the failures and the flushed summaries. *)
Lemma counters tr s :
  exec s0 tr s ->
  failedCount s = Z.of_nat (length (counted_failed tr)) /\
  processedCount s = Z.of_nat (length (flushed tr)).
Proof.
  induction 1 as [|tr s e s' Hex [IHf IHp] Hs]; [done|].
  assert (Hi : good (tr ++ [e]) s') by (apply exec_inv; by econstructor).
  apply outcome_lengths in Hi.
  apply step_counters in Hs as [-> ->]. rewrite IHf, IHp.
  revert Hi. trace_snoc. rewrite !length_app.
  destruct e; simpl; rewrite ?Nat.add_0_r; intros Hi; try done.
  - split; [|done]. rewrite wrap64_small; lia.
  - split; [done|]. rewrite wrap64_small; lia.
Qed.

(** *** The summary store and the job registry *)

Lemma upserted_notin store batch id :
  id ∉ summary_ids batch -> persistence.upserted store batch !! id = store !! id.
Proof.
  revert store. induction batch as [|sm batch IH]; intros store Hid; [done|].
  simpl in *. apply not_elem_of_cons in Hid as [Hne Hid].
  rewrite IH by done. by rewrite lookup_insert_ne.
Qed.

Lemma upserted_in store batch sm :
  NoDup (summary_ids batch) -> sm ∈ batch ->
  persistence.upserted store batch !! VariantCostSummary.YarnVariantID sm = Some sm.
Proof.
  revert store. induction batch as [|sm' batch IH]; intros store Hnd Hin.
  - by apply elem_of_nil in Hin.
  - simpl in *. apply NoDup_cons in Hnd as [Hfresh Hnd].
    apply elem_of_cons in Hin as [->|Hin].
    + rewrite upserted_notin by done. by rewrite lookup_insert_eq.
    + by apply IH.
Qed.

Lemma upsert_written ok d b d' :
  upsert ok d b = (true, d') ->
  NoDup (summary_ids b) /\ d' = with_summaries d (persistence.upserted (variant_cost_summaries d) b).
Proof.
  unfold upsert, persistence.UpsertBatch. intros Hu.
  repeat case_match; simplify_eq; split; try done; constructor.
Qed.

Lemma upsert_dropped ok d b d' : upsert ok d b = (false, d') -> d' = d.
Proof. unfold upsert. intros Hu. repeat case_match; simplify_eq; done. Qed.

Lemma progress_reported ok d n d' :
  progress jobID ok d n = (true, d') ->
  exists jobs, persistence.UpdateProgress (batch_jobs d) jobID n 0 = Ok jobs /\
               d' = with_jobs d jobs.
Proof. unfold progress. intros Hp. repeat case_match; simplify_eq; eauto. Qed.

Lemma progress_unreported ok d n d' : progress jobID ok d n = (false, d') -> d' = d.
Proof. unfold progress. intros Hp. repeat case_match; simplify_eq; done. Qed.

(** The store changes at a flush whose bulk write succeeds, and nowhere
    else. *)
Lemma step_store s e s' :
  step s e s' ->
  match e with
  | EFlush batch true _ =>
      NoDup (summary_ids batch) /\
      variant_cost_summaries (database s')
      = persistence.upserted (variant_cost_summaries (database s)) batch
  | _ => variant_cost_summaries (database s') = variant_cost_summaries (database s)
  end.
Proof.
  intros Hs. step_inv Hs; simpl; try done;
    repeat match goal with
    | Hp : progress _ _ _ _ = (true, _) |- _ =>
        apply progress_reported in Hp as (? & _ & ->)
    | Hp : progress _ _ _ _ = (false, _) |- _ => apply progress_unreported in Hp as ->
    | Hu : upsert _ _ _ = (true, _) |- _ => apply upsert_written in Hu as (? & ->)
    | Hu : upsert _ _ _ = (false, _) |- _ => apply upsert_dropped in Hu as ->
    | b : bool |- _ => destruct b
    end; simpl; done.
Qed.

(** The registry changes at a flush that reports, by the size of the
    batch, and at the completion of the job, and nowhere else. *)
Lemma step_jobs s e s' :
  step s e s' ->
  match e with
  | EFlush batch _ (Some true) =>
      persistence.UpdateProgress (batch_jobs (database s)) jobID
        (Z.of_nat (length batch)) 0 = Ok (batch_jobs (database s'))
  | EComplete true =>
      exists now,
        batch_jobs (database s') = persistence.Complete (batch_jobs (database s)) jobID now
  | _ => batch_jobs (database s') = batch_jobs (database s)
  end.
Proof.
  intros Hs. step_inv Hs; simpl; try done; eauto;
    repeat match goal with
    | Hu : upsert _ _ _ = (true, _) |- _ => apply upsert_written in Hu as (? & ->)
    | Hu : upsert _ _ _ = (false, _) |- _ => apply upsert_dropped in Hu as ->
    | Hp : progress _ _ _ _ = (true, _) |- _ =>
        apply progress_reported in Hp as (? & ? & ->)
    | Hp : progress _ _ _ _ = (false, _) |- _ => apply progress_unreported in Hp as ->
    | b : bool |- _ => destruct b
    end; simpl; done.
Qed.


Lemma written_flushed tr : written tr ⊆ flushed tr.
Proof.
  induction tr as [|e tr IH]; [done|].
  change (e :: tr) with ([e] ++ tr). unfold written, flushed in *.
  rewrite !flat_map_app. intros sm [Hin|Hin]%elem_of_app; apply elem_of_app.
  - left. destruct e as [vs| | |w|w|w sm'|sm'|i| |sm'|b wr pr| |p f|ok]; simpl in *;
      try (by apply elem_of_nil in Hin).
    destruct wr; [done|by apply elem_of_nil in Hin].
  - right. by apply IH.
Qed.

Lemma calculated_ids_NoDup tr s :
  NoDup (db.id <$> yarn_variants d0) -> good tr s ->
  NoDup (counted_failed tr ++ summary_ids (calculated tr)).
Proof.
  intros Hkey Hi. rewrite <- (visited_split _ (inv_events Hi)).
  by eapply visited_NoDup.
Qed.

Lemma flushed_ids_NoDup tr s :
  NoDup (db.id <$> yarn_variants d0) -> good tr s ->
  NoDup (summary_ids (in_flight s) ++ summary_ids (flushed tr)).
Proof.
  intros Hkey Hi. apply (calculated_ids_NoDup _ _ Hkey) in Hi as Hnd.
  apply NoDup_app in Hnd as (_ & _ & Hnd).
  unfold summary_ids in *. rewrite <- fmap_app.
  by rewrite <- (inv_flow Hi).
Qed.

(** The store holds every summary of a flush whose bulk write succeeded, and
    is as it was before the job for every other variant. *)
Lemma store_inv tr s :
  NoDup (db.id <$> yarn_variants d0) ->
  exec s0 tr s ->
  (forall sm, sm ∈ written tr ->
     variant_cost_summaries (database s) !! VariantCostSummary.YarnVariantID sm = Some sm) /\
  (forall id, id ∉ summary_ids (written tr) ->
     variant_cost_summaries (database s) !! id = variant_cost_summaries d0 !! id).
Proof.
  intros Hkey. induction 1 as [|tr s e s' Hex [IHw IHo] Hs].
  - split; [|done]. intros sm Hsm. by apply elem_of_nil in Hsm.
  - assert (Hi : good (tr ++ [e]) s') by (apply exec_inv; by econstructor).
    apply (flushed_ids_NoDup _ _ Hkey) in Hi. apply NoDup_app in Hi as (_ & _ & Hnd).
    apply step_store in Hs. revert Hnd. trace_snoc.
    destruct e as [vs| | |w|w|w sm'|sm'|i| |sm'|b wr pr| |p f|ok]; simpl; rewrite ?app_nil_r;
      try (rewrite Hs; by split).
    destruct wr; simpl; rewrite ?app_nil_r; [|rewrite Hs; by split].
    destruct Hs as [Hb ->]. unfold summary_ids. rewrite !fmap_app.
    intros (_ & Hdisj & _)%NoDup_app. split.
    + intros sm [Hin|Hin]%elem_of_app.
      * rewrite upserted_notin; [by apply IHw|].
        apply Hdisj, list_elem_of_fmap_2. by apply written_flushed.
      * by apply upserted_in.
    + intros id [Hid1 Hid2]%not_elem_of_app.
      rewrite upserted_notin by done. by apply IHo.
Qed.

(** The samples of the progress reporter never decrease. *)
Lemma samples_inv tr s :
  exec s0 tr s ->
  Forall (fun p => p <= processedCount s) (samples tr) /\ StronglySorted Z.le (samples tr).
Proof.
  induction 1 as [|tr s e s' Hex [IHb IHs] Hs]; [split; constructor|].
  assert (Hex' : exec s0 (tr ++ [e]) s') by (by econstructor).
  destruct (counters _ _ Hex) as [_ Hp], (counters _ _ Hex') as [_ Hp'].
  assert (Hle : processedCount s <= processedCount s').
  { rewrite Hp, Hp'. trace_snoc. rewrite length_app. lia. }
  assert (He : samples [e] = [] \/ samples [e] = [processedCount s]).
  { step_inv Hs; simpl; auto. }
  assert (Hb : Forall (fun p => p <= processedCount s') (samples tr)).
  { eapply Forall_impl; [exact IHb|]. simpl. intros; lia. }
  rewrite samples_snoc. destruct He as [->| ->]; [by rewrite app_nil_r|].
  split.
  - apply Forall_app. split; [done|]. by repeat constructor.
  - apply StronglySorted_app. split; [|split; [done|by repeat constructor]].
    intros p q Hp1 ->%list_elem_of_singleton.
    by eapply (proj1 (Forall_forall _ _) IHb).
Qed.
End Invariants.

(** ** Schedules are executions *)

Section Runs.
Context `{ExprEngine}.
Variable wp : WorkerPool.
Variable jobID : uuid.
Variable baseParams : Params.

Abbreviation step := (step wp jobID baseParams).
Abbreviation exec := (exec wp jobID baseParams).
Abbreviation run := (run wp jobID baseParams).

Lemma exec_cons s e s1 tr s2 : step s e s1 -> exec s1 tr s2 -> exec s (e :: tr) s2.
Proof.
  intros Hs. induction 1 as [|tr s2 e' s3 _ IH Hs'].
  - change [e] with ([] ++ [e]). econstructor; [constructor|done].
  - rewrite app_comm_cons. by econstructor.
Qed.

Lemma run_exec chs s tr s' : run chs s = Some (tr, s') -> exec s tr s'.
Proof.
  revert s tr s'. induction chs as [|ch chs IH]; intros s tr s' Hr; simpl in Hr.
  - simplify_eq. constructor.
  - destruct (step_fun wp jobID baseParams ch s) as [[e s1]|] eqn:Hs; [|done].
    destruct (run chs s1) as [[tr1 s2]|] eqn:Hr1; [|done]. simplify_eq.
    eapply exec_cons; [by exists ch|by apply IH].
Qed.

Lemma run_exec_of chs s : exec s (trace_of (run chs s)) (state_of (run chs s) s).
Proof.
  destruct (run chs s) as [[tr s']|] eqn:Hr; simpl; [by eapply run_exec|constructor].
Qed.
End Runs.

(** ** The outcome of a visited variant *)

(** C1, as it is stated, fails: when the bulk write of a flush fails, the
    batch is logged and dropped.  Here the one variant of the catalog is
    visited, its flush fails, and the job ends with no summary in the store
    and a failure counter of zero. *)
Lemma dropped_batch_is_neither :
  let r := demo_run false in
  visited (trace_of r) = [5%N] /\
  collector (state_of r demo_s0) = CReturned /\
  main (state_of r demo_s0) = MReturned None /\
  variant_cost_summaries (database (state_of r demo_s0)) !! 5%N = None /\
  failedCount (state_of r demo_s0) = 0 /\
  counted_failed (trace_of r) = [].
Proof. vm_compute. repeat split. Qed.

(** C1, amended.  For every variant visited during a job, exactly one of two
    outcomes occurs, never both and, once the collector has returned, never
    neither: the failure counter is incremented for it, or its summary is
    flushed by the batch writer.  The failure counter is the number of
    variants counted failed.  A flushed summary is in the store when the bulk
    write of its flush succeeded; when it failed the variant's row in the
    store is left as it was, and the failure counter is not incremented. *)
Theorem visited_variant_outcome :
  forall (E : ExprEngine) (wp : WorkerPool) (jobID : uuid) (baseParams : Params)
         (cache : Cache) (d0 : Database) (tr : list Event) (s : State),
    NoDup (db.id <$> yarn_variants d0) ->
    Z.of_nat (length (yarn_variants d0)) < 2 ^ 63 ->
    exec wp jobID baseParams (spawn wp cache d0) tr s ->
    (forall id, id ∈ counted_failed tr -> id ∉ summary_ids (calculated tr)) /\
    (forall id, id ∈ visited tr ->
       id ∈ counted_failed tr \/ id ∈ summary_ids (calculated tr)) /\
    failedCount s = Z.of_nat (length (counted_failed tr)) /\
    (collector s = CReturned -> calculated tr ≡ₚ flushed tr) /\
    (forall sm, sm ∈ written tr ->
       variant_cost_summaries (database s) !! VariantCostSummary.YarnVariantID sm = Some sm) /\
    (forall id, id ∉ summary_ids (written tr) ->
       variant_cost_summaries (database s) !! id = variant_cost_summaries d0 !! id).
Proof.
  intros E wp jobID P cache d0 tr s Hkey Hsize Hex.
  assert (Hi : inv wp P cache d0 tr s) by (by eapply exec_inv).
  assert (Hnd : NoDup (counted_failed tr ++ summary_ids (calculated tr)))
    by (eapply calculated_ids_NoDup; eauto).
  assert (Hsplit : visited tr ≡ₚ counted_failed tr ++ summary_ids (calculated tr))
    by (eapply visited_split, (inv_events Hi)).
  destruct (store_inv wp jobID P cache d0 tr s Hkey Hex) as [Hw Ho].
  repeat split.
  - intros id Hf Hc. apply NoDup_app in Hnd as (_ & Hd & _). by apply (Hd id).
  - intros id Hv. rewrite Hsplit in Hv. by apply elem_of_app in Hv.
  - by destruct (counters wp jobID P cache d0 Hsize tr s Hex).
  - intros Hc. destruct (inv_life Hi) as [Hws Hcr]. destruct (Hcr Hc) as [Hrc Hm].
    rewrite (inv_flow Hi). unfold in_flight.
    by rewrite (held_returned _ (Hws Hm)), Hrc, Hc.
  - exact Hw.
  - exact Ho.
Qed.

Lemma visited_variant_outcome_witness :
  let r := demo_run true in
  NoDup (db.id <$> yarn_variants (database demo_s0)) /\
  Z.of_nat (length (yarn_variants (database demo_s0))) < 2 ^ 63 /\
  failedCount (state_of r demo_s0) = Z.of_nat (length (counted_failed (trace_of r))).
Proof.
  intros r. split; [compute_done|].
  split; [vm_compute; reflexivity|].
  refine (proj1 (proj2 (proj2
    (visited_variant_outcome exprlang.engine demo_wp 77%N scenario_a_bag demo_cache
       (database demo_s0) (trace_of r) (state_of r demo_s0) _ _ _)))).
  - compute_done.
  - vm_compute. reflexivity.
  - apply (run_exec_of demo_wp 77%N scenario_a_bag).
Defined.

(** ** The accounting of a flush *)

Lemma update_progress_row jobs id n jobs' j :
  persistence.UpdateProgress jobs id n 0 = Ok jobs' ->
  jobs !! id = Some j ->
  exists j', jobs' !! id = Some j' /\
    BatchJob.ProcessedRecords j' = BatchJob.ProcessedRecords j + n /\
    BatchJob.FailedRecords j' = BatchJob.FailedRecords j /\
    BatchJob.Status j' = BatchJob.Status j.
Proof.
  unfold persistence.UpdateProgress. intros Hu Hj. rewrite Hj in Hu.
  case_match; simplify_eq. eexists. rewrite lookup_insert_eq. split; [done|].
  simpl. repeat split; lia.
Qed.

Lemma update_progress_no_row jobs id n jobs' :
  persistence.UpdateProgress jobs id n 0 = Ok jobs' -> jobs !! id = None -> jobs' = jobs.
Proof. unfold persistence.UpdateProgress. intros Hu Hj. rewrite Hj in Hu. by simplify_eq. Qed.

Lemma complete_row jobs id now :
  persistence.Complete jobs id now !! id
  = persistence.finish JobStatusCompleted None now <$> jobs !! id.
Proof. unfold persistence.Complete. by rewrite lookup_alter_eq. Qed.

(** C2, as it is stated, fails: the count of a flush is added whether the
    bulk write succeeded or not.  Here the only flush fails, nothing is in
    the store, and the processed counter is 1 in process and in the registry. *)
Lemma failed_flush_is_counted :
  let r := @run exprlang.engine demo_wp 77%N scenario_a_bag
             (take 5 (demo_schedule false)) demo_s0 in
  written (trace_of r) = [] /\
  length (flushed (trace_of r)) = 1%nat /\
  variant_cost_summaries (database (state_of r demo_s0)) !! 5%N = None /\
  processedCount (state_of r demo_s0) = 1 /\
  job_processed 77%N (state_of r demo_s0) = 1.
Proof. vm_compute. repeat split. Qed.

(** What the code does at the flush of the remaining buffer: with room for
    two summaries in a batch, the one summary of the catalog is flushed when
    the result queue closes; the counter in process becomes 1, the registry
    stays at 0. *)
Lemma final_flush_is_not_reported :
  let r := @run exprlang.engine {| workerCount := 1; batchSize := 2 |} 77%N scenario_a_bag
             (demo_schedule true)
             (spawn {| workerCount := 1; batchSize := 2 |} demo_cache (database demo_s0)) in
  length (written (trace_of r)) = 1%nat /\
  processedCount (state_of r demo_s0) = 1 /\
  job_processed 77%N (state_of r demo_s0) = 0.
Proof. vm_compute. repeat split. Qed.

(** C2, amended.  At every flush of the collector, the final one included and
    whether or not the bulk write succeeded, the size of the batch is added
    to the processed counter in process; at a flush that reports to the job
    registry (one made when the buffer reaches the batch size, its update
    succeeding) it is added to [processed_records] of the job's row as well.
    The bulk write puts the batch in the store when it succeeds and leaves
    the store alone when it fails.  No other step of the pipeline changes the
    counter in process or [processed_records]. *)
Theorem flush_accounting :
  forall (E : ExprEngine) (wp : WorkerPool) (jobID : uuid) (baseParams : Params)
         (cache : Cache) (d0 : Database) (tr : list Event) (s : State)
         (e : Event) (s' : State),
    Z.of_nat (length (yarn_variants d0)) < 2 ^ 63 ->
    exec wp jobID baseParams (spawn wp cache d0) tr s ->
    step wp jobID baseParams s e s' ->
    match e with
    | EFlush batch wr pr =>
        processedCount s' = processedCount s + Z.of_nat (length batch) /\
        variant_cost_summaries (database s')
        = (if wr then persistence.upserted (variant_cost_summaries (database s)) batch
           else variant_cost_summaries (database s)) /\
        (pr = Some true ->
         forall j, batch_jobs (database s) !! jobID = Some j ->
           job_processed jobID s' = job_processed jobID s + Z.of_nat (length batch)) /\
        (pr = Some false -> batch_jobs (database s') = batch_jobs (database s))
    | _ =>
        processedCount s' = processedCount s /\
        job_processed jobID s' = job_processed jobID s
    end.
Proof.
  intros E wp jobID P cache d0 tr s e s' Hsize Hex Hs.
  assert (Hex' : exec wp jobID P (spawn wp cache d0) (tr ++ [e]) s')
    by (by econstructor).
  destruct (counters wp jobID P cache d0 Hsize _ _ Hex) as [_ Hp].
  destruct (counters wp jobID P cache d0 Hsize _ _ Hex') as [_ Hp'].
  pose proof (step_store _ _ _ _ _ _ Hs) as Hst.
  pose proof (step_jobs _ _ _ _ _ _ Hs) as Hj.
  rewrite flushed_snoc, length_app in Hp'. unfold job_processed.
  destruct e as [vs| | |w|w|w sm'|sm'|i| |sm'|b wr pr| |p f|ok]; simpl in *;
    rewrite ?Nat.add_0_r in Hp'; try (split; [congruence|by rewrite Hj]).
  - rewrite app_nil_r in Hp'. split; [lia|]. split.
    + destruct wr; [by destruct Hst|done].
    + split.
      * intros -> j Hrow.
        destruct (update_progress_row _ _ _ _ _ Hj Hrow) as (j' & -> & Hpr & _).
        rewrite Hrow. simpl. done.
      * by intros ->.
  - split; [congruence|]. destruct ok; [|by rewrite Hj].
    destruct Hj as [now ->]. rewrite complete_row.
    by destruct (batch_jobs (database s) !! jobID).
Qed.

Lemma flush_accounting_witness :
  let r := @run exprlang.engine demo_wp 77%N scenario_a_bag
             (take 4 (demo_schedule true)) demo_s0 in
  Z.of_nat (length (yarn_variants (database demo_s0))) < 2 ^ 63 /\
  (exists e s', step_fun demo_wp 77%N scenario_a_bag (ChCollect true true)
                  (state_of r demo_s0) = Some (e, s') /\
     processedCount s' = 1 /\ job_processed 77%N s' = 1).
Proof.
  intros r. split; [vm_compute; reflexivity|].
  destruct (step_fun demo_wp 77%N scenario_a_bag (ChCollect true true) (state_of r demo_s0))
    as [[e s']|] eqn:Hstep; [|by vm_compute in Hstep].
  exists e, s'. split; [done|].
  assert (Hs : step demo_wp 77%N scenario_a_bag (state_of r demo_s0) e s')
    by (by exists (ChCollect true true)).
  pose proof (flush_accounting exprlang.engine demo_wp 77%N scenario_a_bag demo_cache
                (database demo_s0) (trace_of r) (state_of r demo_s0) e s'
                ltac:(vm_compute; reflexivity)
                (run_exec_of demo_wp 77%N scenario_a_bag _ demo_s0) Hs) as Hacc.
  vm_compute in Hstep. injection Hstep as <- <-.
  destruct Hacc as (Hp & _ & Hj & _). split.
  - rewrite Hp. vm_compute. reflexivity.
  - erewrite Hj; [vm_compute; reflexivity|reflexivity|vm_compute; reflexivity].
Defined.

(** ** The version hash of a job *)

Lemma version_hash_independent (E E' : ExprEngine) now id S now' id' S' P :
  VariantCostSummary.VersionHash (@CalculateVariantFast E now id S P)
  = VariantCostSummary.VersionHash (@CalculateVariantFast E' now' id' S' P).
Proof. reflexivity. Qed.

Section Emitted.
Context `{ExprEngine}.
Variable wp : WorkerPool.
Variable jobID : uuid.
Variable baseParams : Params.
Variable cache : Cache.
Variable d0 : Database.

(** Every summary of a trace was calculated from the cached steps of its
    variant's routing and the base parameters. *)
Lemma calculated_by_handle tr sm :
  Forall (event_sound baseParams cache) tr ->
  sm ∈ calculated tr ->
  exists now work, handle baseParams cache now work = Some sm.
Proof.
  induction 1 as [|e tr He _ IH]; [by intros ?%elem_of_nil|].
  change (e :: tr) with ([e] ++ tr). unfold calculated in *. rewrite flat_map_app.
  intros [Hin|Hin]%elem_of_app; [|by apply IH].
  destruct e; simpl in Hin; try (by apply elem_of_nil in Hin).
  apply list_elem_of_singleton in Hin as ->. destruct He as [now Hh]. eauto.
Qed.

Lemma flushed_calculated tr s :
  inv wp baseParams cache d0 tr s -> flushed tr ⊆ calculated tr.
Proof.
  intros Hi sm Hsm. rewrite (inv_flow Hi). apply elem_of_app. by right.
Qed.

Lemma emitted_by_handle tr s sm :
  exec wp jobID baseParams (spawn wp cache d0) tr s ->
  sm ∈ calculated tr ++ flushed tr ->
  exists now work steps,
    cache !! variantWork.RoutingID work = Some steps /\ steps <> [] /\
    sm = CalculateVariantFast now (variantWork.ID work) steps baseParams.
Proof.
  intros Hex Hsm. assert (Hi : inv wp baseParams cache d0 tr s) by (by eapply exec_inv).
  assert (Hc : sm ∈ calculated tr).
  { apply elem_of_app in Hsm as [?|?]; [done|]. by eapply flushed_calculated. }
  destruct (calculated_by_handle _ _ (inv_events Hi) Hc) as (now & w & Hh).
  apply handle_some in Hh as (st & sts & Hl & ->). by exists now, w, (st :: sts).
Qed.
End Emitted.

(** C4, as it is stated, fails on a bag that JSON cannot hold: the error of
    [json.Marshal] is dropped and the hash is taken of no bytes at all.  With
    the bag [{a: +Inf}] the version hash is the SHA-256 of the empty string,
    not that of the canonical JSON of the bag. *)
Lemma version_hash_of_infinity :
  let P : Params := <["a" := VFloat64 infinity]> ∅ in
  let s := @CalculateVariantFast exprlang.engine 0 1%N [] P in
  json.Marshal P = Err "json: unsupported value: +Inf" /\
  VariantCostSummary.VersionHash s
  = "e3b0c44298fc1c149afbf4c8996fb92427ae41e4649b934ca495991b7852b855" /\
  spec.version_hash P
  = "14f675f3655f5477cee751a53cd29f4da1fdf447fb739ef6f72090da81fb5171" /\
  String.eqb (VariantCostSummary.VersionHash s) (spec.version_hash P) = false.
Proof. vm_compute. repeat split. Qed.

(** C4, amended.  For every base parameter bag [P] that has a JSON
    serialization (no NaN and no infinity among its numbers), the version
    hash of a summary is the lowercase hexadecimal SHA-256 of the canonical
    JSON of [P]; for a bag that has none it is the SHA-256 of the empty byte
    string.  In both cases the hash is a function of [P] alone: it does not
    depend on the variant, its steps, the clock or the engine, so two runs
    with the same bag give the same hashes, and every summary calculated or
    flushed in a job carries the one hash of the job's bag. *)
Theorem version_hash_of_bag :
  forall (E : ExprEngine) (now : Z) (id : uuid) (S : list ProcessStep) (P : Params),
    let h := VariantCostSummary.VersionHash (CalculateVariantFast now id S P) in
    (map_Forall (fun _ v => spec.encodable v = true) P -> h = spec.version_hash P) /\
    (~ map_Forall (fun _ v => spec.encodable v = true) P ->
       h = hex.EncodeToString (sha256.Sum256 [])) /\
    (forall (E' : ExprEngine) now' id' S',
       VariantCostSummary.VersionHash (@CalculateVariantFast E' now' id' S' P) = h) /\
    (forall wp jobID cache d0 tr s,
       exec wp jobID P (spawn wp cache d0) tr s ->
       Forall (fun sm => VariantCostSummary.VersionHash sm = h)
              (calculated tr ++ flushed tr)).
Proof.
  intros E now id S P h. subst h. split; [apply version_hash_encodable|].
  split; [apply version_hash_not_encodable|].
  split; [intros; apply version_hash_independent|].
  intros wp jobID cache d0 tr s Hex. apply Forall_forall. intros sm Hsm.
  destruct (emitted_by_handle _ _ _ _ _ _ _ _ Hex Hsm) as (now' & w & steps & _ & _ & ->).
  apply version_hash_independent.
Qed.

Lemma version_hash_of_bag_witness :
  map_Forall (fun _ v => spec.encodable v = true) scenario_a_bag /\
  VariantCostSummary.VersionHash
    (@CalculateVariantFast exprlang.engine 0 1%N scenario_a_steps scenario_a_bag)
  = spec.version_hash scenario_a_bag.
Proof.
  assert (Hb : map_Forall (fun _ v => spec.encodable v = true) scenario_a_bag).
  { apply map_Forall_insert_2; [reflexivity|].
    apply map_Forall_insert_2; [reflexivity|]. apply map_Forall_empty. }
  split; [exact Hb|].
  exact (proj1 (version_hash_of_bag exprlang.engine 0 1%N scenario_a_steps scenario_a_bag) Hb).
Defined.

(** ** The failure policy *)

Lemma process_cost_error_step `{ExprEngine} now id S1 step S2 P msg :
  formula.Evaluate (ProcessStep.FormulaExpression step) P = Err msg ->
  VariantCostSummary.TotalProcessCost (CalculateVariantFast now id (S1 ++ step :: S2) P)
  = fold_left (fun total st => (total + step_cost P st)%float) S2
      (VariantCostSummary.TotalProcessCost (CalculateVariantFast now id S1 P) + 0)%float.
Proof.
  intros He. unfold CalculateVariantFast. cbn [VariantCostSummary.TotalProcessCost].
  rewrite fold_left_app. simpl. by rewrite (step_cost_error _ _ _ He).
Qed.

Lemma handle_absent `{ExprEngine} P cache now w :
  routing_absent cache w <-> handle P cache now w = None.
Proof. symmetry. apply handle_none. Qed.

Lemma handle_present `{ExprEngine} P cache now w :
  ~ routing_absent cache w ->
  exists steps, cache !! variantWork.RoutingID w = Some steps /\ steps <> [] /\
    handle P cache now w
    = Some (CalculateVariantFast now (variantWork.ID w) steps P).
Proof.
  unfold routing_absent, handle. intros Hn.
  destruct (cache !! variantWork.RoutingID w) as [[|st sts]|]; [tauto| |tauto].
  by exists (st :: sts).
Qed.

Lemma events_follow_cache `{ExprEngine} P cache tr :
  Forall (event_sound P cache) tr ->
  Forall (fun e => match e with
                   | EFailed w => routing_absent cache w
                   | ECalculated w sm =>
                       ~ routing_absent cache w /\
                       VariantCostSummary.YarnVariantID sm = variantWork.ID w
                   | _ => True
                   end) tr.
Proof.
  intros Hs. eapply Forall_impl; [exact Hs|]. intros e He.
  destruct e; simpl in *; try done.
  - apply (proj2 (handle_absent P cache 0 work)). apply He.
  - destruct He as [now Hh]. split; [|eapply handle_id; eauto].
    intros Ha. apply (proj1 (handle_absent P cache now work)) in Ha. congruence.
Qed.



(** ** The progress counters *)

Lemma start_spawn wp jobID d count_fail ids_fail steps_fail status_ok s0 :
  start wp jobID d count_fail ids_fail steps_fail status_ok = Ok s0 ->
  exists cache jobs,
    s0 = spawn wp cache (with_jobs d jobs) /\
    loadRoutingStepsCache d ids_fail steps_fail = Ok cache /\
    (jobs = batch_jobs d \/
     jobs = persistence.UpdateStatus (batch_jobs d) jobID JobStatusRunning 0 0).
Proof.
  unfold start. intros Hs. repeat case_match; simplify_eq; eauto 10.
Qed.

Lemma update_status_row jobs id status processed failed :
  persistence.UpdateStatus jobs id status processed failed !! id
  = persistence.set_status status processed failed <$> jobs !! id.
Proof. unfold persistence.UpdateStatus. by rewrite lookup_alter_eq. Qed.

Lemma step_registry `{ExprEngine} wp jobID P s e s' :
  step wp jobID P s e s' ->
  (exists delta, 0 <= delta /\ job_processed jobID s' = job_processed jobID s + delta) /\
  job_failed jobID s' = job_failed jobID s.
Proof.
  intros Hs. apply step_jobs in Hs. unfold job_processed, job_failed.
  assert (Hsame : batch_jobs (database s') = batch_jobs (database s) ->
    (exists delta, 0 <= delta /\
       from_option BatchJob.ProcessedRecords 0 (batch_jobs (database s') !! jobID)
       = from_option BatchJob.ProcessedRecords 0 (batch_jobs (database s) !! jobID) + delta) /\
    from_option BatchJob.FailedRecords 0 (batch_jobs (database s') !! jobID)
    = from_option BatchJob.FailedRecords 0 (batch_jobs (database s) !! jobID)).
  { intros ->. split; [exists 0; lia|done]. }
  destruct e as [vs| | |w|w|w sm'|sm'|i| |sm'|b wr pr| |p f|ok]; try (by apply Hsame).
  - destruct pr as [[|]|]; try (by apply Hsame).
    destruct (batch_jobs (database s) !! jobID) as [j|] eqn:Hrow.
    + destruct (update_progress_row _ _ _ _ _ Hs Hrow) as (j' & -> & Hp & Hf & _).
      simpl. split; [|done]. exists (Z.of_nat (length b)). lia.
    + rewrite (update_progress_no_row _ _ _ _ Hs Hrow), Hrow.
      split; [exists 0; lia|done].
  - destruct ok; [|by apply Hsame]. destruct Hs as [now ->].
    rewrite complete_row. destruct (batch_jobs (database s) !! jobID); simpl;
      (split; [exists 0; lia|done]).
Qed.

Lemma exec_registry `{ExprEngine} wp jobID P s tr s' :
  exec wp jobID P s tr s' ->
  job_processed jobID s <= job_processed jobID s' /\
  job_failed jobID s' = job_failed jobID s.
Proof.
  induction 1 as [|tr s1 e s2 Hex [IHp IHf] Hs]; [by split; [lia|]|].
  destruct (step_registry _ _ _ _ _ _ Hs) as [(delta & Hd & Hp) Hf].
  split; [lia|congruence].
Qed.

(** C9, as it is stated, fails: before the goroutines start the run writes
    the counters of the row, and that write is absolute.  Here a first run of
    the job reports its one variant and is left pending, the registry being
    out of reach when the job is marked running and when it is marked
    complete; the row has one processed record.  The worker binary takes a
    pending job up again, and the second run sets the counter to zero. *)
Lemma second_run_resets_progress :
  let s1 := state_of interrupted_run interrupted_s0 in
  start demo_wp 77%N demo_db false false (fun _ => false) false = Ok interrupted_s0 /\
  main s1 = MReturned (Some "failed to complete job") /\
  job_status (batch_jobs (database s1)) 77%N = Some JobStatusPending /\
  job_processed 77%N s1 = 1 /\
  match start demo_wp 77%N (database s1) false false (fun _ => false) true with
  | Ok s2 => job_processed 77%N s2 = 0
  | Err _ => False
  end.
Proof. vm_compute. repeat split. Qed.

(** C9, amended.  When a run starts, the update that marks the job running
    writes zero to both counters of the row, whatever they were; when that
    update fails the row is as before.  The counters in process start at
    zero.  From then on every step of the pipeline changes the counters by
    adding a delta that is not negative: the processed and the failed counter
    in process, and [processed_records] of the row; [failed_records] of the
    row is left alone.  Between any two moments of the run after its start
    [processed_records] does not decrease, and the samples that the progress
    reporter takes of the processed counter form a sequence that never
    decreases. *)
Theorem progress_after_start :
  forall (E : ExprEngine) (wp : WorkerPool) (jobID : uuid) (baseParams : Params)
         (d : Database) (count_fail ids_fail : bool) (steps_fail : uuid -> bool)
         (status_ok : bool) (s0 : State),
    Z.of_nat (length (yarn_variants d)) < 2 ^ 63 ->
    start wp jobID d count_fail ids_fail steps_fail status_ok = Ok s0 ->
    job_processed jobID s0
    = (if status_ok then 0
       else from_option BatchJob.ProcessedRecords 0 (batch_jobs d !! jobID)) /\
    job_failed jobID s0
    = (if status_ok then 0
       else from_option BatchJob.FailedRecords 0 (batch_jobs d !! jobID)) /\
    processedCount s0 = 0 /\ failedCount s0 = 0 /\
    (forall tr s e s',
       exec wp jobID baseParams s0 tr s ->
       step wp jobID baseParams s e s' ->
       (exists delta, 0 <= delta /\ processedCount s' = processedCount s + delta) /\
       (exists delta, 0 <= delta /\ failedCount s' = failedCount s + delta) /\
       (exists delta, 0 <= delta /\ job_processed jobID s' = job_processed jobID s + delta) /\
       job_failed jobID s' = job_failed jobID s /\
       StronglySorted Z.le (samples (tr ++ [e]))) /\
    (forall tr s tr' s',
       exec wp jobID baseParams s0 tr s ->
       exec wp jobID baseParams s tr' s' ->
       job_processed jobID s <= job_processed jobID s' /\
       job_failed jobID s' = job_failed jobID s).
Proof.
  intros E wp jobID P d cf idf sf ok s0 Hsize Hstart.
  assert (Hs0 : exists cache,
            s0 = spawn wp cache
                   (with_jobs d
                      (if ok
                       then persistence.UpdateStatus (batch_jobs d) jobID JobStatusRunning 0 0
                       else batch_jobs d))).
  { unfold start in Hstart. destruct cf; [done|].
    destruct (loadRoutingStepsCache d idf sf) as [cache|]; [|done].
    exists cache. by injection Hstart as <-. }
  destruct Hs0 as [cache ->].
  split.
  { unfold job_processed. simpl. destruct ok; [|done].
    rewrite update_status_row. by destruct (batch_jobs d !! jobID). }
  split.
  { unfold job_failed. simpl. destruct ok; [|done].
    rewrite update_status_row. by destruct (batch_jobs d !! jobID). }
  split; [done|]. split; [done|]. split.
  - intros tr s e s' Hex Hs.
    set (d0 := with_jobs d _) in *.
    assert (Hex' : exec wp jobID P (spawn wp cache d0) (tr ++ [e]) s')
      by (by econstructor).
    assert (Hsize' : Z.of_nat (length (yarn_variants d0)) < 2 ^ 63) by done.
    destruct (counters wp jobID P cache _ Hsize' _ _ Hex) as [Hf Hp].
    destruct (counters wp jobID P cache _ Hsize' _ _ Hex') as [Hf' Hp'].
    destruct (step_registry _ _ _ _ _ _ Hs) as [Hjp Hjf].
    rewrite counted_failed_snoc, length_app in Hf'.
    rewrite flushed_snoc, length_app in Hp'.
    split; [exists (Z.of_nat (length (flushed [e]))); lia|].
    split; [exists (Z.of_nat (length (counted_failed [e]))); lia|].
    split; [done|]. split; [done|].
    by destruct (samples_inv wp jobID P cache _ Hsize' _ _ Hex').
  - intros tr s tr' s' _ Hex. by eapply exec_registry.
Qed.

Lemma progress_after_start_witness :
  let r := @run exprlang.engine demo_wp 77%N scenario_a_bag
             (take 4 (demo_schedule true)) demo_s0 in
  Z.of_nat (length (yarn_variants demo_db)) < 2 ^ 63 /\
  start demo_wp 77%N demo_db false false (fun _ => false) true = Ok demo_s0 /\
  job_processed 77%N demo_s0 = 0 /\
  (exists e s', step_fun demo_wp 77%N scenario_a_bag (ChCollect true true)
                  (state_of r demo_s0) = Some (e, s') /\
     exists delta, 0 <= delta /\ processedCount s' = processedCount (state_of r demo_s0) + delta).
Proof.
  intros r.
  assert (Hsize : Z.of_nat (length (yarn_variants demo_db)) < 2 ^ 63)
    by (vm_compute; reflexivity).
  assert (Hstart : start demo_wp 77%N demo_db false false (fun _ => false) true = Ok demo_s0)
    by (vm_compute; reflexivity).
  destruct (progress_after_start exprlang.engine demo_wp 77%N scenario_a_bag demo_db
              false false (fun _ => false) true demo_s0 Hsize Hstart)
    as (Hp0 & _ & _ & _ & Hsteps & _).
  split; [exact Hsize|]. split; [exact Hstart|].
  split; [exact Hp0|].
  destruct (step_fun demo_wp 77%N scenario_a_bag (ChCollect true true) (state_of r demo_s0))
    as [[e s']|] eqn:Hstep; [|by vm_compute in Hstep].
  exists e, s'. split; [done|].
  eapply Hsteps; [apply (run_exec_of demo_wp 77%N scenario_a_bag)|by exists (ChCollect true true)].
Defined.

(** ** The job registry *)

(** C6, as it is stated, fails: the registry has no guard on the status a job
    is in.  A completed job is marked failed by [Fail], and running by
    [UpdateStatus]. *)
Lemma terminal_status_is_overwritten :
  let jobs : gmap uuid BatchJob :=
    {[ 77%N := persistence.finish JobStatusCompleted None 200 (new_job 77%N 0) ]} in
  job_status jobs 77%N = Some JobStatusCompleted /\
  spec.terminal JobStatusCompleted = true /\
  job_status (persistence.Fail jobs 77%N "boom" 300) 77%N = Some JobStatusFailed /\
  job_status (persistence.UpdateStatus jobs 77%N JobStatusRunning 0 0) 77%N
  = Some JobStatusRunning.
Proof. vm_compute. repeat split. Qed.

(** C6, amended.  The operations of the job registry write the status
    whatever status the job is in, a terminal one included: update-status
    sets the status it is given, mark-complete sets completed, mark-failed
    sets failed.  Only the additive update of the counters leaves the status
    as it is. *)
Theorem registry_overwrites_status :
  forall (jobs : gmap uuid BatchJob) (id : uuid) (job : BatchJob) (status : JobStatus)
         (processed failed : Z) (msg : string) (now : Z),
    jobs !! id = Some job ->
    job_status (persistence.UpdateStatus jobs id status processed failed) id = Some status /\
    job_status (persistence.Complete jobs id now) id = Some JobStatusCompleted /\
    job_status (persistence.Fail jobs id msg now) id = Some JobStatusFailed /\
    (forall jobs', persistence.UpdateProgress jobs id processed failed = Ok jobs' ->
       job_status jobs' id = Some (BatchJob.Status job)).
Proof.
  intros jobs id job status processed failed msg now Hj. unfold job_status.
  split; [by rewrite update_status_row, Hj|].
  split; [by rewrite complete_row, Hj|].
  split.
  { unfold persistence.Fail. by rewrite lookup_alter_eq, Hj. }
  intros jobs'. unfold persistence.UpdateProgress. rewrite Hj.
  case_match; intros [= <-]. by rewrite lookup_insert_eq.
Qed.

Lemma registry_overwrites_status_witness :
  let jobs : gmap uuid BatchJob :=
    {[ 77%N := persistence.finish JobStatusFailed (Some "boom") 200 (new_job 77%N 0) ]} in
  jobs !! 77%N = Some (persistence.finish JobStatusFailed (Some "boom") 200 (new_job 77%N 0)) /\
  job_status (persistence.Complete jobs 77%N 300) 77%N = Some JobStatusCompleted.
Proof.
  intros jobs. split; [reflexivity|].
  exact (proj1 (proj2 (registry_overwrites_status jobs 77%N _ JobStatusRunning 0 0
                         EmptyString 300 eq_refl))).
Defined.

(** ** The routing-step cache *)

Lemma load_lookup (d : Database) (steps_fail : uuid -> bool) (ids : list uuid)
    (cache0 : Cache) (r : uuid) :
  fold_left
    (fun (cache : Cache) routingID =>
       if steps_fail routingID then cache
       else <[routingID := persistence.GetByRoutingID d routingID]> cache)
    ids cache0 !! r
  = if decide (r ∈ ids /\ steps_fail r = false)
    then Some (persistence.GetByRoutingID d r)
    else cache0 !! r.
Proof.
  revert cache0. induction ids as [|i ids IH]; intros cache0; simpl.
  - destruct (decide (r ∈ [] /\ steps_fail r = false)) as [[Hin _]|];
      [by apply elem_of_nil in Hin|done].
  - rewrite IH. destruct (decide (r = i)) as [->|Hne].
    + destruct (steps_fail i) eqn:Hf.
      * rewrite !decide_False; [done| |]; intros [_ ?]; congruence.
      * rewrite lookup_insert_eq, (decide_True _ _ (conj (list_elem_of_here i ids) eq_refl)).
        by destruct (decide _).
    + assert (Hlook : (if steps_fail i then cache0
                       else <[i := persistence.GetByRoutingID d i]> cache0) !! r
                      = cache0 !! r).
      { destruct (steps_fail i); [done|]. by rewrite lookup_insert_ne. }
      rewrite Hlook.
      destruct (decide (r ∈ ids /\ steps_fail r = false)) as [[Hin Hf]|Hn].
      * by rewrite decide_True by (split; [by apply list_elem_of_further|done]).
      * rewrite decide_False; [done|]. intros [[?|?]%elem_of_cons ?]; [done|]. by apply Hn.
Qed.

#[global] Instance by_sequence_total : Total persistence.by_sequence.
Proof. intros a b. unfold persistence.by_sequence. lia. Qed.

#[global] Instance by_id_total : Total persistence.by_id.
Proof. intros a b. unfold persistence.by_id. lia. Qed.

#[global] Instance by_id_trans : Transitive persistence.by_id.
Proof. intros a b c. unfold persistence.by_id. lia. Qed.

(** C7, as it is stated, fails: the routing identifiers are read from every
    variant, active or not.  Here routing 9 is referenced by an inactive
    variant only, and is in the cache. *)
Lemma cache_holds_inactive_routing :
  match loadRoutingStepsCache inactive_db false (fun _ => false) with
  | Ok cache =>
      cache !! 9%N = Some [] /\ cache !! 1%N = Some scenario_a_steps /\
      spec.active_routing_ids inactive_db = [1%N]
  | Err _ => False
  end.
Proof. vm_compute. repeat split. Qed.

(** C7, amended.  At the start of each job the cache is populated by reading
    the distinct routing identifiers referenced by any variant, active or
    not (NULL apart), and, for each of them whose step query succeeds,
    loading its step list ordered by [sequence_order] into the mapping from
    routing identifier to step list; a routing whose step query fails is left
    out.  The routings of the active variants are among those read.  After
    this phase no step of the pipeline changes the cache. *)
Theorem routing_cache_contents :
  forall (d : Database) (steps_fail : uuid -> bool),
  exists cache,
    loadRoutingStepsCache d false steps_fail = Ok cache /\
    (forall r,
       cache !! r
       = if decide (r ∈ omap db.routing_template_id (yarn_variants d) /\ steps_fail r = false)
         then Some (persistence.GetByRoutingID d r)
         else None) /\
    (forall r,
       Sorted persistence.by_sequence (persistence.GetByRoutingID d r) /\
       persistence.GetByRoutingID d r
       ≡ₚ filter (fun s => ProcessStep.RoutingTemplateID s = r) (process_steps d)) /\
    spec.active_routing_ids d ⊆ omap db.routing_template_id (yarn_variants d) /\
    (forall (E : ExprEngine) wp jobID baseParams d' tr s,
       exec wp jobID baseParams (spawn wp cache d') tr s -> routingStepsCache s = cache).
Proof.
  intros d steps_fail. eexists. split; [reflexivity|].
  split.
  { intros r. rewrite load_lookup, lookup_empty.
    unfold persistence.ListUniqueRoutingIDs.
    apply decide_ext. by rewrite elem_of_remove_dups. }
  split.
  { intros r. split; [apply Sorted_merge_sort, _|apply merge_sort_Permutation]. }
  split.
  { unfold spec.active_routing_ids. intros r (x & Hx & Hr)%list_elem_of_omap.
    apply list_elem_of_omap. exists x. split; [|done].
    by apply list_elem_of_filter in Hx as [_ ?]. }
  intros E wp jobID P d' tr s Hex. by destruct (exec_frame _ _ _ _ _ _ _ Hex).
Qed.

Lemma routing_cache_contents_witness :
  exists cache,
    loadRoutingStepsCache inactive_db false (fun _ => false) = Ok cache /\
    routingStepsCache
      (state_of (@run exprlang.engine demo_wp 77%N scenario_a_bag (demo_schedule true)
                   (spawn demo_wp cache inactive_db))
                (spawn demo_wp cache inactive_db)) = cache.
Proof.
  destruct (routing_cache_contents inactive_db (fun _ => false))
    as (cache & Hload & _ & _ & _ & Hro).
  exists cache. split; [exact Hload|].
  eapply (Hro exprlang.engine). apply run_exec_of.
Defined.

(** ** The paging reader *)

Lemma pages_of_concat {A} fuel batch (l : list A) :
  (0 < batch)%nat -> (length l < fuel)%nat -> concat (pages_of fuel batch l) = l.
Proof.
  intros Hb. revert l. induction fuel as [|fuel IH]; intros l Hl; [lia|].
  destruct l as [|x l]; [done|].
  change (pages_of (S fuel) batch (x :: l))
    with (take batch (x :: l) :: pages_of fuel batch (drop batch (x :: l))).
  simpl concat. rewrite IH; [apply take_drop|].
  rewrite length_drop. simpl in *. lia.
Qed.

Lemma pages_of_lookup {A} fuel batch (l : list A) k p :
  (0 < batch)%nat -> (length l < fuel)%nat ->
  pages_of fuel batch l !! k = Some p ->
  p = take batch (drop (k * batch) l) /\ p <> [].
Proof.
  intros Hb. revert l k. induction fuel as [|fuel IH]; intros l k Hl Hk; [lia|].
  destruct l as [|x l]; [done|].
  change (pages_of (S fuel) batch (x :: l))
    with (take batch (x :: l) :: pages_of fuel batch (drop batch (x :: l))) in Hk.
  destruct k as [|k].
  - simpl in Hk. injection Hk as <-. split; [done|]. destruct batch; [lia|done].
  - simpl in Hk. apply IH in Hk as [-> Hne].
    + split; [|done]. by rewrite drop_drop.
    + rewrite length_drop. simpl in *. lia.
Qed.

Lemma reader_pages_of fuel d batch offset :
  (0 < batch)%nat ->
  (length (drop offset (persistence.active_variants d)) < fuel)%nat ->
  reader fuel d batch offset
  = Some (pages_of fuel batch (drop offset (persistence.active_variants d))).
Proof.
  intros Hb. revert offset. induction fuel as [|fuel IH]; intros offset Hl; [lia|].
  simpl reader. unfold persistence.ListWithRouting.
  destruct (drop offset (persistence.active_variants d)) as [|x l] eqn:Hd.
  - by rewrite take_nil.
  - destruct batch as [|b]; [lia|]. rewrite firstn_cons.
    assert (Hdrop : drop (offset + length (x :: take b l)) (persistence.active_variants d)
                    = drop (S b) (x :: l)).
    { rewrite <- drop_drop, Hd. simpl. rewrite length_take.
      destruct (decide (b <= length l)%nat).
      - by rewrite Nat.min_l by lia.
      - rewrite Nat.min_r by lia. by rewrite !drop_ge by lia. }
    change (S (length (take b l))) with (length (x :: take b l)).
    rewrite IH; rewrite Hdrop; [done|].
    simpl. rewrite length_drop. simpl in Hl. lia.
Qed.

Lemma sorted_ids_strict (l : list db.yarn_variant) :
  StronglySorted persistence.by_id l -> NoDup (db.id <$> l) ->
  StronglySorted (fun a b => (db.id a < db.id b)%N) l.
Proof.
  induction 1 as [|x l Hs IH Hx]; intros Hnd; [constructor|].
  rewrite fmap_cons in Hnd. apply NoDup_cons in Hnd as [Hfresh Hnd].
  constructor; [by apply IH|].
  apply Forall_forall. intros y Hy.
  pose proof (proj1 (Forall_forall _ _) Hx y Hy) as Hle. unfold persistence.by_id in Hle.
  assert (db.id x <> db.id y).
  { intros Heq. apply Hfresh. rewrite Heq. by apply list_elem_of_fmap_2. }
  lia.
Qed.

Lemma active_variants_sorted d :
  NoDup (db.id <$> yarn_variants d) ->
  StronglySorted (fun a b => (YarnVariant.ID a < YarnVariant.ID b)%N)
                 (persistence.active_variants d).
Proof.
  intros Hkey. unfold persistence.active_variants.
  apply (StronglySorted_fmap persistence.scan_variant
           (fun a b => (db.id a < db.id b)%N)); [by intros ???|].
  apply sorted_ids_strict; [apply StronglySorted_merge_sort; apply _|].
  rewrite (fmap_Permutation _ _ _ (merge_sort_Permutation _ _)).
  eapply sublist_NoDup; [exact Hkey|]. apply (fmap_sublist db.id), sublist_filter.
Qed.



(** * More of the pipeline

    ** When [RecalculateAll] returns *)

Section Completion.
Context `{ExprEngine}.
Variable wp : WorkerPool.
Variable jobID : uuid.
Variable baseParams : Params.
Variable cache : Cache.
Variable d0 : Database.

Abbreviation step := (step wp jobID baseParams).
Abbreviation exec := (exec wp jobID baseParams).
Abbreviation s0 := (spawn wp cache d0).
Abbreviation all := (work_of <$> persistence.active_variants d0).

(** A worker returns only once the reader has, and the work queue is
    empty; from then on both stay so. *)
Lemma drain_inv tr s :
  exec s0 tr s ->
  (exists i, workers s !! i = Some WReturned) ->
  dispatcher s = DReturned /\ workChan s = [].
Proof.
  induction 1 as [|tr s e s' Hex IH Hs].
  - intros [i Hi]. simpl in Hi. apply lookup_replicate in Hi as [? _]. done.
  - intros [j Hj]. step_inv Hs; simpl in *; try (by apply IH; exists j).
    all: try (match goal with Hi : workers _ !! ?i = Some _ |- _ =>
      pose proof (lookup_lt_Some _ _ _ Hi) as Hlt;
      destruct (decide (j = i)) as [->|Hne];
      [ rewrite list_lookup_insert_eq in Hj by done; simplify_eq
      | rewrite list_lookup_insert_ne in Hj by done ] end).
    all: try (destruct IH as [Hd Hw]; [by exists j|]; congruence).
    all: try done.
    all: apply IH; by exists j.
Qed.

Lemma returned_collector tr s r :
  exec s0 tr s -> main s = MReturned r -> collector s = CReturned.
Proof.
  induction 1 as [|tr s e s' Hex IH Hs]; [done|].
  intros Hm. step_inv Hs; simpl in *; try done; try (by apply IH); by specialize (IH Hm).
Qed.





Lemma stop_inv tr s :
  (0 < batchSize wp)%nat ->
  exec s0 tr s ->
  dispatcher s = DReturned -> cut_short tr \/ dispatched tr = all.
Proof.
  intros Hb. induction 1 as [|tr s e s' Hex IH Hs]; [done|].
  intros Hd.
  pose proof (inv_reader (exec_inv _ _ _ _ _ _ _ Hex)) as Hr.
  pose proof (active_frame _ _ _ _ _ _ _ Hex) as Hact.
  unfold cut_short. setoid_rewrite elem_of_app. setoid_rewrite list_elem_of_singleton.
  unfold reader_inv in Hr.
  step_inv Hs; simpl in *; trace_snoc; try done; try congruence.
  all: try (destruct IH as [[?|?]|?]; [done|by left; left; left|by left; right; left|by right]).
  all: try (by left; left; right).
  all: try (by left; right; right).
  right. rewrite Hr.
  match goal with Hl : persistence.ListWithRouting _ _ _ = [] |- _ =>
    unfold persistence.ListWithRouting in Hl; rewrite Hact in Hl;
    apply (f_equal length) in Hl; rewrite length_take, length_drop in Hl end.
  simpl in *. rewrite take_ge; [done|]. rewrite length_fmap. lia.
Qed.
End Completion.

Section Returned.
Context `{ExprEngine}.
Variable wp : WorkerPool.
Variable jobID : uuid.
Variable baseParams : Params.
Variable cache : Cache.
Variable d0 : Database.

Abbreviation exec := (exec wp jobID baseParams).
Abbreviation s0 := (spawn wp cache d0).

Lemma returned_state tr s r :
  (0 < workerCount wp)%nat ->
  exec s0 tr s -> main s = MReturned r ->
  dispatcher s = DReturned /\ workChan s = [] /\ resultChan s = [] /\
  collector s = CReturned /\ Forall (fun w => w = WReturned) (workers s) /\
  in_flight s = [] /\ dispatched tr = received tr.
Proof.
  intros Hw Hex Hm.
  pose proof (returned_collector _ _ _ _ _ _ _ _ Hex Hm) as Hc.
  pose proof (exec_inv _ _ _ _ _ _ _ Hex) as Hi.
  destruct (inv_life Hi) as [Hl1 Hl2].
  destruct (Hl2 Hc) as [Hrc Hmw]. specialize (Hl1 Hmw).
  destruct (exec_frame _ _ _ _ _ _ _ Hex) as (_ & _ & _ & Hlen).
  destruct (workers s) as [|w ws] eqn:Hws; [simpl in Hlen; lia|].
  assert (w = WReturned) as -> by (by inversion Hl1).
  destruct (drain_inv _ _ _ _ _ _ _ Hex) as [Hd Hwc]; [exists 0%nat; by rewrite Hws|].
  rewrite <- Hws in *.
  repeat split; try done.
  - unfold in_flight. rewrite Hrc, Hc. simpl. rewrite app_nil_r.
    clear -Hl1. induction Hl1 as [|? ? -> ? IH]; [done|]. done.
  - pose proof (inv_queue Hi) as Hq. unfold queue_inv in Hq. by rewrite Hq, Hwc, app_nil_r.
Qed.
End Returned.

(** When [RecalculateAll] returns, every goroutine but the progress
    reporter has come to its end and both queues are empty; the two
    counters add up to the number of variants the reader put on the work
    queue, which is the number of active variants unless the reader was cut
    short. *)
Theorem returned_job_accounting :
  forall (E : ExprEngine) (wp : WorkerPool) (jobID : uuid) (baseParams : Params)
         (cache : Cache) (d0 : Database) (tr : list Event) (s : State) (r : option string),
    (0 < workerCount wp)%nat ->
    (0 < batchSize wp)%nat ->
    Z.of_nat (length (yarn_variants d0)) < 2 ^ 63 ->
    exec wp jobID baseParams (spawn wp cache d0) tr s ->
    main s = MReturned r ->
    dispatcher s = DReturned /\ workChan s = [] /\ resultChan s = [] /\
    collector s = CReturned /\ Forall (fun w => w = WReturned) (workers s) /\
    processedCount s + failedCount s = Z.of_nat (length (dispatched tr)) /\
    (~ cut_short tr ->
     processedCount s + failedCount s
     = Z.of_nat (length (persistence.active_variants d0))).
Proof.
  intros E wp jobID P cache d0 tr s r Hw Hb Hsize Hex Hm.
  destruct (returned_state _ _ _ _ _ _ _ _ Hw Hex Hm) as (Hd & Hwc & Hrc & Hc & Hws & Hfl & Hq).
  pose proof (exec_inv _ _ _ _ _ _ _ Hex) as Hi.
  pose proof Hex as Hcnt. apply counters in Hcnt as [Hf Hp]; [|done].
  assert (Hlen : processedCount s + failedCount s = Z.of_nat (length (dispatched tr))).
  { rewrite Hf, Hp, Hq.
    pose proof (visited_split _ _ _ (inv_events Hi)) as Hv.
    rewrite visited_received in Hv. apply Permutation_length in Hv.
    pose proof (inv_flow Hi) as Hfl'. unfold flow_inv in Hfl'. rewrite Hfl in Hfl'.
    apply Permutation_length in Hfl'. simpl in Hfl'.
    rewrite length_fmap, length_app in Hv. unfold summary_ids in Hv.
    rewrite length_fmap in Hv. lia. }
  repeat split; try done.
  intros Hcut. rewrite Hlen.
  destruct (stop_inv _ _ _ _ _ _ _ Hb Hex Hd) as [?|Hall]; [done|].
  by rewrite Hall, length_fmap.
Qed.

Lemma all_written_flushed tr : all_written tr -> written tr = flushed tr.
Proof.
  unfold all_written. induction tr as [|e tr IH]; intros Hall; [done|].
  assert (Htl : written tr = flushed tr).
  { apply IH. intros b p Hin. apply (Hall b p). by right. }
  destruct e as [vs| | |w|w|w sm'|sm'|i| |sm'|b wr pr| |p f|ok]; simpl; try done.
  destruct wr; [by rewrite Htl|]. exfalso. apply (Hall b pr). by left.
Qed.

Lemma received_event tr w :
  w ∈ received tr -> EFailed w ∈ tr \/ exists sm, ECalculated w sm ∈ tr.
Proof.
  induction tr as [|e tr IH]; simpl; [by intros ?%elem_of_nil|].
  rewrite elem_of_app. intros [Hin|Hin].
  - destruct e; simpl in Hin; try (by apply elem_of_nil in Hin);
      apply list_elem_of_singleton in Hin as ->; [left|right; eexists]; by left.
  - destruct (IH Hin) as [?|[sm ?]]; [left|right; exists sm]; by right.
Qed.

(** The job as a whole.  When [RecalculateAll] returns, the reader was not
    cut short and every bulk write succeeded, the store holds, for every
    active variant whose routing has steps in the cache, the summary that
    [CalculateVariantFast] gives for these steps and the job's bag; every
    other active variant was counted failed, and its row in the store is as
    it was before the job. *)
Theorem completed_job_store :
  forall (E : ExprEngine) (wp : WorkerPool) (jobID : uuid) (baseParams : Params)
         (cache : Cache) (d0 : Database) (tr : list Event) (s : State) (r : option string),
    (0 < workerCount wp)%nat ->
    (0 < batchSize wp)%nat ->
    NoDup (db.id <$> yarn_variants d0) ->
    Z.of_nat (length (yarn_variants d0)) < 2 ^ 63 ->
    exec wp jobID baseParams (spawn wp cache d0) tr s ->
    main s = MReturned r ->
    ~ cut_short tr ->
    all_written tr ->
    forall v, v ∈ persistence.active_variants d0 ->
      (routing_absent cache (work_of v) ->
       YarnVariant.ID v ∈ counted_failed tr /\
       variant_cost_summaries (database s) !! YarnVariant.ID v
       = variant_cost_summaries d0 !! YarnVariant.ID v) /\
      (~ routing_absent cache (work_of v) ->
       exists now steps,
         cache !! YarnVariant.RoutingTemplateID v = Some steps /\
         variant_cost_summaries (database s) !! YarnVariant.ID v
         = Some (CalculateVariantFast now (YarnVariant.ID v) steps baseParams)).
Proof.
  intros E wp jobID P cache d0 tr s r Hw Hb Hnd Hsize Hex Hm Hcut Hall v Hv.
  destruct (returned_state _ _ _ _ _ _ _ _ Hw Hex Hm) as (Hd & _ & _ & _ & _ & Hfl & Hq).
  pose proof (exec_inv _ _ _ _ _ _ _ Hex) as Hi.
  destruct (stop_inv _ _ _ _ _ _ _ Hb Hex Hd) as [?|Hdis]; [done|].
  pose proof Hex as Hst. apply store_inv in Hst as [Hin Hout]; [|done].
  pose proof (inv_flow Hi) as Hflow. unfold flow_inv in Hflow.
  rewrite Hfl in Hflow. simpl in Hflow.
  rewrite (all_written_flushed _ Hall) in Hin, Hout.
  assert (Hrec : work_of v ∈ received tr).
  { rewrite <- Hq, Hdis. by apply list_elem_of_fmap_2. }
  pose proof (inv_events Hi) as Hev. rewrite Forall_forall in Hev.
  apply received_event in Hrec as [Hf|[sm Hc]].
  - specialize (Hev _ Hf). simpl in Hev.
    assert (Habs : routing_absent cache (work_of v)).
    { apply (handle_none P cache 0). apply Hev. }
    split; [|done]. intros _.
    assert (Hcf : YarnVariant.ID v ∈ counted_failed tr).
    { unfold counted_failed. apply list_elem_of_In, in_flat_map.
      exists (EFailed (work_of v)). split; [by apply list_elem_of_In|by left]. }
    split; [done|]. apply Hout. intros Hin'.
    pose proof (calculated_ids_NoDup _ _ _ _ _ _ Hnd Hi) as Hnd'.
    apply NoDup_app in Hnd' as (_ & Hdisj & _).
    apply (Hdisj _ Hcf). unfold summary_ids in *. by rewrite Hflow.
  - specialize (Hev _ Hc). simpl in Hev. destruct Hev as [now Hh].
    pose proof (handle_id _ _ _ _ _ Hh) as Hid.
    apply handle_some in Hh as (st & sts & Hl & ->).
    split.
    { intros [Hn|Hn]; simpl in *; congruence. }
    intros _. exists now, (st :: sts). split; [done|].
    assert (Hcal : CalculateVariantFast now (variantWork.ID (work_of v)) (st :: sts) P
                   ∈ calculated tr).
    { unfold calculated. apply list_elem_of_In, in_flat_map.
      eexists. split; [by apply list_elem_of_In|by left]. }
    rewrite Hflow in Hcal. apply Hin in Hcal. exact Hcal.
Qed.

Ltac not_in_trace H :=
  repeat (apply elem_of_cons in H as [H|H]; [discriminate H|]);
  by apply elem_of_nil in H.

Lemma returned_job_accounting_witness :
  let r := demo_run true in
  main (state_of r demo_s0) = MReturned None /\
  processedCount (state_of r demo_s0) + failedCount (state_of r demo_s0) = 1.
Proof.
  intros r. split; [vm_compute; reflexivity|].
  refine (proj1 (proj2 (proj2 (proj2 (proj2 (proj2
    (returned_job_accounting exprlang.engine demo_wp 77%N scenario_a_bag demo_cache
       (database demo_s0) (trace_of r) (state_of r demo_s0) None _ _ _ _ _))))))).
  - vm_compute. lia.
  - vm_compute. lia.
  - vm_compute. reflexivity.
  - apply (run_exec_of demo_wp 77%N scenario_a_bag).
  - vm_compute. reflexivity.
Defined.

Lemma completed_job_store_witness :
  let r := demo_run true in
  let v := {| YarnVariant.ID := 5%N; YarnVariant.RoutingTemplateID := 1%N |} in
  exists now steps,
    demo_cache !! YarnVariant.RoutingTemplateID v = Some steps /\
    variant_cost_summaries (database (state_of r demo_s0)) !! YarnVariant.ID v
    = Some (@CalculateVariantFast exprlang.engine now (YarnVariant.ID v) steps
              scenario_a_bag).
Proof.
  intros r v.
  refine (proj2
    (completed_job_store exprlang.engine demo_wp 77%N scenario_a_bag demo_cache
       (database demo_s0) (trace_of r) (state_of r demo_s0) None _ _ _ _ _ _ _ _ v _) _).
  - vm_compute. lia.
  - vm_compute. lia.
  - compute_done.
  - vm_compute. reflexivity.
  - apply (run_exec_of demo_wp 77%N scenario_a_bag).
  - vm_compute. reflexivity.
  - intros [Hc|Hc]; vm_compute in Hc; not_in_trace Hc.
  - intros b p Hin. vm_compute in Hin. not_in_trace Hin.
  - vm_compute. by left.
  - intros [Hc|Hc]; vm_compute in Hc; done.
Defined.

(** ** The job's status during a run *)

Lemma update_progress_status jobs id n f jobs' :
  persistence.UpdateProgress jobs id n f = Ok jobs' ->
  job_status jobs' id = job_status jobs id.
Proof.
  unfold persistence.UpdateProgress, job_status. intros Hu.
  destruct (jobs !! id) as [j|] eqn:Hj; [|by simplify_eq; rewrite Hj].
  case_match; simplify_eq. by rewrite lookup_insert_eq.
Qed.

Section RunStatus.
Context `{ExprEngine}.
Variable wp : WorkerPool.
Variable jobID : uuid.
Variable baseParams : Params.

Lemma run_returns s0 tr s :
  exec wp jobID baseParams s0 tr s ->
  main s0 = MWaitWorkers ->
  (main s = MReturned None <-> EComplete true ∈ tr) /\
  ((exists msg, main s = MReturned (Some msg)) <-> EComplete false ∈ tr).
Proof.
  intros Hex Hm0. induction Hex as [|tr s e s' Hex [IH1 IH2] Hs].
  - rewrite Hm0. split; split; try done.
    + by intros ?%elem_of_nil.
    + by intros [? ?].
    + by intros ?%elem_of_nil.
  - setoid_rewrite elem_of_app. setoid_rewrite list_elem_of_singleton.
    step_inv Hs; simpl in *;
      repeat match goal with Hm : main _ = _ |- _ => rewrite Hm in * end.
    all: split; split.
    all: try (intros Hm; first [by left; apply IH1 | by right | done]).
    all: try (intros [msg Hm]; first [by left; apply IH2; exists msg | by right | done]).
    all: try (intros [Hin|Heq];
              first [ by apply IH1 | by apply IH2 | done | by eexists
                    | by apply IH1 in Hin | by apply IH2 in Hin as [? ?] ]).
Qed.

Lemma run_status s0 tr s :
  exec wp jobID baseParams s0 tr s ->
  main s0 = MWaitWorkers ->
  job_status (batch_jobs (database s)) jobID
  = match main s with
    | MReturned None =>
        (fun _ => JobStatusCompleted) <$> job_status (batch_jobs (database s0)) jobID
    | _ => job_status (batch_jobs (database s0)) jobID
    end.
Proof.
  intros Hex Hm0. induction Hex as [|tr s e s' Hex IH Hs].
  - by rewrite Hm0.
  - pose proof (step_jobs _ _ _ _ _ _ Hs) as Hj.
    step_inv Hs; simpl in *;
      repeat match goal with Hm : main _ = _ |- _ => rewrite Hm in * end;
      try rewrite Hj; try done.
    all: try (by erewrite update_progress_status by done).
    destruct Hj as [now' ->]. unfold job_status. rewrite complete_row.
    unfold job_status in IH. rewrite <- IH.
    by destruct (batch_jobs (database s) !! jobID).
Qed.
End RunStatus.

(** Once the goroutines are started, [RecalculateAll] returns an error only
    when marking the job complete fails, and the job's status is written
    only when marking it complete succeeds: a failed page query, a
    cancellation or a failed bulk write neither make the call fail nor
    change the status. *)
Theorem job_status_during_run :
  forall (E : ExprEngine) (wp : WorkerPool) (jobID : uuid) (baseParams : Params)
         (cache : Cache) (d0 : Database) (tr : list Event) (s : State),
    exec wp jobID baseParams (spawn wp cache d0) tr s ->
    (main s = MReturned None <-> EComplete true ∈ tr) /\
    ((exists msg, main s = MReturned (Some msg)) <-> EComplete false ∈ tr) /\
    job_status (batch_jobs (database s)) jobID
    = match main s with
      | MReturned None => (fun _ => JobStatusCompleted) <$> job_status (batch_jobs d0) jobID
      | _ => job_status (batch_jobs d0) jobID
      end.
Proof.
  intros E wp jobID P cache d0 tr s Hex.
  destruct (run_returns _ _ _ _ _ _ Hex eq_refl) as [H1 H2].
  split; [done|]. split; [done|]. by apply (run_status _ _ _ _ _ _ Hex).
Qed.

Lemma job_status_during_run_witness :
  let r := demo_run true in
  job_status (batch_jobs (database (state_of r demo_s0))) 77%N = Some JobStatusCompleted.
Proof.
  intros r.
  destruct (job_status_during_run exprlang.engine demo_wp 77%N scenario_a_bag demo_cache
              (database demo_s0) (trace_of r) (state_of r demo_s0)) as (_ & _ & Hst).
  - apply (run_exec_of demo_wp 77%N scenario_a_bag).
  - rewrite Hst. vm_compute. reflexivity.
Defined.

(** ** Progress and termination *)

Lemma forallb_false_lookup {A} (f : A -> bool) (l : list A) :
  forallb f l = false -> exists i x, l !! i = Some x /\ f x = false.
Proof.
  induction l as [|a l IH]; simpl; [done|].
  destruct (f a) eqn:Hf; simpl.
  - intros (i & x & Hi & Hx)%IH. by exists (S i), x.
  - intros _. by exists 0%nat, a.
Qed.

(** The pipeline cannot deadlock: as long as [RecalculateAll] has not
    returned, some goroutine other than the progress reporter can take its
    next step, with no help from a cancellation or a failing database
    call. *)
Theorem pipeline_never_deadlocks :
  forall (E : ExprEngine) (wp : WorkerPool) (jobID : uuid) (baseParams : Params)
         (cache : Cache) (d0 : Database) (tr : list Event) (s : State),
    (0 < batchSize wp)%nat ->
    exec wp jobID baseParams (spawn wp cache d0) tr s ->
    (exists r, main s = MReturned r) \/
    (exists ch, productive ch = true /\ is_Some (step_fun wp jobID baseParams ch s)).
Proof.
  intros E wp jobID P cache d0 tr s Hb Hex.
  pose proof (exec_inv _ _ _ _ _ _ _ Hex) as Hi.
  destruct (inv_life Hi) as [Hl1 Hl2].
  pose proof (inv_reader Hi) as Hr. unfold reader_inv in Hr.
  assert (Hcap : (0 < capacity wp)%nat) by (unfold capacity; lia).
  destruct (main s) as [| |r] eqn:Hm; [| |left; by exists r]; right.
  - destruct (forallb worker_returned (workers s)) eqn:Hall.
    { exists ChCloseResults. split; [done|]. simpl. unfold main_close. by rewrite Hm, Hall. }
    apply forallb_false_lookup in Hall as (i & w & Hw & Hret).
    destruct w as [|sm|]; [| |done].
    + destruct (workChan s) as [|work rest] eqn:Hwc.
      * destruct (dispatcher s) as [offset|variants j offset|] eqn:Hd.
        -- exists (ChList true). split; [done|]. simpl. unfold dispatcher_list.
           rewrite Hd. by destruct (persistence.ListWithRouting _ _ _).
        -- exists ChSend. split; [done|]. simpl. unfold dispatcher_send. rewrite Hd.
           destruct Hr as (_ & Hj & _). apply lookup_lt_is_Some in Hj as [v ->].
           rewrite Hwc. simpl. by rewrite decide_True by done.
        -- exists (ChWorkerDone i). split; [done|]. simpl. unfold worker_done.
           by rewrite Hw, Hwc, Hd.
      * exists (ChReceive i 0). split; [done|]. simpl. unfold worker_receive.
        rewrite Hw, Hwc. by destruct (handle _ _ _ _).
    + destruct (decide (length (resultChan s) < capacity wp)%nat) as [Hlt|Hge].
      * exists (ChResult i). split; [done|]. simpl. unfold worker_result.
        rewrite Hw. by rewrite decide_True by done.
      * exists (ChCollect true true). split; [done|]. simpl. unfold collector_receive.
        destruct (collector s) as [buffer|] eqn:Hc; [|by destruct (Hl2 eq_refl)].
        destruct (resultChan s) as [|sm' rest]; [simpl in Hge; lia|].
        case_decide; [|done].
        destruct (upsert _ _ _), (progress _ _ _ _). done.
  - destruct (collector s) as [buffer|] eqn:Hc.
    + destruct (resultChan s) as [|sm' rest] eqn:Hrc.
      * exists (ChCollectorDone true). split; [done|]. simpl. unfold collector_done.
        rewrite Hc, Hrc. unfold results_closed. rewrite Hm.
        destruct buffer; [done|]. by destruct (upsert _ _ _).
      * exists (ChCollect true true). split; [done|]. simpl. unfold collector_receive.
        rewrite Hc, Hrc. case_decide; [|done].
        destruct (upsert _ _ _), (progress _ _ _ _). done.
    + exists (ChComplete true 0). split; [done|]. simpl. unfold main_complete.
      by rewrite Hm, Hc.
Qed.

Lemma pipeline_never_deadlocks_witness :
  let r := @run exprlang.engine demo_wp 77%N scenario_a_bag (take 3 (demo_schedule true))
             demo_s0 in
  exists ch, productive ch = true /\
    is_Some (@step_fun exprlang.engine demo_wp 77%N scenario_a_bag ch (state_of r demo_s0)).
Proof.
  intros r.
  destruct (pipeline_never_deadlocks exprlang.engine demo_wp 77%N scenario_a_bag demo_cache
              (database demo_s0) (trace_of r) (state_of r demo_s0)) as [[res Hres]|Hch].
  - vm_compute. lia.
  - apply (run_exec_of demo_wp 77%N scenario_a_bag).
  - vm_compute in Hres. discriminate Hres.
  - exact Hch.
Defined.

Lemma worker_weight_insert ws i w w' :
  ws !! i = Some w ->
  (sum_list (worker_weight <$> <[i := w']> ws) + worker_weight w
   = sum_list (worker_weight <$> ws) + worker_weight w')%nat.
Proof.
  revert i. induction ws as [|a ws IH]; intros [|i] Hi; simplify_eq/=; [lia|].
  specialize (IH _ Hi). lia.
Qed.

Lemma worker_weight_replicate n :
  sum_list (worker_weight <$> replicate n WReceive) = n.
Proof. induction n as [|n IH]; simpl; [done|]. by f_equal. Qed.

(** Every run is finite: each step other than a tick of the progress
    reporter uses up some of a budget that the number of active variants
    and of workers fixes at the start. *)
Theorem pipeline_terminates :
  forall (E : ExprEngine) (wp : WorkerPool) (jobID : uuid) (baseParams : Params)
         (cache : Cache) (d0 : Database) (tr : list Event) (s : State),
    exec wp jobID baseParams (spawn wp cache d0) tr s ->
    let active := length (persistence.active_variants d0) in
    (length (List.filter non_tick tr) + remaining active s
     <= 6 * active + workerCount wp + 5)%nat /\
    (forall e s', step wp jobID baseParams s e s' ->
       non_tick e = true -> (remaining active s' < remaining active s)%nat).
Proof.
  intros E wp jobID P cache d0 tr s Hex active.
  assert (Hstep : forall tr s e s',
            exec wp jobID P (spawn wp cache d0) tr s ->
            step wp jobID P s e s' ->
            non_tick e = true -> (remaining active s' < remaining active s)%nat).
  { clear. intros tr s e s' Hex Hs Hnt.
    pose proof (inv_reader (exec_inv _ _ _ _ _ _ _ Hex)) as Hr.
    pose proof (active_frame _ _ _ _ _ _ _ Hex) as Hact.
    unfold reader_inv in Hr.
    step_inv Hs; unfold remaining; simpl in *;
      repeat match goal with
      | Hm : main _ = _ |- _ => rewrite Hm
      | Hc : collector _ = _ |- _ => rewrite Hc
      | Hd : dispatcher _ = _ |- _ => rewrite Hd
      | Hw : workChan _ = _ |- _ => rewrite Hw
      | Hq : resultChan _ = _ |- _ => rewrite Hq
      end;
      rewrite ?length_app; simpl; try done; try lia.
    all: try (match goal with Hi : workers _ !! _ = Some _ |- _ =>
           pose proof (worker_weight_insert _ _ _ WReceive Hi);
           pose proof (worker_weight_insert _ _ _ WReturned Hi);
           try (match goal with sm : VariantCostSummary |- _ =>
                  pose proof (worker_weight_insert _ _ _ (WSend sm) Hi) end)
         end; simpl in *; lia).
    all: destruct Hr as (Hvs & Hlt & _);
      apply (f_equal length) in Hvs; rewrite length_take, length_drop in Hvs;
      subst active; lia. }
  split; [|intros e s' Hs Hnt; by eapply Hstep].
  revert s Hex.
  intros s. induction 1 as [|tr s e s' Hex IH Hs].
  - unfold remaining. simpl. rewrite worker_weight_replicate. lia.
  - rewrite List.filter_app, length_app. simpl.
    destruct (non_tick e) eqn:Hnt; simpl.
    + pose proof (Hstep _ _ _ _ Hex Hs Hnt). lia.
    + destruct e; try done. step_inv Hs. lia.
Qed.

Lemma pipeline_terminates_witness :
  let r := demo_run true in
  (length (List.filter non_tick (trace_of r)) + remaining 1 (state_of r demo_s0) <= 12)%nat.
Proof.
  intros r.
  exact (proj1 (pipeline_terminates exprlang.engine demo_wp 77%N scenario_a_bag demo_cache
                  (database demo_s0) (trace_of r) (state_of r demo_s0)
                  (run_exec_of demo_wp 77%N scenario_a_bag _ _))).
Defined.

(** ** Bounds *)

Lemma held_length ws : (length (held ws) <= length ws)%nat.
Proof. induction ws as [|[|sm|] ws IH]; simpl; lia. Qed.

(** What the pipeline holds in memory is bounded by its configuration: no
    queue exceeds its capacity of twice the batch size, the collector's
    buffer stays below the batch size, and each worker holds at most one
    summary; a flush writes exactly a batch, but for the last one, which
    writes what remains. *)
Theorem pipeline_bounds :
  forall (E : ExprEngine) (wp : WorkerPool) (jobID : uuid) (baseParams : Params)
         (cache : Cache) (d0 : Database) (tr : list Event) (s : State),
    (0 < batchSize wp)%nat ->
    exec wp jobID baseParams (spawn wp cache d0) tr s ->
    (length (workChan s) <= 2 * batchSize wp)%nat /\
    (length (resultChan s) <= 2 * batchSize wp)%nat /\
    (length (buffered (collector s)) < batchSize wp)%nat /\
    (length (in_flight s) < workerCount wp + 3 * batchSize wp)%nat /\
    Forall (flush_sized (batchSize wp)) tr.
Proof.
  intros E wp jobID P cache d0 tr s Hb Hex.
  assert (Hinv : (length (workChan s) <= 2 * batchSize wp)%nat /\
                 (length (resultChan s) <= 2 * batchSize wp)%nat /\
                 (length (buffered (collector s)) < batchSize wp)%nat /\
                 Forall (flush_sized (batchSize wp)) tr).
  { clear -Hb Hex. induction Hex as [|tr s e s' Hex (IH1 & IH2 & IH3 & IH4) Hs].
    { simpl. repeat split; try lia. constructor. }
    rewrite Forall_app, Forall_singleton.
    step_inv Hs; unfold capacity in *; simpl in *;
      repeat match goal with
      | Hc : collector _ = _ |- _ => rewrite Hc in *
      | Hw : workChan _ = _ |- _ => rewrite Hw in *
      | Hq : resultChan _ = _ |- _ => rewrite Hq in *
      end;
      rewrite ?length_app in *; simpl in *; repeat split; try done; try lia.
    all: repeat match goal with Hd : decide _ = _ |- _ => clear Hd end;
      rewrite ?length_app in *; simpl in *; lia. }
  destruct Hinv as (H1 & H2 & H3 & H4). repeat split; try done.
  destruct (exec_frame _ _ _ _ _ _ _ Hex) as (_ & _ & _ & Hlen).
  unfold in_flight. rewrite !length_app.
  pose proof (held_length (workers s)). lia.
Qed.

Lemma pipeline_bounds_witness :
  let r := demo_run true in
  Forall (flush_sized 1) (trace_of r).
Proof.
  intros r.
  refine (proj2 (proj2 (proj2 (proj2
    (pipeline_bounds exprlang.engine demo_wp 77%N scenario_a_bag demo_cache
       (database demo_s0) (trace_of r) (state_of r demo_s0) _ _))))).
  - vm_compute. lia.
  - apply (run_exec_of demo_wp 77%N scenario_a_bag).
Defined.

Lemma upsert_answer ok d batch :
  batch <> [] -> NoDup (summary_ids batch) -> (upsert ok d batch).1 = ok.
Proof.
  intros Hne Hnd. unfold upsert, persistence.UpsertBatch.
  destruct ok; [|done]. destruct batch as [|sm batch]; [done|].
  by rewrite decide_True by done.
Qed.

(** The variant identifiers being a key, no flush proposes one variant
    twice, so the upsert never fails on a row affected a second time: the
    bulk write of a flush succeeds whenever the database answers. *)
Theorem flush_never_conflicts :
  forall (E : ExprEngine) (wp : WorkerPool) (jobID : uuid) (baseParams : Params)
         (cache : Cache) (d0 : Database) (tr : list Event) (s : State)
         (ch : Choice) (batch : list VariantCostSummary) (wr : bool) (pr : option bool)
         (s' : State),
    NoDup (db.id <$> yarn_variants d0) ->
    exec wp jobID baseParams (spawn wp cache d0) tr s ->
    step_fun wp jobID baseParams ch s = Some (EFlush batch wr pr, s') ->
    NoDup (summary_ids batch) /\
    wr = match ch with
         | ChCollect upsert_ok _ | ChCollectorDone upsert_ok => upsert_ok
         | _ => false
         end.
Proof.
  intros E wp jobID P cache d0 tr s ch batch wr pr s' Hnd Hex Hs.
  pose proof (exec_inv _ _ _ _ _ _ _ Hex) as Hi.
  pose proof (flushed_ids_NoDup _ _ _ _ _ _ Hnd Hi) as Hfl.
  apply NoDup_app in Hfl as (Hfl & _ & _).
  unfold in_flight, summary_ids in Hfl. rewrite !fmap_app in Hfl.
  apply NoDup_app in Hfl as (_ & _ & Hfl).
  destruct ch; simpl in Hs;
    unfold dispatcher_list, dispatcher_send, dispatcher_cancel, worker_receive,
      worker_result, worker_done, main_close, collector_receive, collector_done,
      reporter_tick, main_complete in Hs;
    repeat case_match; simplify_eq.
  - assert (Hb : NoDup (summary_ids (buffer ++ [t]))).
    { unfold summary_ids. rewrite fmap_app. simpl.
      simpl in Hfl. apply NoDup_cons in Hfl as [Hn Hfl].
      apply NoDup_app in Hfl as (_ & _ & Hb'). rewrite not_elem_of_app in Hn.
      apply NoDup_app. split; [done|]. split; [|apply NoDup_singleton].
      intros x Hx ->%list_elem_of_singleton. tauto. }
    split; [done|].
    match goal with Hu : upsert ?ok _ _ = (_, _) |- _ =>
      pose proof (upsert_answer ok (database s) (buffer ++ [t])) as Ha;
      rewrite Hu in Ha; simpl in Ha; apply Ha; [by destruct buffer|done] end.
  - simpl in Hfl. split; [done|].
    match goal with Hu : upsert ?ok _ _ = (_, _) |- _ =>
      pose proof (upsert_answer ok (database s) (t :: l)) as Ha;
      rewrite Hu in Ha; simpl in Ha; apply Ha; done end.
Qed.

Lemma flush_never_conflicts_witness :
  let r := @run exprlang.engine demo_wp 77%N scenario_a_bag (take 4 (demo_schedule true))
             demo_s0 in
  exists batch pr s',
    @step_fun exprlang.engine demo_wp 77%N scenario_a_bag (ChCollect true true)
      (state_of r demo_s0) = Some (EFlush batch true pr, s').
Proof.
  intros r.
  destruct (@step_fun exprlang.engine demo_wp 77%N scenario_a_bag (ChCollect true true)
              (state_of r demo_s0)) as [[[vs| | |w|w|w sm'|sm'|i| |sm'|b wr pr| |p f|ok] s']|]
    eqn:Hs; try (by vm_compute in Hs).
  exists b, pr, s'.
  destruct (flush_never_conflicts exprlang.engine demo_wp 77%N scenario_a_bag demo_cache
              (database demo_s0) (trace_of r) (state_of r demo_s0) _ _ _ _ _
              ltac:(compute_done) (run_exec_of demo_wp 77%N scenario_a_bag _ _) Hs)
    as [_ ->].
  reflexivity.
Defined.

(** ** Degenerate pools *)

Section Degenerate.
Context `{ExprEngine}.
Variable wp : WorkerPool.
Variable jobID : uuid.
Variable baseParams : Params.
Variable cache : Cache.
Variable d0 : Database.
Hypothesis Hdeg : batchSize wp = 0%nat \/ workerCount wp = 0%nat.

Lemma idle_inv tr s :
  exec wp jobID baseParams (spawn wp cache d0) tr s -> idle wp d0 tr s.
Proof.
  induction 1 as [|tr s e s' Hex IH Hs].
  - unfold idle. simpl. repeat split; try done.
    + by intros ->.
    + apply Forall_forall. by intros w [-> _]%elem_of_replicate.
  - destruct IH as (Hb & Hw & Hf & Hrc & Hbuf & Hv & Hfl & Hp & Hfc & Hst).
    assert (Hno : forall i, workers s !! i = Some WReceive -> workChan s = []).
    { intros i Hi. destruct Hdeg as [Hz|Hz]; [by apply Hb|].
      rewrite (Hw Hz) in Hi. done. }
    unfold idle. trace_snoc.
    step_inv Hs; simpl in *; trace_snoc;
      repeat match goal with
      | Hc : collector _ = _ |- _ => rewrite Hc in *
      | Hd : dispatcher _ = _ |- _ => rewrite Hd in *
      end; simpl in *; simplify_eq.
    all: try (by repeat split; try done; try tauto).
    all: try (match goal with Hi : workers _ !! _ = Some WReceive |- _ =>
                specialize (Hno _ Hi); congruence end).
    all: try (match goal with Hi : workers _ !! _ = Some (WSend _) |- _ =>
                apply list_elem_of_lookup_2 in Hi;
                rewrite Forall_forall in Hf; by apply Hf in Hi end).
    all: repeat split; try done; try tauto.
    + match goal with Hl : persistence.ListWithRouting _ _ _ = _ :: _, Hz : batchSize wp = _ |- _ =>
        by rewrite Hz in Hl end.
    + intros Hz. rewrite (Hw Hz). done.
    + apply Forall_insert; done.
Qed.
End Degenerate.

(** The degenerate pools: with a batch size of zero the reader's first
    page is empty and nothing is put on the work queue; with no worker
    nothing is taken from it.  In both cases no variant is visited, nothing
    is flushed, both counters stay at zero and the summary store is not
    touched. *)
Theorem degenerate_pool :
  forall (E : ExprEngine) (wp : WorkerPool) (jobID : uuid) (baseParams : Params)
         (cache : Cache) (d0 : Database) (tr : list Event) (s : State),
    batchSize wp = 0%nat \/ workerCount wp = 0%nat ->
    exec wp jobID baseParams (spawn wp cache d0) tr s ->
    visited tr = [] /\ flushed tr = [] /\
    processedCount s = 0 /\ failedCount s = 0 /\
    variant_cost_summaries (database s) = variant_cost_summaries d0 /\
    (batchSize wp = 0%nat -> dispatched tr = []).
Proof.
  intros E wp jobID P cache d0 tr s Hdeg Hex.
  destruct (idle_inv _ _ _ _ _ Hdeg _ _ Hex)
    as (Hb & _ & _ & _ & _ & Hv & Hfl & Hp & Hf & Hst).
  repeat split; try done. intros Hz. by apply Hb.
Qed.

Lemma degenerate_pool_witness :
  let wp := {| workerCount := 1; batchSize := 0 |} in
  let r := @run exprlang.engine wp 77%N scenario_a_bag
             [ChList true; ChWorkerDone 0; ChCloseResults; ChCollectorDone true;
              ChComplete true 200]
             (spawn wp demo_cache (database demo_s0)) in
  let s := state_of r demo_s0 in
  main s = MReturned None /\
  job_status (batch_jobs (database s)) 77%N = Some JobStatusCompleted /\
  visited (trace_of r) = [] /\ variant_cost_summaries (database s) = ∅.
Proof.
  intros wp r s. split; [vm_compute; reflexivity|]. split; [vm_compute; reflexivity|].
  destruct (degenerate_pool exprlang.engine wp 77%N scenario_a_bag demo_cache
              (database demo_s0) (trace_of r) s) as (Hv & _ & _ & _ & Hst & _).
  - by left.
  - subst s r.
    assert (Hrun : is_Some (@run exprlang.engine wp 77%N scenario_a_bag
                    [ChList true; ChWorkerDone 0; ChCloseResults; ChCollectorDone true;
                     ChComplete true 200]
                    (spawn wp demo_cache (database demo_s0)))) by (vm_compute; eauto).
    destruct Hrun as [[tr' s'] Hrun]. rewrite Hrun. simpl.
    by apply (run_exec wp 77%N scenario_a_bag) in Hrun.
  - split; [exact Hv|]. rewrite Hst. reflexivity.
Defined.

(** ** Counters, order and the store *)

(** The counters stay within the total the job announces: at every moment
    the variants flushed, counted failed, held in the pipeline or waiting
    on the work queue are no more than the active variants, which are no
    more than the count of all variants taken at the start. *)
Theorem progress_within_total :
  forall (E : ExprEngine) (wp : WorkerPool) (jobID : uuid) (baseParams : Params)
         (cache : Cache) (d0 : Database) (tr : list Event) (s : State),
    Z.of_nat (length (yarn_variants d0)) < 2 ^ 63 ->
    exec wp jobID baseParams (spawn wp cache d0) tr s ->
    0 <= processedCount s /\ 0 <= failedCount s /\
    processedCount s + failedCount s
      + Z.of_nat (length (in_flight s)) + Z.of_nat (length (workChan s))
    <= Z.of_nat (length (persistence.active_variants d0)) /\
    Z.of_nat (length (persistence.active_variants d0)) <= persistence.Count d0.
Proof.
  intros E wp jobID P cache d0 tr s Hsize Hex.
  pose proof (exec_inv _ _ _ _ _ _ _ Hex) as Hi.
  pose proof Hex as Hcnt. apply counters in Hcnt as [Hf Hp]; [|done].
  pose proof (visited_split _ _ _ (inv_events Hi)) as Hv.
  rewrite visited_received in Hv. apply Permutation_length in Hv.
  pose proof (inv_flow Hi) as Hfl. unfold flow_inv in Hfl.
  apply Permutation_length in Hfl.
  destruct (received_prefix _ _ _ _ _ _ Hi) as [n Hn].
  apply (f_equal length) in Hn.
  rewrite length_app, length_take, length_fmap in Hn.
  rewrite length_fmap, length_app in Hv. unfold summary_ids in Hv.
  rewrite length_fmap in Hv. rewrite length_app in Hfl.
  pose proof (active_length d0) as Hact. unfold persistence.Count.
  repeat split; lia.
Qed.

Lemma progress_within_total_witness :
  let r := demo_run true in
  processedCount (state_of r demo_s0) + failedCount (state_of r demo_s0)
    + Z.of_nat (length (in_flight (state_of r demo_s0)))
    + Z.of_nat (length (workChan (state_of r demo_s0)))
  <= 1.
Proof.
  intros r.
  refine (proj1 (proj2 (proj2
    (progress_within_total exprlang.engine demo_wp 77%N scenario_a_bag demo_cache
       (database demo_s0) (trace_of r) (state_of r demo_s0) _ _)))).
  - vm_compute. reflexivity.
  - apply (run_exec_of demo_wp 77%N scenario_a_bag).
Defined.

(** The work queue is first in, first out, and the reader fills it in
    ascending order of the variant identifier: the workers take the
    variants in that order, and the variants taken, followed by those that
    wait on the queue, are an initial segment of the active variants. *)
Theorem variants_taken_in_order :
  forall (E : ExprEngine) (wp : WorkerPool) (jobID : uuid) (baseParams : Params)
         (cache : Cache) (d0 : Database) (tr : list Event) (s : State),
    NoDup (db.id <$> yarn_variants d0) ->
    exec wp jobID baseParams (spawn wp cache d0) tr s ->
    (exists n, visited tr ++ (variantWork.ID <$> workChan s)
               = take n (YarnVariant.ID <$> persistence.active_variants d0)) /\
    StronglySorted (fun a b => (a < b)%N) (visited tr).
Proof.
  intros E wp jobID P cache d0 tr s Hnd Hex.
  pose proof (exec_inv _ _ _ _ _ _ _ Hex) as Hi.
  destruct (received_prefix _ _ _ _ _ _ Hi) as [n Hn].
  assert (Hpre : visited tr ++ (variantWork.ID <$> workChan s)
                 = take n (YarnVariant.ID <$> persistence.active_variants d0)).
  { rewrite visited_received, <- fmap_app, Hn, <- !fmap_take, <- list_fmap_compose.
    reflexivity. }
  split; [by exists n|].
  pose proof (active_variants_sorted d0 Hnd) as Hs.
  assert (Hs' : StronglySorted (fun a b => (a < b)%N)
                  (YarnVariant.ID <$> persistence.active_variants d0)).
  { revert Hs. apply (StronglySorted_fmap YarnVariant.ID
      (fun a b => (YarnVariant.ID a < YarnVariant.ID b)%N)). by intros ???. }
  clear Hs. rename Hs' into Hs.
  rewrite <- (take_drop n (YarnVariant.ID <$> persistence.active_variants d0)) in Hs.
  apply StronglySorted_app_1_l in Hs. rewrite <- Hpre in Hs.
  by apply StronglySorted_app_1_l in Hs.
Qed.

Lemma variants_taken_in_order_witness :
  let r := demo_run true in
  StronglySorted (fun a b => (a < b)%N) (visited (trace_of r)).
Proof.
  intros r.
  refine (proj2
    (variants_taken_in_order exprlang.engine demo_wp 77%N scenario_a_bag demo_cache
       (database demo_s0) (trace_of r) (state_of r demo_s0) _ _)).
  - compute_done.
  - apply (run_exec_of demo_wp 77%N scenario_a_bag).
Defined.

(** The job never removes a summary, and it writes none but for a variant
    it flushed: the summary of every other variant, one that is not active,
    that was counted failed, or whose flush failed, stays in the store as
    it was before the job. *)
Theorem summaries_are_never_removed :
  forall (E : ExprEngine) (wp : WorkerPool) (jobID : uuid) (baseParams : Params)
         (cache : Cache) (d0 : Database) (tr : list Event) (s : State),
    NoDup (db.id <$> yarn_variants d0) ->
    exec wp jobID baseParams (spawn wp cache d0) tr s ->
    (forall id, is_Some (variant_cost_summaries d0 !! id) ->
       is_Some (variant_cost_summaries (database s) !! id)) /\
    (forall id,
       id ∉ YarnVariant.ID <$> persistence.active_variants d0 \/
       id ∈ counted_failed tr \/
       id ∉ summary_ids (written tr) ->
       variant_cost_summaries (database s) !! id = variant_cost_summaries d0 !! id).
Proof.
  intros E wp jobID P cache d0 tr s Hnd Hex.
  pose proof (exec_inv _ _ _ _ _ _ _ Hex) as Hi.
  pose proof Hex as Hst. apply store_inv in Hst as [Hin Hout]; [|done].
  assert (Hsub : forall id, id ∈ summary_ids (written tr) ->
            id ∈ summary_ids (calculated tr)).
  { intros id (sm & -> & Hsm)%list_elem_of_fmap. apply list_elem_of_fmap_2.
    apply written_flushed in Hsm.
    pose proof (inv_flow Hi) as Hfl. unfold flow_inv in Hfl. rewrite Hfl.
    apply elem_of_app. by right. }
  split.
  - intros id Hsome. destruct (decide (id ∈ summary_ids (written tr))) as [Hw|Hw].
    + apply list_elem_of_fmap in Hw as (sm & -> & Hsm). rewrite (Hin _ Hsm). by eexists.
    + by rewrite (Hout _ Hw).
  - intros id Hid. apply Hout. intros Hw.
    destruct Hid as [Hid|[Hid|Hid]]; [| |done]; apply Hsub in Hw.
    + apply Hid.
      destruct (received_prefix _ _ _ _ _ _ Hi) as [n Hn].
      pose proof (visited_split _ _ _ (inv_events Hi)) as Hv.
      assert (Hvis : id ∈ visited tr).
      { rewrite Hv. apply elem_of_app. by right. }
      rewrite visited_received in Hvis.
      assert (Hin' : id ∈ variantWork.ID <$> (received tr ++ workChan s)).
      { rewrite fmap_app. apply elem_of_app. by left. }
      rewrite Hn, <- fmap_take, <- list_fmap_compose in Hin'.
      apply list_elem_of_fmap in Hin' as (v & -> & Hv').
      apply list_elem_of_fmap_2. by apply subseteq_take in Hv'.
    + pose proof (calculated_ids_NoDup _ _ _ _ _ _ Hnd Hi) as Hnd'.
      apply NoDup_app in Hnd' as (_ & Hdisj & _). by apply (Hdisj id).
Qed.

Lemma summaries_are_never_removed_witness :
  let r := demo_run false in
  variant_cost_summaries (database (state_of r demo_s0)) !! 5%N
  = variant_cost_summaries (database demo_s0) !! 5%N.
Proof.
  intros r.
  refine (proj2
    (summaries_are_never_removed exprlang.engine demo_wp 77%N scenario_a_bag demo_cache
       (database demo_s0) (trace_of r) (state_of r demo_s0) _ _) 5%N _).
  - compute_done.
  - apply (run_exec_of demo_wp 77%N scenario_a_bag).
  - right. right. vm_compute. by intros ?%elem_of_nil.
Defined.

(** * The single-variant path *)

Lemma find_by_id rows row :
  NoDup (db.id <$> rows) -> row ∈ rows ->
  List.find (fun r => N.eqb (db.id r) (db.id row)) rows = Some row.
Proof.
  induction rows as [|r rows IH]; intros Hnd Hin; [by apply elem_of_nil in Hin|].
  rewrite fmap_cons in Hnd. apply NoDup_cons in Hnd as [Hfresh Hnd]. simpl.
  destruct (N.eqb_spec (db.id r) (db.id row)) as [Heq|Hne].
  - apply elem_of_cons in Hin as [->|Hin]; [done|].
    exfalso. apply Hfresh. rewrite Heq. by apply list_elem_of_fmap_2.
  - apply elem_of_cons in Hin as [->|Hin]; [done|]. by apply IH.
Qed.

Lemma find_by_id_none rows id :
  id ∉ db.id <$> rows -> List.find (fun r => N.eqb (db.id r) id) rows = None.
Proof.
  induction rows as [|r rows IH]; intros Hid; [done|]. simpl.
  rewrite fmap_cons in Hid. apply not_elem_of_cons in Hid as [Hne Hid].
  destruct (N.eqb_spec (db.id r) id) as [Heq|_]; [done|]. by apply IH.
Qed.

(** The two paths agree.  For a variant whose routing has steps, the worker
    of [RecalculateAll], with the cache loaded from the same database, and
    [CalculateVariant] give the same summary: the one of
    [CalculateVariantFast] on the steps of the routing in the order of
    [sequence_order]. *)
Theorem calculate_variant_agrees_with_worker :
  forall (E : ExprEngine) (d : Database) (cache : Cache) (steps_fail : uuid -> bool)
         (row : db.yarn_variant) (routing : uuid) (now : Z) (P : Params),
    NoDup (db.id <$> yarn_variants d) ->
    row ∈ yarn_variants d ->
    db.routing_template_id row = Some routing ->
    loadRoutingStepsCache d false steps_fail = Ok cache ->
    steps_fail routing = false ->
    persistence.GetByRoutingID d routing <> [] ->
    let summary :=
      CalculateVariantFast now (db.id row) (persistence.GetByRoutingID d routing) P in
    handle P cache now (work_of (persistence.scan_variant row)) = Some summary /\
    CalculateVariant now d None None (db.id row) P = Ok summary.
Proof.
  intros E d cache steps_fail row routing now P Hnd Hrow Hrt Hload Hok Hne summary.
  split.
  - unfold loadRoutingStepsCache in Hload. simplify_eq.
    pose proof (load_lookup d steps_fail (persistence.ListUniqueRoutingIDs d) ∅ routing)
      as Hl.
    rewrite decide_True in Hl.
    2:{ split; [|done]. unfold persistence.ListUniqueRoutingIDs.
        apply elem_of_remove_dups, list_elem_of_omap. by exists row. }
    unfold handle, work_of, persistence.scan_variant. simpl. rewrite Hrt. simpl.
    rewrite Hl. by destruct (persistence.GetByRoutingID d routing).
  - unfold CalculateVariant, yarnVariantRepo.GetByID.
    rewrite (find_by_id _ _ Hnd Hrow). unfold persistence.scan_variant. simpl.
    by rewrite Hrt.
Qed.

Lemma calculate_variant_agrees_with_worker_witness :
  let row := {| db.id := 5%N; db.routing_template_id := Some 1%N; db.is_active := true |} in
  @CalculateVariant exprlang.engine 100 demo_db None None 5%N scenario_a_bag
  = Ok (@CalculateVariantFast exprlang.engine 100 5%N scenario_a_steps scenario_a_bag).
Proof.
  intros row.
  refine (proj2
    (calculate_variant_agrees_with_worker exprlang.engine demo_db demo_cache
       (fun _ => false) row 1%N 100 scenario_a_bag _ _ _ _ _ _)).
  - compute_done.
  - by left.
  - reflexivity.
  - vm_compute. reflexivity.
  - reflexivity.
  - vm_compute. discriminate.
Defined.

(** Where the two paths part.  [CalculateVariant] fails on a variant that
    is not in the catalog; for a variant whose routing has no step (or that
    has no routing) it succeeds, with a process cost of zero, where the
    worker of [RecalculateAll] counts the variant failed and writes no
    summary. *)
Theorem calculate_variant_edge_cases :
  forall (E : ExprEngine) (d : Database) (now : Z) (P : Params),
    (forall id,
       id ∉ db.id <$> yarn_variants d ->
       CalculateVariant now d None None id P
       = Err "failed to get variant: no rows in result set") /\
    (forall (cache : Cache) (steps_fail : uuid -> bool) (row : db.yarn_variant),
       NoDup (db.id <$> yarn_variants d) ->
       row ∈ yarn_variants d ->
       loadRoutingStepsCache d false steps_fail = Ok cache ->
       persistence.GetByRoutingID d
         (YarnVariant.RoutingTemplateID (persistence.scan_variant row)) = [] ->
       handle P cache now (work_of (persistence.scan_variant row)) = None /\
       exists summary,
         CalculateVariant now d None None (db.id row) P = Ok summary /\
         VariantCostSummary.TotalProcessCost summary = 0%float /\
         VariantCostSummary.GrandTotal summary
         = (getFloatParam P "material_cost" 0 + 0
            + 0 * getFloatParam P "overhead_percentage" tenth)%float).
Proof.
  intros E d now P. split.
  - intros id Hid. unfold CalculateVariant, yarnVariantRepo.GetByID.
    by rewrite find_by_id_none.
  - intros cache steps_fail row Hnd Hrow Hload Hno.
    unfold persistence.scan_variant in *. simpl in Hno. split.
    + unfold loadRoutingStepsCache in Hload. simplify_eq.
      unfold handle, work_of. simpl. rewrite load_lookup.
      case_decide; [by rewrite Hno|done].
    + eexists. split.
      * unfold CalculateVariant, yarnVariantRepo.GetByID.
        rewrite (find_by_id _ _ Hnd Hrow). unfold persistence.scan_variant. simpl.
        rewrite Hno. reflexivity.
      * done.
Qed.

Lemma calculate_variant_edge_cases_witness :
  let row := {| db.id := 5%N; db.routing_template_id := Some 2%N; db.is_active := true |} in
  exists summary,
    @CalculateVariant exprlang.engine 100 stepless_db None None 5%N scenario_a_bag
    = Ok summary /\
    VariantCostSummary.TotalProcessCost summary = 0%float /\
    VariantCostSummary.GrandTotal summary = 0%float.
Proof.
  intros row.
  destruct (proj2 (calculate_variant_edge_cases exprlang.engine stepless_db 100
                     scenario_a_bag)
              (∅ : Cache) (fun _ => true) row) as (_ & sm & Hsm & Hp & Hg).
  - compute_done.
  - by left.
  - reflexivity.
  - reflexivity.
  - exists sm. split; [exact Hsm|]. split; [exact Hp|]. rewrite Hg. reflexivity.
Defined.

(** * The bulk write *)

Lemma upserted_lookup store batch id :
  NoDup (summary_ids batch) ->
  persistence.upserted store batch !! id
  = match List.find (fun sm => N.eqb (VariantCostSummary.YarnVariantID sm) id) batch with
    | Some sm => Some sm
    | None => store !! id
    end.
Proof.
  revert store. induction batch as [|sm batch IH]; intros store Hnd; [done|].
  unfold summary_ids in Hnd. rewrite fmap_cons in Hnd.
  apply NoDup_cons in Hnd as [Hfresh Hnd]. simpl.
  destruct (N.eqb_spec (VariantCostSummary.YarnVariantID sm) id) as [<-|Hne].
  - rewrite upserted_notin by done. by rewrite lookup_insert_eq.
  - rewrite IH by done. destruct (List.find _ batch); [done|].
    by rewrite lookup_insert_ne.
Qed.

Lemma upserted_Permutation store b b' :
  NoDup (summary_ids b) -> b ≡ₚ b' ->
  persistence.upserted store b = persistence.upserted store b'.
Proof.
  intros Hnd Hp. apply map_eq. intros id.
  assert (Hnd' : NoDup (summary_ids b')) by (unfold summary_ids; by rewrite <- Hp).
  destruct (decide (id ∈ summary_ids b)) as [Hin|Hout].
  - apply list_elem_of_fmap in Hin as (sm & -> & Hsm).
    rewrite (upserted_in _ _ _ Hnd Hsm). rewrite Hp in Hsm.
    by rewrite (upserted_in _ _ _ Hnd' Hsm).
  - rewrite upserted_notin by done. rewrite upserted_notin; [done|].
    unfold summary_ids in *. by rewrite <- Hp.
Qed.

(** The order of the rows in a batch does not matter to the bulk write:
    two batches with the same rows leave the same store and report the same
    count, or fail alike. *)
Theorem upsert_batch_order_irrelevant :
  forall (store : gmap uuid VariantCostSummary) (b b' : list VariantCostSummary),
    b ≡ₚ b' ->
    persistence.UpsertBatch store b = persistence.UpsertBatch store b'.
Proof.
  intros store b b' Hp. unfold persistence.UpsertBatch.
  destruct b as [|sm b].
  { apply Permutation_nil_l in Hp. by subst. }
  destruct b' as [|sm' b'].
  { by apply Permutation_nil_r in Hp. }
  assert (Hids : VariantCostSummary.YarnVariantID <$> sm :: b
                 ≡ₚ VariantCostSummary.YarnVariantID <$> sm' :: b')
    by (by apply fmap_Permutation).
  destruct (decide (NoDup (VariantCostSummary.YarnVariantID <$> sm :: b))) as [Hnd|Hnd].
  - destruct (decide (NoDup (VariantCostSummary.YarnVariantID <$> sm' :: b'))) as [_|Hnd'].
    + rewrite (Permutation_length Hp). by rewrite (upserted_Permutation _ _ _ Hnd Hp).
    + exfalso. apply Hnd'. exact (proj1 (NoDup_Permutation_proper _ _ Hids) Hnd).
  - destruct (decide (NoDup (VariantCostSummary.YarnVariantID <$> sm' :: b'))) as [Hnd'|_];
      [|done].
    exfalso. apply Hnd. exact (proj2 (NoDup_Permutation_proper _ _ Hids) Hnd').
Qed.

Lemma upsert_batch_order_irrelevant_witness :
  let a := @CalculateVariantFast exprlang.engine 0 1%N [] ∅ in
  let b := @CalculateVariantFast exprlang.engine 0 2%N [] ∅ in
  persistence.UpsertBatch ∅ [a; b] = persistence.UpsertBatch ∅ [b; a].
Proof.
  intros a b. apply upsert_batch_order_irrelevant. apply Permutation_swap.
Defined.

(** The bulk write can be replayed: writing a batch a second time changes
    nothing, and a batch of one row does what the upsert of that row does. *)
Theorem upsert_batch_idempotent :
  forall (store store' : gmap uuid VariantCostSummary) (b : list VariantCostSummary) (n : Z),
    persistence.UpsertBatch store b = Ok (n, store') ->
    persistence.UpsertBatch store' b = Ok (n, store') /\
    n = Z.of_nat (length b) /\
    (forall sm, b = [sm] -> store' = variantCostSummaryRepo.Upsert store sm) /\
    (forall id, id ∉ summary_ids b -> store' !! id = store !! id).
Proof.
  intros store store' b n Hu.
  assert (Hb : b <> [] -> NoDup (summary_ids b) /\ n = Z.of_nat (length b) /\
                          store' = persistence.upserted store b).
  { intros Hne. unfold persistence.UpsertBatch in Hu. destruct b as [|sm b]; [done|].
    case_decide; [|done]. by simplify_eq. }
  destruct (decide (b = [])) as [->|Hne].
  { unfold persistence.UpsertBatch in *. simplify_eq. repeat split; try done. }
  destruct (Hb Hne) as (Hnd & -> & ->). repeat split.
  - unfold persistence.UpsertBatch. destruct b as [|sm b0] eqn:Hbs; [done|].
    rewrite <- Hbs in *. rewrite decide_True by done. f_equal. f_equal.
    apply map_eq. intros id.
    rewrite !(upserted_lookup _ _ _ Hnd). by destruct (List.find _ _).
  - by intros sm' ->.
  - intros id Hid. by apply upserted_notin.
Qed.

Lemma upsert_batch_idempotent_witness :
  let a := @CalculateVariantFast exprlang.engine 0 1%N [] ∅ in
  persistence.UpsertBatch (<[1%N := a]> ∅) [a] = Ok (1, <[1%N := a]> ∅).
Proof.
  intros a.
  refine (proj1 (upsert_batch_idempotent ∅ (<[1%N := a]> ∅) [a] 1 _)).
  reflexivity.
Defined.

(** * The progress of a job *)

Lemma update_progress_total jobs id n f jobs' :
  persistence.UpdateProgress jobs id n f = Ok jobs' ->
  job_total jobs' id = job_total jobs id.
Proof.
  unfold persistence.UpdateProgress, job_total. intros Hu.
  destruct (jobs !! id) as [j|] eqn:Hj; [|by simplify_eq; rewrite Hj].
  case_match; simplify_eq. by rewrite lookup_insert_eq.
Qed.

(** [RecalculateAll] counts the variants but never writes the count to the
    job's row: [total_records] stays what it was when the job was
    registered.  For a job registered with no total, as the handler of
    [POST /recalculate/all] does, [Progress] is [0] at every moment of the
    run, the end included. *)
Theorem progress_of_registered_job :
  forall (E : ExprEngine) (wp : WorkerPool) (jobID : uuid) (baseParams : Params)
         (d : Database) (count_fail ids_fail : bool) (steps_fail : uuid -> bool)
         (status_ok : bool) (s0 : State) (tr : list Event) (s : State) (job0 : BatchJob),
    batch_jobs d !! jobID = Some job0 ->
    start wp jobID d count_fail ids_fail steps_fail status_ok = Ok s0 ->
    exec wp jobID baseParams s0 tr s ->
    exists job,
      batch_jobs (database s) !! jobID = Some job /\
      BatchJob.TotalRecords job = BatchJob.TotalRecords job0 /\
      (BatchJob.TotalRecords job0 = 0 -> Progress job = 0%float).
Proof.
  intros E wp jobID P d cf idf sf ok s0 tr s job0 Hjob Hstart Hex.
  assert (Ht : job_total (batch_jobs (database s)) jobID = Some (BatchJob.TotalRecords job0)).
  { induction Hex as [|tr s e s' Hex IH Hs].
    - apply start_spawn in Hstart as (cache & jobs & -> & _ & [->| ->]); simpl;
        unfold job_total; [by rewrite Hjob|].
      rewrite update_status_row, Hjob. done.
    - rewrite <- IH. apply step_jobs in Hs.
      destruct e as [vs| | |w|w|w sm'|sm'|i| |sm'|b wr pr| |p f|ok']; try (by rewrite Hs).
      + destruct pr as [[|]|]; try (by rewrite Hs). by eapply update_progress_total.
      + destruct ok'; [|by rewrite Hs]. destruct Hs as [now ->].
        unfold job_total. rewrite complete_row.
        by destruct (batch_jobs (database s) !! jobID). }
  unfold job_total in Ht.
  destruct (batch_jobs (database s) !! jobID) as [job|]; [|done].
  simpl in Ht. simplify_eq. exists job. split; [done|]. split; [done|].
  intros Hz. unfold Progress. by rewrite Ht, Hz.
Qed.

Lemma progress_of_registered_job_witness :
  let r := demo_run true in
  exists job,
    batch_jobs (database (state_of r demo_s0)) !! 77%N = Some job /\
    BatchJob.ProcessedRecords job = 1 /\
    BatchJob.Status job = JobStatusCompleted /\
    Progress job = 0%float.
Proof.
  intros r.
  destruct (progress_of_registered_job exprlang.engine demo_wp 77%N scenario_a_bag
              demo_db false false (fun _ => false) true demo_s0
              (trace_of r) (state_of r demo_s0) (new_job 77%N 0))
    as (job & Hjob & Ht & Hp).
  - reflexivity.
  - reflexivity.
  - apply (run_exec_of demo_wp 77%N scenario_a_bag).
  - exists job. split; [exact Hjob|].
    assert (Hrow : batch_jobs (database (state_of r demo_s0)) !! 77%N
                   = Some (persistence.finish JobStatusCompleted None 200
                             (persistence.set_status JobStatusRunning 1 0 (new_job 77%N 0))))
      by (vm_compute; reflexivity).
    pose proof (eq_trans (eq_sym Hrow) Hjob) as Heq. injection Heq as <-.
    split; [reflexivity|]. split; [reflexivity|]. apply Hp. reflexivity.
Defined.

(** * The configuration *)

Lemma digits_parse (m : N) :
  exists u, DecimalString.NilZero.uint_of_string (strconv.digits (Z.of_N m)) = Some u /\
            N.of_uint u = m.
Proof.
  unfold strconv.digits. rewrite N2Z.id.
  destruct (N.to_uint m) eqn:Hm.
  1:{ exists Decimal.zero. split; [reflexivity|].
      rewrite <- (DecimalN.Unsigned.of_to m), Hm. reflexivity. }
  all: eexists; split; [by apply DecimalString.NilZero.usu|];
    rewrite <- Hm; apply DecimalN.Unsigned.of_to.
Qed.

Lemma digits_unsigned (m : N) :
  match strconv.digits (Z.of_N m) with
  | String "-" _ | String "+" _ | EmptyString => False
  | _ => True
  end.
Proof.
  destruct (digits_parse m) as (u & Hu & _).
  destruct (strconv.digits (Z.of_N m)) as [|c rest]; [done|].
  simpl in Hu. destruct (DecimalString.NilEmpty.uint_of_string rest) as [d|]; [|done].
  apply DecimalString.uint_of_char_spec in Hu.
  destruct Hu as [[-> _]|[[-> _]|[[-> _]|[[-> _]|[[-> _]|[[-> _]|[[-> _]|[[-> _]|[[-> _]|[-> _]]]]]]]]]];
    done.
Qed.

Lemma Atoi_Itoa (n : Z) : int64_range n = true -> Atoi (strconv.Itoa n) = Ok n.
Proof.
  intros Hn. unfold strconv.Itoa.
  destruct (Z.ltb_spec n 0) as [Hneg|Hpos].
  - unfold Atoi. destruct (digits_parse (Z.to_N (- n))) as (u & Hu & Hof).
    rewrite Z2N.id in Hu by lia. rewrite Hu, Hof, Z2N.id by lia.
    rewrite Z.opp_involutive, Hn. done.
  - pose proof (digits_unsigned (Z.to_N n)) as Hs.
    destruct (digits_parse (Z.to_N n)) as (u & Hu & Hof).
    rewrite Z2N.id in Hs, Hu by lia.
    assert (Hat : Atoi (strconv.digits n)
                  = match DecimalString.NilZero.uint_of_string (strconv.digits n) with
                    | None => Err "invalid syntax"
                    | Some u =>
                        if int64_range (Z.of_N (N.of_uint u)) then Ok (Z.of_N (N.of_uint u))
                        else Err "value out of range"
                    end).
    { unfold Atoi. destruct (strconv.digits n) as [|c rest]; [done|].
      destruct c as [[|] [|] [|] [|] [|] [|] [|] [|]]; try done. }
    rewrite Hat, Hu, Hof, Z2N.id by lia. by rewrite Hn.
Qed.

Lemma Itoa_nonempty (n : Z) : strconv.Itoa n <> EmptyString.
Proof.
  unfold strconv.Itoa. destruct (Z.ltb_spec n 0) as [Hneg|Hpos]; [done|].
  pose proof (digits_unsigned (Z.to_N n)) as Hs. rewrite Z2N.id in Hs by lia.
  by destruct (strconv.digits n).
Qed.

(** An integer setting is read back as it is written: [getEnvInt] gives [n]
    for a variable that holds the decimal form of [n], zero and the negative
    numbers included, with no check of a range; it gives the default for a
    variable that is not set, is empty, or does not parse. *)
Theorem get_env_int_reads_decimal :
  forall (env : gmap string string) (key : string) (defaultValue : Z),
    (forall n, int64_range n = true -> env !! key = Some (strconv.Itoa n) ->
       config.getEnvInt env key defaultValue = n) /\
    (env !! key = None \/ env !! key = Some EmptyString ->
     config.getEnvInt env key defaultValue = defaultValue) /\
    (forall value msg, env !! key = Some value -> Atoi value = Err msg ->
       config.getEnvInt env key defaultValue = defaultValue).
Proof.
  intros env key d. unfold config.getEnvInt, Getenv. repeat split.
  - intros n Hn ->. simpl.
    destruct (String.eqb_spec (strconv.Itoa n) EmptyString) as [He|_].
    + by apply Itoa_nonempty in He.
    + by rewrite Atoi_Itoa.
  - by intros [-> | ->].
  - intros value msg -> Ha. simpl. rewrite Ha. by destruct (String.eqb _ _).
Qed.

Lemma get_env_int_reads_decimal_witness :
  let env : gmap string string := <["BATCH_SIZE" := "0"]> (<["WORKER_COUNT" := "-4"]> ∅) in
  config.BatchSize (config.Worker (config.Load env)) = 0 /\
  config.Count (config.Worker (config.Load env)) = -4.
Proof.
  intros env. split.
  - apply (proj1 (get_env_int_reads_decimal env "BATCH_SIZE" 1000) 0); reflexivity.
  - apply (proj1 (get_env_int_reads_decimal env "WORKER_COUNT" 100) (-4)); reflexivity.
Defined.

(** * The format of the version hash *)

Lemma round_length st kw : length st = 8%nat -> length (sha256.round st kw) = 8%nat.
Proof.
  intros Hl. do 9 (destruct st as [|? st]; try done).
Qed.

Lemma rounds_length kws st :
  length st = 8%nat -> length (fold_left sha256.round kws st) = 8%nat.
Proof.
  revert st. induction kws as [|kw kws IH]; intros st Hl; [done|].
  simpl. apply IH. by apply round_length.
Qed.

Lemma compress_length h block :
  length h = 8%nat -> length (sha256.compress h block) = 8%nat.
Proof.
  intros Hl. unfold sha256.compress. rewrite length_zip_with, rounds_length by done. lia.
Qed.

Lemma blocks_length blocks h :
  length h = 8%nat -> length (fold_left sha256.compress blocks h) = 8%nat.
Proof.
  revert h. induction blocks as [|b blocks IH]; intros h Hl; [done|].
  simpl. apply IH. by apply compress_length.
Qed.

Lemma be_bytes_length n x : length (sha256.be_bytes n x) = n.
Proof. induction n as [|n IH]; simpl; [done|]. by rewrite IH. Qed.

Lemma words_length (ws : list N) :
  length (flat_map (sha256.be_bytes 4) ws) = (4 * length ws)%nat.
Proof.
  induction ws as [|w ws IH]; [done|].
  cbn [flat_map]. rewrite length_app, be_bytes_length, IH. simpl. lia.
Qed.

Lemma Sum256_length data : length (sha256.Sum256 data) = 32%nat.
Proof.
  unfold sha256.Sum256, sha256.digest.
  rewrite length_map, words_length, blocks_length; [done|]. reflexivity.
Qed.

Lemma hex_digit_table n : (n < 16)%N -> hex.digit n ∈ hex.hextable.
Proof.
  intros Hn. unfold hex.digit.
  assert (Hc : (N.to_nat n < 16)%nat) by lia.
  generalize dependent (N.to_nat n). clear. intros k Hk.
  do 16 (destruct k as [|k]; [cbn; repeat constructor|]). lia.
Qed.

Lemma encode_length src : String.length (hex.EncodeToString src) = (2 * length src)%nat.
Proof. induction src as [|b src IH]; simpl; [done|]. rewrite IH. lia. Qed.

Lemma encode_digits src :
  Forall (fun c => c ∈ hex.hextable) (list_ascii_of_string (hex.EncodeToString src)).
Proof.
  induction src as [|b src IH]; simpl; [constructor|].
  assert (Hb : (Byte.to_N b < 256)%N) by (pose proof (Byte.to_N_bounded b); lia).
  constructor; [|constructor; [|done]]; apply hex_digit_table.
  - rewrite N.shiftr_div_pow2. apply N.Div0.div_lt_upper_bound. simpl. lia.
  - change 15%N with (N.ones 4). rewrite N.land_ones. apply N.mod_lt. done.
Qed.

(** Whatever the bag, the steps and the engine, the version hash of a
    summary is 64 characters long, each a lowercase hexadecimal digit: it
    fits the column [version_hash VARCHAR(64)] of the summary store. *)
Theorem version_hash_format :
  forall (E : ExprEngine) (now : Z) (id : uuid) (S : list ProcessStep) (P : Params),
    let h := VariantCostSummary.VersionHash (CalculateVariantFast now id S P) in
    String.length h = 64%nat /\
    Forall (fun c => c ∈ list_ascii_of_string "0123456789abcdef") (list_ascii_of_string h).
Proof.
  intros E now id S P h. subst h. unfold CalculateVariantFast.
  cbn [VariantCostSummary.VersionHash]. split.
  - by rewrite encode_length, Sum256_length.
  - apply encode_digits.
Qed.

(** * The seeder's helpers *)

Lemma group_strip len i str :
  Forall (fun c => c <> ","%char) str ->
  List.filter (fun c => negb (Ascii.eqb c ","%char)) (group len i str) = str.
Proof.
  revert i. induction str as [|r rest IH]; intros i Hf; [done|].
  apply Forall_cons in Hf as [Hr Hf]. cbn [group].
  assert (Hne : Ascii.eqb r ","%char = false) by (by apply Ascii.eqb_neq).
  destruct ((0 <? i)%nat && ((len - i) mod 3 =? 0)%nat); cbn [List.filter];
    rewrite ?Ascii.eqb_refl, Hne; cbn [negb]; by rewrite IH.
Qed.

Lemma group_arith m :
  ((m + m / 3) mod 4 = m mod 3 /\ m mod 3 < 3 /\
   (S m mod 3 = 0 <-> m mod 3 = 2) /\
   S m / 3 = m / 3 + (if (S m mod 3 =? 0) then 1 else 0))%nat.
Proof.
  pose proof (Nat.div_mod_eq m 3). pose proof (Nat.div_mod_eq (S m) 3).
  pose proof (Nat.mod_upper_bound m 3). pose proof (Nat.mod_upper_bound (S m) 3).
  split; [|split; [lia|split; [lia|]]].
  - rewrite (Nat.mod_unique (m + m / 3) 4 (m / 3) (m mod 3)); lia.
  - destruct (Nat.eqb_spec (S m mod 3) 0); lia.
Qed.

(** What the loop appends from a later index on, and where its commas are,
    counted from the right. *)
Lemma group_commas len i str :
  (0 < i)%nat ->
  (i + length str = len)%nat ->
  Forall (fun c => c <> ","%char) str ->
  (length (group len i str) = length str + length str / 3)%nat /\
  forall k c, rev (group len i str) !! k = Some c -> (c = ","%char <-> (k mod 4 = 3)%nat).
Proof.
  revert i. induction str as [|r rest IH]; intros i Hi Hlen Hf.
  { split; [done|]. by intros k c. }
  apply Forall_cons in Hf as [Hr Hf].
  destruct (IH (S i)) as [Hg IHpos]; [lia|simpl in *; lia|done|].
  assert (Hm : (len - i = S (length rest))%nat) by (simpl in *; lia).
  cbn [group length]. rewrite Hm.
  set (m := length rest) in *.
  destruct (group_arith m) as (Hmod & Hlt & Hnext & Hdiv).
  assert (Hpos : (0 <? i)%nat = true) by (by apply Nat.ltb_lt).
  rewrite Hpos. cbn [andb]. rewrite Hdiv.
  destruct (Nat.eqb_spec (S m mod 3) 0) as [Hz|Hz].
  - split; [cbn [length]; lia|].
    intros k c. cbn [rev]. rewrite <- app_assoc. cbn [app].
    intros Hk. apply lookup_app_Some in Hk as [Hk|[Hge Hk]]; [by apply IHpos|].
    rewrite length_rev, Hg in Hge, Hk.
    destruct (k - (m + m / 3))%nat as [|[|?]] eqn:Hd; simpl in Hk; simplify_eq.
    + assert (k = m + m / 3)%nat as -> by lia. rewrite Hmod. split; [done|]. lia.
    + assert (k = S (m + m / 3))%nat as -> by lia. split; [|done]. intros _.
      pose proof (Nat.div_mod_eq (m + m / 3) 4).
      pose proof (Nat.div_mod_eq (S (m + m / 3)) 4).
      pose proof (Nat.mod_upper_bound (S (m + m / 3)) 4). lia.
  - split; [cbn [length]; lia|].
    intros k c. cbn [rev]. intros Hk.
    apply lookup_app_Some in Hk as [Hk|[Hge Hk]]; [by apply IHpos|].
    rewrite length_rev, Hg in Hge, Hk.
    destruct (k - (m + m / 3))%nat as [|?] eqn:Hd; simpl in Hk; simplify_eq.
    assert (k = m + m / 3)%nat as -> by lia. rewrite Hmod. split; [done|]. lia.
Qed.

Lemma uint_no_comma (d : Decimal.uint) :
  Forall (fun c => c <> ","%char)
         (list_ascii_of_string (DecimalString.NilEmpty.string_of_uint d)).
Proof. induction d; simpl; constructor; done. Qed.

Lemma Itoa_no_comma (n : Z) :
  Forall (fun c => c <> ","%char) (list_ascii_of_string (strconv.Itoa n)).
Proof.
  assert (Hd : forall m, Forall (fun c => c <> ","%char)
                           (list_ascii_of_string (strconv.digits m))).
  { intros m. unfold strconv.digits, DecimalString.NilZero.string_of_uint.
    destruct (N.to_uint (Z.to_N m)) eqn:Hm; try (rewrite <- Hm; apply uint_no_comma).
    by repeat constructor. }
  unfold strconv.Itoa. destruct (n <? 0); [|apply Hd].
  simpl. constructor; [done|apply Hd].
Qed.

Lemma string_length_list (s : string) :
  String.length s = length (list_ascii_of_string s).
Proof. induction s as [|c s IH]; simpl; [done|]. by rewrite IH. Qed.

(** [formatNumber] writes the decimal form of [n] with a comma before every
    group of three characters counted from the right: taking the commas out
    gives the decimal form back, and, from the right, every fourth
    character is a comma and no other is.  The sign of a negative number is
    counted as a digit would be. *)
Theorem format_number_groups :
  forall (n : Z),
    let str := list_ascii_of_string (strconv.Itoa n) in
    let out := list_ascii_of_string (formatNumber n) in
    List.filter (fun c => negb (Ascii.eqb c ","%char)) out = str /\
    length out = (length str + (length str - 1) / 3)%nat /\
    (forall k c, rev out !! k = Some c -> (c = ","%char <-> (k mod 4 = 3)%nat)).
Proof.
  intros n str out. subst out. unfold formatNumber.
  rewrite list_ascii_of_string_of_list_ascii, string_length_list. fold str.
  pose proof (Itoa_no_comma n) as Hf. fold str in Hf.
  split; [by apply group_strip|].
  destruct str as [|r rest] eqn:Hstr; [done|].
  apply Forall_cons in Hf as [Hr Hf].
  cbn [group Nat.ltb Nat.leb andb length].
  destruct (group_commas (S (length rest)) 1 rest) as [Hg Hpos]; [lia|lia|done|].
  destruct (group_arith (length rest)) as (Hmod & Hlt & _ & _).
  split.
  - rewrite Hg. replace (S (length rest) - 1)%nat with (length rest) by lia. done.
  - intros k c. cbn [rev]. intros Hk.
    apply lookup_app_Some in Hk as [Hk|[Hge Hk]]; [by apply Hpos|].
    rewrite length_rev, Hg in Hge, Hk.
    destruct (k - (length rest + length rest / 3))%nat as [|?] eqn:Hd; simpl in Hk;
      simplify_eq.
    assert (k = length rest + length rest / 3)%nat as -> by lia.
    rewrite Hmod. split; [done|]. lia.
Qed.

Lemma chars_append (a b : string) :
  list_ascii_of_string (a +:+ b) = list_ascii_of_string a ++ list_ascii_of_string b.
Proof. induction a as [|c a IH]; simpl; [done|]. by rewrite IH. Qed.

Lemma prefixes_no_digit :
  Forall (fun p => List.filter is_digit (list_ascii_of_string p) = []) prefixes.
Proof. repeat constructor. Qed.

Lemma uint_digits (d : Decimal.uint) :
  List.filter is_digit (list_ascii_of_string (DecimalString.NilEmpty.string_of_uint d))
  = list_ascii_of_string (DecimalString.NilEmpty.string_of_uint d).
Proof. induction d; simpl; [done|..]; by f_equal. Qed.

Lemma digits_digits (m : Z) :
  List.filter is_digit (list_ascii_of_string (strconv.digits m))
  = list_ascii_of_string (strconv.digits m).
Proof.
  unfold strconv.digits, DecimalString.NilZero.string_of_uint.
  destruct (N.to_uint (Z.to_N m)) eqn:Hm; try (rewrite <- Hm; apply uint_digits). done.
Qed.

Lemma digits_inj (m n : N) :
  strconv.digits (Z.of_N m) = strconv.digits (Z.of_N n) -> m = n.
Proof.
  intros Heq. destruct (digits_parse m) as (u & Hu & <-).
  destruct (digits_parse n) as (v & Hv & <-). rewrite Heq in Hu. congruence.
Qed.

Lemma parameter_name_digits (i : nat) :
  List.filter is_digit (list_ascii_of_string (parameter_name i))
  = if (0 <? i / 20)%nat
    then list_ascii_of_string (strconv.digits (Z.of_nat (i / 20)))
    else [].
Proof.
  unfold parameter_name.
  assert (Hp : List.filter is_digit
                 (list_ascii_of_string (nth (i mod length prefixes) prefixes EmptyString))
               = []).
  { pose proof prefixes_no_digit as Hf. rewrite Forall_forall in Hf. apply Hf.
    apply list_elem_of_In, nth_In. apply Nat.mod_upper_bound. done. }
  change (length prefixes) with 20%nat in *.
  destruct (0 <? i / 20)%nat; [|done].
  rewrite !chars_append, !List.filter_app, Hp.
  change (List.filter is_digit (list_ascii_of_string "_")) with (@nil ascii).
  cbn [app]. unfold strconv.Itoa.
  destruct (Z.ltb_spec (Z.of_nat (i / 20)) 0) as [?|_]; [lia|].
  apply digits_digits.
Qed.

Lemma parameter_name_inj (i j : nat) : parameter_name i = parameter_name j -> i = j.
Proof.
  intros Heq.
  pose proof (f_equal (fun s => List.filter is_digit (list_ascii_of_string s)) Heq) as Hd.
  cbv beta in Hd. rewrite !parameter_name_digits in Hd.
  assert (Hne : forall k, list_ascii_of_string (strconv.digits (Z.of_nat k)) <> []).
  { intros k Hk. pose proof (digits_unsigned (N.of_nat k)) as Hs.
    rewrite nat_N_Z in Hs. by destruct (strconv.digits (Z.of_nat k)). }
  assert (Hs : (i / 20 = j / 20)%nat).
  { destruct (Nat.ltb_spec 0 (i / 20)) as [Hi|Hi], (Nat.ltb_spec 0 (j / 20)) as [Hj|Hj];
      try lia.
    - apply (f_equal string_of_list_ascii) in Hd.
      rewrite !string_of_list_ascii_of_string in Hd.
      rewrite <- !nat_N_Z in Hd. apply digits_inj in Hd. lia.
    - by apply Hne in Hd.
    - symmetry in Hd. by apply Hne in Hd. }
  assert (Hp : nth (i mod 20) prefixes EmptyString = nth (j mod 20) prefixes EmptyString).
  { unfold parameter_name in Heq. change (length prefixes) with 20%nat in Heq.
    rewrite <- Hs in Heq. destruct (0 <? i / 20)%nat; [|done].
    apply (f_equal list_ascii_of_string) in Heq. rewrite !chars_append in Heq.
    apply app_inv_tail in Heq.
    apply (f_equal string_of_list_ascii) in Heq.
    by rewrite !string_of_list_ascii_of_string in Heq. }
  assert (Hm : (i mod 20 = j mod 20)%nat).
  { pose proof (Nat.mod_upper_bound i 20 ltac:(done)) as Hi.
    pose proof (Nat.mod_upper_bound j 20 ltac:(done)) as Hj.
    assert (Hnd : List.NoDup prefixes).
    { apply NoDup_ListNoDup. compute_done. }
    eapply (proj1 (List.NoDup_nth prefixes EmptyString) Hnd); done. }
  rewrite (Nat.div_mod_eq i 20), (Nat.div_mod_eq j 20). lia.
Qed.

(** The seeder's parameter names: as many as asked for, and no two of them
    the same, whatever the count, so that each registers a parameter of its
    own. *)
Theorem parameter_names_distinct :
  forall (count : nat),
    length (generateParameterNames count) = count /\
    NoDup (generateParameterNames count).
Proof.
  intros count. unfold generateParameterNames. split.
  - by rewrite length_fmap, length_seq.
  - apply NoDup_fmap_2; [|apply NoDup_seq]. intros i j. apply parameter_name_inj.
Qed.

(** * The callers of [RecalculateAll] *)

Section CallerFacts.
Context `{ExprEngine}.
Variable wp : WorkerPool.

Lemma start_jobs jobID d cf idf sf ok s0 :
  start wp jobID d cf idf sf ok = Ok s0 ->
  cf = false /\ idf = false /\
  exists cache,
    s0 = spawn wp cache
           (with_jobs d (if ok
                         then persistence.UpdateStatus (batch_jobs d) jobID JobStatusRunning 0 0
                         else batch_jobs d)).
Proof.
  unfold start, loadRoutingStepsCache. intros Hs.
  destruct cf; [done|]. destruct idf; [done|]. simplify_eq. eauto.
Qed.

Lemma start_fails jobID d cf idf sf ok e :
  start wp jobID d cf idf sf ok = Err e -> cf || idf = true.
Proof.
  unfold start, loadRoutingStepsCache. intros Hs.
  destruct cf; [done|]. by destruct idf.
Qed.

Lemma run_error_message jobID P s0 tr s :
  exec wp jobID P s0 tr s ->
  BatchJob.ErrorMessage <$> batch_jobs (database s) !! jobID
  = BatchJob.ErrorMessage <$> batch_jobs (database s0) !! jobID.
Proof.
  induction 1 as [|tr s e s' Hex IH Hs]; [done|].
  rewrite <- IH. apply step_jobs in Hs.
  destruct e as [vs| | |w|w|w sm'|sm'|i| |sm'|b wr pr| |p f|ok']; try (by rewrite Hs).
  - destruct pr as [[|]|]; try (by rewrite Hs).
    unfold persistence.UpdateProgress in Hs.
    destruct (batch_jobs (database s) !! jobID) eqn:Hrow;
      [|injection Hs as Hs; by rewrite <- Hs, Hrow].
    case_match; [|done]. injection Hs as Hs. rewrite <- Hs. by rewrite lookup_insert_eq.
  - destruct ok'; [|by rewrite Hs]. destruct Hs as [now ->].
    rewrite complete_row. by destruct (batch_jobs (database s) !! jobID).
Qed.

(** What [RecalculateAll] leaves of a job's row: completed when it returns
    no error; as it was, or running, when it returns one. *)
Lemma recalculate_all_row jobID P d cf idf sf ok chs r d' job :
  RecalculateAll wp jobID P d cf idf sf ok chs = Some (r, d') ->
  batch_jobs d !! jobID = Some job ->
  exists job',
    batch_jobs d' !! jobID = Some job' /\
    BatchJob.ErrorMessage job' = BatchJob.ErrorMessage job /\
    BatchJob.Status job'
    = match r with
      | None => JobStatusCompleted
      | Some _ =>
          if cf || idf || negb ok then BatchJob.Status job else JobStatusRunning
      end.
Proof.
  unfold RecalculateAll. intros Hr Hjob.
  destruct (start wp jobID d cf idf sf ok) as [s0|e] eqn:Hstart.
  2:{ simplify_eq. exists job. split; [done|]. split; [done|].
      apply start_fails in Hstart. by rewrite Hstart. }
  destruct (run wp jobID P chs s0) as [[tr s]|] eqn:Hrun; [|done].
  destruct (main s) as [| |r'] eqn:Hm; try done. simplify_eq.
  apply run_exec in Hrun.
  apply start_jobs in Hstart as (-> & -> & cache & ->).
  pose proof (run_error_message _ _ _ _ _ Hrun) as Hmsg.
  pose proof (run_status _ _ _ _ _ _ Hrun eq_refl) as Hst. rewrite Hm in Hst.
  unfold job_status in Hst. simpl in Hst, Hmsg.
  assert (Hrow : (if ok
                  then persistence.UpdateStatus (batch_jobs d) jobID JobStatusRunning 0 0
                  else batch_jobs d) !! jobID
                 = Some (if ok then persistence.set_status JobStatusRunning 0 0 job else job)).
  { destruct ok; [|done]. by rewrite update_status_row, Hjob. }
  rewrite Hrow in Hst, Hmsg.
  destruct (batch_jobs (database s) !! jobID) as [job'|]; [|by destruct ok].
  exists job'. split; [done|]. simpl in Hst, Hmsg.
  split; [by destruct ok; simplify_eq|].
  destruct r as [msg|]; destruct ok; simpl in *; by simplify_eq.
Qed.
End CallerFacts.

(** The job that the handler of [POST /recalculate/all] registers is
    completed when [RecalculateAll] returns no error.  When it returns one,
    be it before the goroutines are started, and the handler's call of
    [jobRepo.Fail] goes through, the job is failed, with the error as its
    message.  When that call fails as well, its error being dropped, the
    job stays as [RecalculateAll] left it: pending, when the run failed
    before the job was marked running, or running, and with no message. *)
Theorem api_job_outcome :
  forall (E : ExprEngine) (wp : WorkerPool) (jobID : uuid) (now : Z) (baseParams : Params)
         (d : Database) (create_fail : option string) (count_fail ids_fail : bool)
         (steps_fail : uuid -> bool) (status_ok : bool) (chs : list Choice)
         (fail_ok : bool) (failed_at : Z) (d' : Database),
    recalculate_all wp jobID now baseParams d create_fail count_fail ids_fail steps_fail
      status_ok chs fail_ok failed_at = Ok (Some d') ->
    create_fail = None /\
    exists job r d1,
      RecalculateAll wp jobID baseParams
        (with_jobs d (<[jobID := new_job jobID now]> (batch_jobs d)))
        count_fail ids_fail steps_fail status_ok chs = Some (r, d1) /\
      batch_jobs d' !! jobID = Some job /\
      BatchJob.Status job
      = match r with
        | None => JobStatusCompleted
        | Some _ =>
            if fail_ok then JobStatusFailed
            else if count_fail || ids_fail || negb status_ok then JobStatusPending
            else JobStatusRunning
        end /\
      BatchJob.ErrorMessage job = (if fail_ok then default EmptyString r else EmptyString).
Proof.
  intros E wp jobID now P d crf cf idf sf ok chs fok failed_at d' Hh.
  unfold recalculate_all, persistence.Create in Hh. simpl in Hh.
  destruct crf as [e|]; [done|]. split; [done|].
  destruct (batch_jobs d !! jobID) eqn:Hfree; [done|].
  destruct (RecalculateAll _ _ _ _ _ _ _ _ _) as [[r d1]|] eqn:Hr; [|done].
  destruct (recalculate_all_row wp _ _ _ _ _ _ _ _ _ _ (new_job jobID now) Hr)
    as (job' & Hrow & Hmsg & Hst).
  { simpl. by rewrite lookup_insert_eq. }
  destruct r as [err|].
  - destruct fok; injection Hh as Hh; rewrite <- Hh.
    + eexists _, (Some err), d1. split; [done|]. simpl.
      unfold persistence.Fail. rewrite lookup_alter_eq, Hrow. simpl. done.
    + exists job', (Some err), d1. done.
  - injection Hh as Hh. rewrite <- Hh.
    exists job', None, d1. split; [done|]. split; [done|]. split; [done|].
    rewrite Hmsg. by destruct fok.
Qed.

Lemma api_job_outcome_witness :
  exists d' job,
    @recalculate_all exprlang.engine demo_wp 78%N 0 scenario_a_bag demo_db None
      true false (fun _ => false) true [] false 300 = Ok (Some d') /\
    batch_jobs d' !! 78%N = Some job /\
    BatchJob.Status job = JobStatusPending /\
    BatchJob.ErrorMessage job = EmptyString.
Proof.
  destruct (@recalculate_all exprlang.engine demo_wp 78%N 0 scenario_a_bag demo_db None
              true false (fun _ => false) true [] false 300) as [[d'|]|e] eqn:Hh;
    [|discriminate Hh|discriminate Hh].
  destruct (api_job_outcome exprlang.engine demo_wp 78%N 0 scenario_a_bag demo_db None
              true false (fun _ => false) true [] false 300 d' Hh)
    as (_ & job & r & d1 & Hr & Hrow & Hst & Hmsg).
  exists d', job. split; [reflexivity|]. split; [exact Hrow|].
  destruct r as [msg|]; [|discriminate Hr].
  split; [exact Hst|exact Hmsg].
Defined.

(** The worker binary does nothing about an error of [RecalculateAll]: the
    job it took up pending is completed when the call returns no error, and
    otherwise stays pending, when the call fails before the job is marked
    running, or running; it is never marked failed, and no message is
    recorded. *)
Theorem worker_job_outcome :
  forall (E : ExprEngine) (wp : WorkerPool) (job : BatchJob) (baseParams : Params)
         (d : Database) (count_fail ids_fail : bool) (steps_fail : uuid -> bool)
         (status_ok : bool) (chs : list Choice) (d' : Database),
    batch_jobs d !! BatchJob.ID job = Some job ->
    BatchJob.Status job = JobStatusPending ->
    processJob wp job baseParams d count_fail ids_fail steps_fail status_ok chs = Some d' ->
    exists job' r,
      RecalculateAll wp (BatchJob.ID job) baseParams d
        count_fail ids_fail steps_fail status_ok chs = Some (r, d') /\
      batch_jobs d' !! BatchJob.ID job = Some job' /\
      BatchJob.ErrorMessage job' = BatchJob.ErrorMessage job /\
      BatchJob.Status job'
      = match r with
        | None => JobStatusCompleted
        | Some _ =>
            if count_fail || ids_fail || negb status_ok then JobStatusPending
            else JobStatusRunning
        end.
Proof.
  intros E wp job P d cf idf sf ok chs d' Hjob Hpending Hp.
  unfold processJob in Hp.
  destruct (RecalculateAll _ _ _ _ _ _ _ _ _) as [[r d1]|] eqn:Hr; [|done].
  simpl in Hp. simplify_eq.
  destruct (recalculate_all_row wp _ _ _ _ _ _ _ _ _ _ job Hr Hjob)
    as (job' & Hrow & Hmsg & Hst).
  exists job', r. rewrite Hpending in Hst. done.
Qed.

Lemma worker_job_outcome_witness :
  exists d' job',
    @processJob exprlang.engine demo_wp (new_job 77%N 0) scenario_a_bag demo_db
      false true (fun _ => false) true [] = Some d' /\
    batch_jobs d' !! 77%N = Some job' /\
    BatchJob.Status job' = JobStatusPending.
Proof.
  assert (Hp : @processJob exprlang.engine demo_wp (new_job 77%N 0) scenario_a_bag demo_db
                 false true (fun _ => false) true [] = Some demo_db) by reflexivity.
  destruct (worker_job_outcome exprlang.engine demo_wp (new_job 77%N 0) scenario_a_bag
              demo_db false true (fun _ => false) true [] demo_db eq_refl eq_refl Hp)
    as (job' & r & Hr & Hrow & _ & Hst).
  exists demo_db, job'. split; [exact Hp|]. split; [exact Hrow|].
  destruct r as [msg|]; [exact Hst|discriminate Hr].
Defined.
